(** * Path geometry and composition layout of [scripts/compose_svg_drawable.py]

    A shallow embedding of the path-data tokenizer, the two path
    interpreters ([path_bbox] and [transform_path_data]), the curve math,
    the bounding-box algebra, the number formatter and the layout part of
    [build_vector_xml], followed by the properties stated about them.

    Numbers.  The script computes with Python floats.  They are modelled
    as real numbers with exact arithmetic: rounding error of the binary
    representation is outside the model, every comparison, guard and
    formula is the one of the source.  Strings are [string]; the values of
    numeric literals are exact decimal fractions. *)

From Stdlib Require Import Reals Lra Psatz ZArith Lia List String Ascii Bool.
From Stdlib Require Import DecimalString DecimalPos.
Import ListNotations.

Set Implicit Arguments.

(* ================================================================== *)
(** * Results of fallible, possibly looping code *)

(** The [ValueError]s (and the [IndexError] of the transformer's
    [read_number]) the interpreters can raise. *)
Inductive error : Type :=
| MissingCommand      (* "Path data missing command" *)
| UnexpectedEnd       (* read past the last token *)
| BadNumber           (* float() applied to a token that is no number *)
| UnsupportedCommand. (* "Unsupported SVG path command" *)

(** [OutOfFuel] stands for a [while] loop that has not finished within
    the iterations it was given. *)
Inductive result (A : Type) : Type :=
| Ok (a : A)
| Err (e : error)
| OutOfFuel.

Arguments Ok {A} a.
Arguments Err {A} e.
Arguments OutOfFuel {A}.

Definition bind {A B : Type} (r : result A) (k : A -> result B) : result B :=
  match r with
  | Ok a => k a
  | Err e => Err e
  | OutOfFuel => OutOfFuel
  end.

Declare Scope result_scope.
Delimit Scope result_scope with result.
Notation "'let*' x ':=' r 'in' k" :=
  (bind r (fun x => k))
  (at level 10, x pattern, r at level 100, k at level 200) : result_scope.

(* ================================================================== *)
(** * Characters and strings *)

Open Scope string_scope.

Definition char_in (c : ascii) (s : string) : bool :=
  existsb (Ascii.eqb c) (list_ascii_of_string s).

Definition is_digit (c : ascii) : bool :=
  ((48 <=? nat_of_ascii c) && (nat_of_ascii c <=? 57))%nat.

Definition is_sign (c : ascii) : bool := char_in c "-+".

Definition is_exp_mark (c : ascii) : bool := char_in c "eE".

(** [A-Za-z] *)
Definition is_letter (c : ascii) : bool :=
  (((65 <=? nat_of_ascii c) && (nat_of_ascii c <=? 90))
   || ((97 <=? nat_of_ascii c) && (nat_of_ascii c <=? 122)))%nat.

(** The command class of the tokenizer's regular expression. *)
Definition is_command_letter (c : ascii) : bool :=
  char_in c "MmLlHhVvCcSsQqTtAaZz".

(** The longest prefix of digits, and what follows it. *)
Fixpoint span_digits (s : string) : string * string :=
  match s with
  | String c r =>
      if is_digit c
      then let (ds, rest) := span_digits r in (String c ds, rest)
      else (EmptyString, s)
  | EmptyString => (EmptyString, EmptyString)
  end.

(** [sep.join(parts)] *)
Fixpoint join (sep : string) (parts : list string) : string :=
  match parts with
  | [] => EmptyString
  | [p] => p
  | p :: ps => p ++ sep ++ join sep ps
  end.

Fixpoint string_rev_acc (s acc : string) : string :=
  match s with
  | EmptyString => acc
  | String c r => string_rev_acc r (String c acc)
  end.

Definition string_rev (s : string) : string := string_rev_acc s EmptyString.

Fixpoint lstrip_char (c : ascii) (s : string) : string :=
  match s with
  | String d r => if Ascii.eqb d c then lstrip_char c r else s
  | EmptyString => EmptyString
  end.

(** [s.rstrip(c)] for a one-character argument. *)
Definition rstrip (c : ascii) (s : string) : string :=
  string_rev (lstrip_char c (string_rev s)).

(* ================================================================== *)
(** * Path tokenizer

    [re.findall(r"[MmLlHhVvCcSsQqTtAaZz]|[-+]?(?:\d*\.\d+|\d+)(?:[eE][-+]?\d+)?", d)]:
    at each position the first alternative that matches gives a token,
    and a position where neither matches is skipped.  A token is the
    matched text. *)

(** [(?:\d*\.\d+|\d+)] *)
Definition match_mantissa (s : string) : option (string * string) :=
  let (ds, r) := span_digits s in
  let whole := match ds with EmptyString => None | _ => Some (ds, r) end in
  match r with
  | String c r' =>
      if Ascii.eqb c "." then
        let (fs, r'') := span_digits r' in
        match fs with
        | EmptyString => whole
        | _ => Some (ds ++ String "." fs, r'')
        end
      else whole
  | EmptyString => whole
  end.

(** [(?:[eE][-+]?\d+)?]: the matched text (possibly empty) and the rest. *)
Definition match_exponent (s : string) : string * string :=
  match s with
  | String e r =>
      if is_exp_mark e then
        match r with
        | String sg r' =>
            if is_sign sg then
              let (ds, r'') := span_digits r' in
              match ds with
              | EmptyString => (EmptyString, s)
              | _ => (String e (String sg ds), r'')
              end
            else
              let (ds, r'') := span_digits r in
              match ds with
              | EmptyString => (EmptyString, s)
              | _ => (String e ds, r'')
              end
        | EmptyString => (EmptyString, s)
        end
      else (EmptyString, s)
  | EmptyString => (EmptyString, s)
  end.

(** [(?:\d*\.\d+|\d+)(?:[eE][-+]?\d+)?] *)
Definition match_unsigned (t : string) : option (string * string) :=
  match match_mantissa t with
  | Some (m, r) => let (e, r') := match_exponent r in Some (m ++ e, r')
  | None => None
  end.

(** The second alternative of the regular expression at the head of [s]:
    an optional sign, then the unsigned part; a sign that nothing
    follows is no match. *)
Definition match_number (s : string) : option (string * string) :=
  match s with
  | String c r =>
      if is_sign c then
        match match_unsigned r with
        | Some (txt, rest) => Some (String c txt, rest)
        | None => None
        end
      else match_unsigned s
  | EmptyString => None
  end.

(** One scanning position per unit of fuel; a match consumes at least one
    character, so the length of the input is enough fuel. *)
Fixpoint scan (fuel : nat) (s : string) : list string :=
  match fuel with
  | O => []
  | S f =>
      match s with
      | EmptyString => []
      | String c r =>
          if is_command_letter c then String c EmptyString :: scan f r
          else
            match match_number s with
            | Some (txt, rest) => txt :: scan f rest
            | None => scan f r
            end
      end
  end.

Definition tokenize (path_data : string) : list string :=
  scan (String.length path_data) path_data.

(* ================================================================== *)
(** * Values of numeric literals: [float(token)] *)

Definition digit_value (c : ascii) : Z := Z.of_nat (nat_of_ascii c - 48).

Fixpoint digits_value (acc : Z) (s : string) : Z :=
  match s with
  | EmptyString => acc
  | String c r => digits_value (acc * 10 + digit_value c) r
  end.

Fixpoint all_digits (s : string) : bool :=
  match s with
  | EmptyString => true
  | String c r => is_digit c && all_digits r
  end.

(** A leading sign, and what follows it. *)
Definition split_sign (s : string) : bool * string :=
  match s with
  | String c r =>
      if Ascii.eqb c "-" then (true, r)
      else if Ascii.eqb c "+" then (false, r)
      else (false, s)
  | EmptyString => (false, s)
  end.

(** The digits after a decimal point, and what follows them; no digits
    when there is no point. *)
Definition split_fraction (s : string) : string * string :=
  match s with
  | String c r => if Ascii.eqb c "." then span_digits r else (EmptyString, s)
  | EmptyString => (EmptyString, s)
  end.

Definition starts_with_dot (s : string) : bool :=
  match s with
  | String c _ => Ascii.eqb c "."
  | EmptyString => false
  end.

(** The value of an exponent part [e sign digits], [0] for no exponent
    part; [None] for anything else. *)
Definition parse_exponent (s : string) : option Z :=
  match s with
  | EmptyString => Some 0%Z
  | String e r =>
      if is_exp_mark e then
        let (neg, ds) := split_sign r in
        if all_digits ds && negb (String.length ds =? 0)%nat
        then Some (if neg then - digits_value 0 ds else digits_value 0 ds)%Z
        else None
      else None
  end.

(** A literal [sign digits . digits e sign digits] read as the pair of an
    integer mantissa and a decimal exponent. *)
Definition parse_decimal (s : string) : option (Z * Z) :=
  let (neg, body) := split_sign s in
  let (ip, r1) := span_digits body in
  let (fp, r2) := split_fraction r1 in
  let has_digits :=
    negb ((String.length ip =? 0)%nat && (String.length fp =? 0)%nat) in
  let dot_ok :=
    negb (starts_with_dot r1 && (String.length fp =? 0)%nat) in
  match parse_exponent r2 with
  | Some e =>
      if has_digits && dot_ok then
        let m := digits_value 0 (ip ++ fp) in
        Some ((if neg then - m else m)%Z, (e - Z.of_nat (String.length fp))%Z)
      else None
  | None => None
  end.

Open Scope R_scope.

(** [m * 10^e] as a real number. *)
Definition decimal (m e : Z) : R :=
  if (0 <=? e)%Z then IZR (m * 10 ^ e) else IZR m / IZR (10 ^ (- e)).

(** [float(text)] on the texts the tokenizer produces; [None] where
    [float] raises [ValueError]. *)
Definition float_of_string (s : string) : option R :=
  match parse_decimal s with
  | Some (m, e) => Some (decimal m e)
  | None => None
  end.

(* ================================================================== *)
(** * Comparisons and rounding on numbers *)

Definition Rltb (a b : R) : bool := if Rlt_dec a b then true else false.
Definition Rleb (a b : R) : bool := if Rle_dec a b then true else false.
Definition Reqb (a b : R) : bool := if Req_dec_T a b then true else false.

(** [round(v)] with one argument: the nearest integer, a tie going to the
    even one. *)
Definition round_half_even (v : R) : Z :=
  let f := Zfloor v in
  let d := v - IZR f in
  if Rltb d (1 / 2) then f
  else if Rltb (1 / 2) d then (f + 1)%Z
  else if Z.even f then f else (f + 1)%Z.

(** [int(v)]: truncation towards zero. *)
Definition int_trunc (v : R) : Z :=
  if Rleb 0 v then Zfloor v else Zceil v.

(** [str(n)] for an integer. *)
Definition str_int (n : Z) : string := NilZero.string_of_int (Z.to_int n).

(* ================================================================== *)
(** * Number formatting *)

Definition digit_char (d : Z) : ascii := ascii_of_nat (48 + Z.to_nat d).

(** Four decimal digits of [n], for [0 <= n < 10000]. *)
Definition pad4 (n : Z) : string :=
  String (digit_char (n / 1000))
    (String (digit_char (n / 100 mod 10))
       (String (digit_char (n / 10 mod 10))
          (String (digit_char (n mod 10)) EmptyString))).

(** [f"{v:.4f}"]: the magnitude rounded to a multiple of 1/10000, ties to
    even, printed with exactly four decimals; the sign is the one of [v],
    also when the rounded magnitude is zero. *)
Definition format_4f (v : R) : string :=
  let n := round_half_even (Rabs v * 10000) in
  ((if Rltb v 0 then "-" else EmptyString)
   ++ str_int (n / 10000) ++ "." ++ pad4 (n mod 10000))%string.

Definition fmt_number (value : R) : string :=
  if Rltb (Rabs (value - IZR (round_half_even value))) (1 / 1000000)
  then str_int (round_half_even value)
  else rstrip "." (rstrip "0" (format_4f value)).

(* ================================================================== *)
(** * Bounding box algebra *)

(** The 4-tuple [(min x, min y, max x, max y)]; [None] is Python's [None]. *)
Record box : Type := Box { x_min : R; y_min : R; x_max : R; y_max : R }.

Definition bbox_union (bbox other : option box) : option box :=
  match other with
  | None => bbox
  | Some o =>
      match bbox with
      | None => other
      | Some b =>
          Some (Box (Rmin (x_min b) (x_min o)) (Rmin (y_min b) (y_min o))
                    (Rmax (x_max b) (x_max o)) (Rmax (y_max b) (y_max o)))
      end
  end.

Definition box_translate (b : box) (dx dy : R) : box :=
  Box (x_min b + dx) (y_min b + dy) (x_max b + dx) (y_max b + dy).

Definition bbox_translate (bbox : option box) (dx dy : R) : option box :=
  match bbox with
  | None => None
  | Some b => Some (box_translate b dx dy)
  end.

Definition box_scale (b : box) (scale : R) : box :=
  Box (x_min b * scale) (y_min b * scale) (x_max b * scale) (y_max b * scale).

Definition bbox_scale (bbox : option box) (scale : R) : option box :=
  match bbox with
  | None => None
  | Some b => Some (box_scale b scale)
  end.


(* ================================================================== *)
(** * Curve math (the local functions of [path_bbox]) *)

Definition cubic_point (p0 p1 p2 p3 t : R) : R :=
  let mt := 1 - t in
  mt * mt * mt * p0
  + 3 * mt * mt * t * p1
  + 3 * mt * t * t * p2
  + t * t * t * p3.

Definition quadratic_point (p0 p1 p2 t : R) : R :=
  let mt := 1 - t in
  mt * mt * p0 + 2 * mt * t * p1 + t * t * p2.

(** [1e-8] *)
Definition eps : R := 1 / 100000000.

(** [0 < t < 1] *)
Definition in_open_unit (t : R) : bool := Rltb 0 t && Rltb t 1.

Definition cubic_extrema (p0 p1 p2 p3 : R) : list R :=
  let a := - p0 + 3 * p1 - 3 * p2 + p3 in
  let b := 2 * (p0 - 2 * p1 + p2) in
  let c := p1 - p0 in
  if Rltb (Rabs a) eps then
    if Rltb eps (Rabs b) then
      let t := - c / b in
      if in_open_unit t then [t] else []
    else []
  else
    let disc := b * b - 4 * a * c in
    if Rleb 0 disc then
      let root := sqrt disc in
      let t1 := (- b + root) / (2 * a) in
      let t2 := (- b - root) / (2 * a) in
      ((if in_open_unit t1 then [t1] else [])
         ++ (if in_open_unit t2 then [t2] else []))%list
    else [].

Definition quadratic_extrema (p0 p1 p2 : R) : list R :=
  let denom := p0 - 2 * p1 + p2 in
  if Rltb (Rabs denom) eps then []
  else
    let t := (p0 - p1) / denom in
    if in_open_unit t then [t] else [].

(** [min(xs)] and [max(xs)] of the non-empty list [x :: xs]. *)
Definition min_list (x : R) (xs : list R) : R := fold_left Rmin xs x.
Definition max_list (x : R) (xs : list R) : R := fold_left Rmax xs x.

(** The box of one cubic segment: the tuple [cubic_bbox] unions into the
    accumulator. *)
Definition cubic_box (x0 y0 x1 y1 x2 y2 x3 y3 : R) : box :=
  let xs := x3 :: map (cubic_point x0 x1 x2 x3) (cubic_extrema x0 x1 x2 x3) in
  let ys := y3 :: map (cubic_point y0 y1 y2 y3) (cubic_extrema y0 y1 y2 y3) in
  Box (min_list x0 xs) (min_list y0 ys) (max_list x0 xs) (max_list y0 ys).

Definition cubic_bbox (bbox : option box) (x0 y0 x1 y1 x2 y2 x3 y3 : R)
  : option box :=
  bbox_union bbox (Some (cubic_box x0 y0 x1 y1 x2 y2 x3 y3)).

Definition quadratic_box (x0 y0 x1 y1 x2 y2 : R) : box :=
  let xs := x2 :: map (quadratic_point x0 x1 x2) (quadratic_extrema x0 x1 x2) in
  let ys := y2 :: map (quadratic_point y0 y1 y2) (quadratic_extrema y0 y1 y2) in
  Box (min_list x0 xs) (min_list y0 ys) (max_list x0 xs) (max_list y0 ys).

Definition quadratic_bbox (bbox : option box) (x0 y0 x1 y1 x2 y2 : R)
  : option box :=
  bbox_union bbox (Some (quadratic_box x0 y0 x1 y1 x2 y2)).

Definition add_point (bbox : option box) (px py : R) : option box :=
  bbox_union bbox (Some (Box px py px py)).

(** [math.atan2(y, x)] *)
Definition atan2 (y x : R) : R :=
  if Rltb 0 x then atan (y / x)
  else if Rltb x 0 then
    if Rleb 0 y then atan (y / x) + PI else atan (y / x) - PI
  else if Rltb 0 y then PI / 2
  else if Rltb y 0 then - (PI / 2)
  else 0.

(** [angle(u, v)] of [arc_bbox] *)
Definition angle (u v : R * R) : R :=
  atan2 (fst u * snd v - snd u * fst v) (fst u * fst v + snd u * snd v).

(** [a % 360.0] *)
Definition fmod360 (a : R) : R := a - 360 * IZR (Zfloor (a / 360)).

Definition arc_bbox (bbox : option box)
  (x0 y0 rx ry phi : R) (large_arc sweep : bool) (x1 y1 : R) : option box :=
  if Reqb rx 0 || Reqb ry 0 then
    bbox_union bbox
      (Some (Box (Rmin x0 x1) (Rmin y0 y1) (Rmax x0 x1) (Rmax y0 y1)))
  else
    let phi_rad := fmod360 phi * (PI / 180) in
    let cos_phi := cos phi_rad in
    let sin_phi := sin phi_rad in
    let dx := (x0 - x1) / 2 in
    let dy := (y0 - y1) / 2 in
    let x1p := cos_phi * dx + sin_phi * dy in
    let y1p := - sin_phi * dx + cos_phi * dy in
    let rx := Rabs rx in
    let ry := Rabs ry in
    let lam := (x1p * x1p) / (rx * rx) + (y1p * y1p) / (ry * ry) in
    let scale := if Rltb 1 lam then sqrt lam else 1 in
    let rx := rx * scale in
    let ry := ry * scale in
    let sign := if Bool.eqb large_arc sweep then -1 else 1 in
    let num := rx * rx * ry * ry - rx * rx * y1p * y1p - ry * ry * x1p * x1p in
    let den := rx * rx * y1p * y1p + ry * ry * x1p * x1p in
    let coef := if Reqb den 0 then 0 else sign * sqrt (Rmax 0 (num / den)) in
    let cxp := coef * (rx * y1p / ry) in
    let cyp := coef * (- ry * x1p / rx) in
    let cx := cos_phi * cxp - sin_phi * cyp + (x0 + x1) / 2 in
    let cy := sin_phi * cxp + cos_phi * cyp + (y0 + y1) / 2 in
    let v1 := ((x1p - cxp) / rx, (y1p - cyp) / ry) in
    let v2 := ((- x1p - cxp) / rx, (- y1p - cyp) / ry) in
    let theta1 := angle (1, 0) v1 in
    let delta := angle v1 v2 in
    let delta := if negb sweep && Rltb 0 delta then delta - 2 * PI else delta in
    let delta := if sweep && Rltb delta 0 then delta + 2 * PI else delta in
    let steps := 20%nat in
    fold_left
      (fun acc i =>
         let t := INR i / INR steps in
         let theta := theta1 + delta * t in
         let cos_t := cos theta in
         let sin_t := sin theta in
         let px := cx + rx * cos_phi * cos_t - ry * sin_phi * sin_t in
         let py := cy + rx * sin_phi * cos_t + ry * cos_phi * sin_t in
         add_point acc px py)
      (seq 0 (steps + 1)) bbox.

(* ================================================================== *)
(** * The interpreter state shared by both passes *)

(** The local variables [cmd], [x], [y], [start_x], [start_y],
    [last_cubic] and [last_quad] of [path_bbox] and of
    [transform_path_data]. *)
Record cursor : Type := Cursor {
  cmd : option string;
  cur_x : R;
  cur_y : R;
  start_x : R;
  start_y : R;
  last_cubic : option (R * R);
  last_quad : option (R * R)
}.

Definition initial_cursor : cursor := Cursor None 0 0 0 0 None None.

(** [re.match(r"[A-Za-z]", token)] *)
Definition starts_with_letter (tok : string) : bool :=
  match tok with
  | String c _ => is_letter c
  | EmptyString => false
  end.

(** [needle in hay] on strings. *)
Fixpoint substr_in (needle hay : string) : bool :=
  String.prefix needle hay
  || match hay with
     | EmptyString => false
     | String _ r => substr_in needle r
     end.

(** [read_number()]: the next token as a number.  [path_bbox] raises
    [ValueError] past the end and [transform_path_data] raises
    [IndexError]; both are [UnexpectedEnd] here. *)
Definition read_number (toks : list string) : result (R * list string) :=
  match toks with
  | [] => Err UnexpectedEnd
  | tok :: rest =>
      match float_of_string tok with
      | Some v => Ok (v, rest)
      | None => Err BadNumber
      end
  end.

(** The head of each loop iteration: a letter token becomes the command,
    any other token is an operand of the command in force. *)
Definition fetch_command (cur : cursor) (tok : string) (rest : list string)
  : result (string * list string) :=
  if starts_with_letter tok then Ok (tok, rest)
  else
    match cmd cur with
    | None => Err MissingCommand
    | Some c => Ok (c, tok :: rest)
    end.

(** [v += base] under [if cmd == lower]. *)
Definition rel (c lower : string) (v base : R) : R :=
  if String.eqb c lower then v + base else v.

(** The first control point of [S]/[s] and [T]/[t]. *)
Definition reflected_control (x y : R) (last : option (R * R)) : R * R :=
  match last with
  | Some l => (2 * x - fst l, 2 * y - snd l)
  | None => (x, y)
  end.

Open Scope result_scope.

(* ================================================================== *)
(** * [path_bbox] *)

(** One iteration of the [while] loop of [path_bbox]. *)
Definition bbox_step (cur : cursor) (bbox : option box) (toks : list string)
  : result (cursor * option box * list string) :=
  match toks with
  | [] => Ok (cur, bbox, [])
  | token :: rest =>
    let* (c, toks) := fetch_command cur token rest in
    let x := cur_x cur in
    let y := cur_y cur in
    if substr_in c "Mm" then
      let* (x1, toks) := read_number toks in
      let* (y1, toks) := read_number toks in
      let x1 := rel c "m" x1 x in
      let y1 := rel c "m" y1 y in
      Ok (Cursor (Some (if String.eqb c "M" then "L" else "l"))
                 x1 y1 x1 y1 None None,
          add_point bbox x1 y1, toks)
    else if substr_in c "Zz" then
      Ok (Cursor (Some c) (start_x cur) (start_y cur)
                 (start_x cur) (start_y cur) None None,
          add_point bbox (start_x cur) (start_y cur), toks)
    else if substr_in c "Ll" then
      let* (x1, toks) := read_number toks in
      let* (y1, toks) := read_number toks in
      let x1 := rel c "l" x1 x in
      let y1 := rel c "l" y1 y in
      Ok (Cursor (Some c) x1 y1 (start_x cur) (start_y cur) None None,
          bbox_union bbox
            (Some (Box (Rmin x x1) (Rmin y y1) (Rmax x x1) (Rmax y y1))),
          toks)
    else if substr_in c "Hh" then
      let* (x1, toks) := read_number toks in
      let x1 := rel c "h" x1 x in
      Ok (Cursor (Some c) x1 y (start_x cur) (start_y cur) None None,
          bbox_union bbox (Some (Box (Rmin x x1) y (Rmax x x1) y)),
          toks)
    else if substr_in c "Vv" then
      let* (y1, toks) := read_number toks in
      let y1 := rel c "v" y1 y in
      Ok (Cursor (Some c) x y1 (start_x cur) (start_y cur) None None,
          bbox_union bbox (Some (Box x (Rmin y y1) x (Rmax y y1))),
          toks)
    else if substr_in c "Cc" then
      let* (x1, toks) := read_number toks in
      let* (y1, toks) := read_number toks in
      let* (x2, toks) := read_number toks in
      let* (y2, toks) := read_number toks in
      let* (x3, toks) := read_number toks in
      let* (y3, toks) := read_number toks in
      let x1 := rel c "c" x1 x in
      let y1 := rel c "c" y1 y in
      let x2 := rel c "c" x2 x in
      let y2 := rel c "c" y2 y in
      let x3 := rel c "c" x3 x in
      let y3 := rel c "c" y3 y in
      Ok (Cursor (Some c) x3 y3 (start_x cur) (start_y cur)
                 (Some (x2, y2)) None,
          cubic_bbox bbox x y x1 y1 x2 y2 x3 y3, toks)
    else if substr_in c "Ss" then
      let* (x2, toks) := read_number toks in
      let* (y2, toks) := read_number toks in
      let* (x3, toks) := read_number toks in
      let* (y3, toks) := read_number toks in
      let (x1, y1) := reflected_control x y (last_cubic cur) in
      let x2 := rel c "s" x2 x in
      let y2 := rel c "s" y2 y in
      let x3 := rel c "s" x3 x in
      let y3 := rel c "s" y3 y in
      Ok (Cursor (Some c) x3 y3 (start_x cur) (start_y cur)
                 (Some (x2, y2)) None,
          cubic_bbox bbox x y x1 y1 x2 y2 x3 y3, toks)
    else if substr_in c "Qq" then
      let* (x1, toks) := read_number toks in
      let* (y1, toks) := read_number toks in
      let* (x2, toks) := read_number toks in
      let* (y2, toks) := read_number toks in
      let x1 := rel c "q" x1 x in
      let y1 := rel c "q" y1 y in
      let x2 := rel c "q" x2 x in
      let y2 := rel c "q" y2 y in
      Ok (Cursor (Some c) x2 y2 (start_x cur) (start_y cur)
                 None (Some (x1, y1)),
          quadratic_bbox bbox x y x1 y1 x2 y2, toks)
    else if substr_in c "Tt" then
      let* (x2, toks) := read_number toks in
      let* (y2, toks) := read_number toks in
      let (x1, y1) := reflected_control x y (last_quad cur) in
      let x2 := rel c "t" x2 x in
      let y2 := rel c "t" y2 y in
      Ok (Cursor (Some c) x2 y2 (start_x cur) (start_y cur)
                 None (Some (x1, y1)),
          quadratic_bbox bbox x y x1 y1 x2 y2, toks)
    else if substr_in c "Aa" then
      let* (rx, toks) := read_number toks in
      let* (ry, toks) := read_number toks in
      let* (rot, toks) := read_number toks in
      let* (fa, toks) := read_number toks in
      let* (fs, toks) := read_number toks in
      let* (x2, toks) := read_number toks in
      let* (y2, toks) := read_number toks in
      let large_arc := negb (int_trunc fa =? 0)%Z in
      let sweep := negb (int_trunc fs =? 0)%Z in
      let x2 := rel c "a" x2 x in
      let y2 := rel c "a" y2 y in
      Ok (Cursor (Some c) x2 y2 (start_x cur) (start_y cur) None None,
          arc_bbox bbox x y rx ry rot large_arc sweep x2 y2, toks)
    else Err UnsupportedCommand
  end.

(** [while index < len(tokens)], one iteration per unit of fuel. *)
Fixpoint bbox_loop (fuel : nat) (cur : cursor) (bbox : option box)
  (toks : list string) : result (option box) :=
  match toks with
  | [] => Ok bbox
  | _ =>
      match fuel with
      | O => OutOfFuel
      | S f =>
          let* (st, toks') := bbox_step cur bbox toks in
          bbox_loop f (fst st) (snd st) toks'
      end
  end.

(** Every iteration consumes a token, except the one of a close-path in
    force before an operand, which repeats for ever: [length tokens]
    iterations are all a run that ends can use ([decode_progress] and
    [path_bbox_fuel] below). *)
Definition path_bbox (path_data : string) : result (option box) :=
  let tokens := tokenize path_data in
  match tokens with
  | [] => Ok None
  | _ => bbox_loop (List.length tokens) initial_cursor None tokens
  end.

(* ================================================================== *)
(** * [transform_path_data] *)

(** [out.append(piece)] *)
Definition out_append (out : list string) (piece : string) : list string :=
  (out ++ [piece])%list.

Section Transform.

Variables scale translate_x translate_y : R.

Definition transform_point (px py : R) : R * R :=
  (px * scale + translate_x, py * scale + translate_y).

(** [f"{fmt_number(tx)} {fmt_number(ty)}"] for a transformed point. *)
Definition fmt_point (p : R * R) : string :=
  (fmt_number (fst p) ++ " " ++ fmt_number (snd p))%string.

(** One iteration of the [while] loop of [transform_path_data]. *)
Definition transform_step (cur : cursor) (out : list string)
  (toks : list string) : result (cursor * list string * list string) :=
  match toks with
  | [] => Ok (cur, out, [])
  | token :: rest =>
    let* (c, toks) := fetch_command cur token rest in
    let x := cur_x cur in
    let y := cur_y cur in
    if substr_in c "Mm" then
      let* (x1, toks) := read_number toks in
      let* (y1, toks) := read_number toks in
      let x1 := rel c "m" x1 x in
      let y1 := rel c "m" y1 y in
      Ok (Cursor (Some (if String.eqb c "M" then "L" else "l"))
                 x1 y1 x1 y1 None None,
          out_append out ("M" ++ fmt_point (transform_point x1 y1)),
          toks)
    else if substr_in c "Zz" then
      Ok (Cursor (Some c) (start_x cur) (start_y cur)
                 (start_x cur) (start_y cur) None None,
          out_append out "Z", toks)
    else if substr_in c "Ll" then
      let* (x1, toks) := read_number toks in
      let* (y1, toks) := read_number toks in
      let x1 := rel c "l" x1 x in
      let y1 := rel c "l" y1 y in
      Ok (Cursor (Some c) x1 y1 (start_x cur) (start_y cur) None None,
          out_append out ("L" ++ fmt_point (transform_point x1 y1)),
          toks)
    else if substr_in c "Hh" then
      let* (x1, toks) := read_number toks in
      let x1 := rel c "h" x1 x in
      Ok (Cursor (Some c) x1 y (start_x cur) (start_y cur) None None,
          out_append out ("L" ++ fmt_point (transform_point x1 y)),
          toks)
    else if substr_in c "Vv" then
      let* (y1, toks) := read_number toks in
      let y1 := rel c "v" y1 y in
      Ok (Cursor (Some c) x y1 (start_x cur) (start_y cur) None None,
          out_append out ("L" ++ fmt_point (transform_point x y1)),
          toks)
    else if substr_in c "Cc" then
      let* (x1, toks) := read_number toks in
      let* (y1, toks) := read_number toks in
      let* (x2, toks) := read_number toks in
      let* (y2, toks) := read_number toks in
      let* (x3, toks) := read_number toks in
      let* (y3, toks) := read_number toks in
      let x1 := rel c "c" x1 x in
      let y1 := rel c "c" y1 y in
      let x2 := rel c "c" x2 x in
      let y2 := rel c "c" y2 y in
      let x3 := rel c "c" x3 x in
      let y3 := rel c "c" y3 y in
      Ok (Cursor (Some c) x3 y3 (start_x cur) (start_y cur)
                 (Some (x2, y2)) None,
          out_append out ("C" ++ fmt_point (transform_point x1 y1) ++ " "
                       ++ fmt_point (transform_point x2 y2) ++ " "
                       ++ fmt_point (transform_point x3 y3)),
          toks)
    else if substr_in c "Ss" then
      let* (x2, toks) := read_number toks in
      let* (y2, toks) := read_number toks in
      let* (x3, toks) := read_number toks in
      let* (y3, toks) := read_number toks in
      let (x1, y1) := reflected_control x y (last_cubic cur) in
      let x2 := rel c "s" x2 x in
      let y2 := rel c "s" y2 y in
      let x3 := rel c "s" x3 x in
      let y3 := rel c "s" y3 y in
      Ok (Cursor (Some c) x3 y3 (start_x cur) (start_y cur)
                 (Some (x2, y2)) None,
          out_append out ("C" ++ fmt_point (transform_point x1 y1) ++ " "
                       ++ fmt_point (transform_point x2 y2) ++ " "
                       ++ fmt_point (transform_point x3 y3)),
          toks)
    else if substr_in c "Qq" then
      let* (x1, toks) := read_number toks in
      let* (y1, toks) := read_number toks in
      let* (x2, toks) := read_number toks in
      let* (y2, toks) := read_number toks in
      let x1 := rel c "q" x1 x in
      let y1 := rel c "q" y1 y in
      let x2 := rel c "q" x2 x in
      let y2 := rel c "q" y2 y in
      Ok (Cursor (Some c) x2 y2 (start_x cur) (start_y cur)
                 None (Some (x1, y1)),
          out_append out ("Q" ++ fmt_point (transform_point x1 y1) ++ " "
                       ++ fmt_point (transform_point x2 y2)),
          toks)
    else if substr_in c "Tt" then
      let* (x2, toks) := read_number toks in
      let* (y2, toks) := read_number toks in
      let (x1, y1) := reflected_control x y (last_quad cur) in
      let x2 := rel c "t" x2 x in
      let y2 := rel c "t" y2 y in
      Ok (Cursor (Some c) x2 y2 (start_x cur) (start_y cur)
                 None (Some (x1, y1)),
          out_append out ("Q" ++ fmt_point (transform_point x1 y1) ++ " "
                       ++ fmt_point (transform_point x2 y2)),
          toks)
    else if substr_in c "Aa" then
      let* (rx, toks) := read_number toks in
      let* (ry, toks) := read_number toks in
      let* (rot, toks) := read_number toks in
      let* (fa, toks) := read_number toks in
      let* (fs, toks) := read_number toks in
      let* (x2, toks) := read_number toks in
      let* (y2, toks) := read_number toks in
      let large_arc := int_trunc fa in
      let sweep := int_trunc fs in
      let x2 := rel c "a" x2 x in
      let y2 := rel c "a" y2 y in
      Ok (Cursor (Some c) x2 y2 (start_x cur) (start_y cur) None None,
          out_append out ("A" ++ fmt_number (rx * scale) ++ " "
                       ++ fmt_number (ry * scale) ++ " "
                       ++ fmt_number rot ++ " "
                       ++ str_int large_arc ++ " " ++ str_int sweep ++ " "
                       ++ fmt_point (transform_point x2 y2)),
          toks)
    else Err UnsupportedCommand
  end.

Fixpoint transform_loop (fuel : nat) (cur : cursor) (out : list string)
  (toks : list string) : result (list string) :=
  match toks with
  | [] => Ok out
  | _ =>
      match fuel with
      | O => OutOfFuel
      | S f =>
          let* (st, toks') := transform_step cur out toks in
          transform_loop f (fst st) (snd st) toks'
      end
  end.

(** [transform_path_data(path_data, scale, translate_x, translate_y)]; the
    three numbers are the variables of this section, so outside of it
    they come first: [transform_path_data scale translate_x translate_y
    path_data].  The iterations granted are the ones of [path_bbox]
    ([transform_path_data_fuel] below). *)
Definition transform_path_data (path_data : string) : result string :=
  let tokens := tokenize path_data in
  match tokens with
  | [] => Ok EmptyString
  | _ =>
      let* out := transform_loop (List.length tokens) initial_cursor [] tokens in
      Ok (join " " out)
  end.

End Transform.

(* ================================================================== *)
(** * Composition: [build_vector_xml] *)

(** An entry of [paths]: the keys ["d"], ["fill"] and ["bbox"]. *)
Record path_record : Type := PathRecord {
  p_d : string;
  p_fill : string;
  p_bbox : option box
}.

(** The dictionary [parse_svg] returns; [width] and [height] are [None]
    when the document declares none. *)
Record icon : Type := Icon {
  width : option R;
  height : option R;
  min_x : R;
  min_y : R;
  vb_width : R;
  vb_height : R;
  paths : list path_record
}.

(** [declared or fallback]: [None] and [0.0] are both false. *)
Definition or_else (declared : option R) (fallback : R) : R :=
  match declared with
  | Some v => if Reqb v 0 then fallback else v
  | None => fallback
  end.

(** The union of the paths' boxes, as the two [for] loops build it. *)
Definition content_bbox (ps : list path_record) : option box :=
  fold_left (fun acc p => bbox_union acc (p_bbox p)) ps None.

(** The numbers [build_vector_xml] derives before it emits anything. *)
Record layout : Type := Layout {
  gap : R;
  simplify : R;
  base_translate_x : R;
  base_translate_y : R;
  overlay_bbox_norm : box;
  overlay_scaled_bbox : box;
  overlay_translate_x : R;
  overlay_translate_y : R;
  max_dim : R;
  hole_scale : R;
  hole_translate_x : R;
  hole_translate_y : R
}.

Definition compute_layout (base overlay : icon) (scale gap_dp simplify_dp : R)
  : layout :=
  let width_dp := or_else (width base) (vb_width base) in
  let gap :=
    if Reqb width_dp 0 then gap_dp
    else gap_dp * (vb_width base / width_dp) in
  let simplify :=
    if Reqb width_dp 0 then simplify_dp
    else simplify_dp * (vb_width base / width_dp) in
  let base_offset_x := - min_x base in
  let base_offset_y := - min_y base in
  let overlay_offset_x := - min_x overlay in
  let overlay_offset_y := - min_y overlay in
  let overlay_bbox :=
    match content_bbox (paths overlay) with
    | Some b => b
    | None =>
        Box (min_x overlay) (min_y overlay)
            (min_x overlay + vb_width overlay)
            (min_y overlay + vb_height overlay)
    end in
  let overlay_bbox_norm :=
    box_translate overlay_bbox overlay_offset_x overlay_offset_y in
  let base_bbox :=
    match content_bbox (paths base) with
    | Some b => b
    | None => Box 0 0 (vb_width base) (vb_height base)
    end in
  let base_bbox_shifted := box_translate base_bbox base_offset_x base_offset_y in
  let base_center_x := (x_min base_bbox_shifted + x_max base_bbox_shifted) / 2 in
  let base_center_y := (y_min base_bbox_shifted + y_max base_bbox_shifted) / 2 in
  let viewport_center_x := vb_width base / 2 in
  let viewport_center_y := vb_height base / 2 in
  let center_dx := viewport_center_x - base_center_x in
  let center_dy := viewport_center_y - base_center_y in
  let base_translate_x := base_offset_x + center_dx in
  let base_translate_y := base_offset_y + center_dy in
  let overlay_center_x := (x_min overlay_bbox_norm + x_max overlay_bbox_norm) / 2 in
  let overlay_center_y := (y_min overlay_bbox_norm + y_max overlay_bbox_norm) / 2 in
  let overlay_scaled_bbox := box_scale overlay_bbox_norm scale in
  let overlay_target_tx := vb_width base - x_max overlay_scaled_bbox in
  let overlay_target_ty := - y_min overlay_scaled_bbox in
  let max_dim :=
    Rmax (x_max overlay_bbox_norm - x_min overlay_bbox_norm)
         (y_max overlay_bbox_norm - y_min overlay_bbox_norm) in
  let hole_scale :=
    if Rleb max_dim 0 then scale
    else scale * (1 + (2 * gap) / max_dim) in
  let overlay_center_target_x := overlay_center_x * scale + overlay_target_tx in
  let overlay_center_target_y := overlay_center_y * scale + overlay_target_ty in
  let hole_target_tx := overlay_center_target_x - overlay_center_x * hole_scale in
  let hole_target_ty := overlay_center_target_y - overlay_center_y * hole_scale in
  Layout gap simplify base_translate_x base_translate_y
         overlay_bbox_norm overlay_scaled_bbox
         overlay_target_tx overlay_target_ty
         max_dim hole_scale hole_target_tx hole_target_ty.

(** Sequential evaluation of a fallible function over a list. *)
Fixpoint map_result {A B : Type} (f : A -> result B) (l : list A)
  : result (list B) :=
  match l with
  | [] => Ok []
  | a :: r =>
      let* b := f a in
      let* bs := map_result f r in
      Ok (b :: bs)
  end.

(** The double quote and the line feed. *)
Definition dq : string := String (ascii_of_nat 34) EmptyString.
Definition nl : string := String (ascii_of_nat 10) EmptyString.

(** What the emitter keeps of the composition: the data and the fill-type
    attribute of the base path element, the hole paths, and the text. *)
Record drawable : Type := Drawable {
  hole_paths : list string;
  combined_base : string;
  fill_type : string;
  overlay_paths : list (string * string);
  xml : string
}.

(** The five opening lines of the drawable. *)
Definition vector_header (width_dp height_dp : R) (base : icon) : list string :=
  [ "<vector xmlns:android=" ++ dq
      ++ "http://schemas.android.com/apk/res/android" ++ dq;
    "    android:width=" ++ dq ++ fmt_number width_dp ++ "dp" ++ dq;
    "    android:height=" ++ dq ++ fmt_number height_dp ++ "dp" ++ dq;
    "    android:viewportWidth=" ++ dq ++ fmt_number (vb_width base) ++ dq;
    "    android:viewportHeight=" ++ dq ++ fmt_number (vb_height base)
      ++ dq ++ ">" ]%string.

(** One [<path>] line: [fill_type] is the text of the fill-type attribute
    (empty when there is none), [data] the path data. *)
Definition path_element (fill_type data : string) : string :=
  ("    " ++ "<path android:fillColor=" ++ dq ++ "@android:color/white" ++ dq
     ++ fill_type ++ " android:pathData=" ++ dq ++ data ++ dq ++ " />")%string.

(** [' android:fillType="evenOdd"'] *)
Definition even_odd_attribute : string :=
  (" android:fillType=" ++ dq ++ "evenOdd" ++ dq)%string.

Section Compose.

(** The optional smoothing capability ([shapely] with [svgpathtools]):
    [None] when [try_import_smoothing] finds none; otherwise the rounded
    hole paths and, when there is a base shape to cut, the smoothed base
    paths, computed from the icons, the sample count and the layout. *)
Variable try_import_smoothing
  : option (icon -> icon -> R -> Z -> layout -> list string * option (list string)).

Definition build_vector_xml (base overlay : icon) (scale gap_dp : R)
  (smooth : bool) (sample_points : Z) (simplify_dp : R) : result drawable :=
  let width_dp := or_else (width base) (vb_width base) in
  let height_dp := or_else (height base) (vb_height base) in
  let lay := compute_layout base overlay scale gap_dp simplify_dp in
  let overlay_offset_x := - min_x overlay in
  let overlay_offset_y := - min_y overlay in
  let* overlay_paths :=
    map_result
      (fun p =>
         let* data :=
           transform_path_data scale
             (overlay_offset_x * scale + overlay_translate_x lay)
             (overlay_offset_y * scale + overlay_translate_y lay) (p_d p) in
         Ok (data, p_fill p))
      (paths overlay) in
  let smoothed :=
    if Rltb 0 (gap lay) && smooth then
      match try_import_smoothing with
      | Some tools => tools base overlay scale sample_points lay
      | None => ([], None)
      end
    else ([], None) in
  let smooth_base_paths := snd smoothed in
  let* hole_paths :=
    if Rltb 0 (gap lay) then
      match fst smoothed with
      | [] =>
          map_result
            (fun p =>
               transform_path_data (hole_scale lay)
                 (overlay_offset_x * hole_scale lay + hole_translate_x lay)
                 (overlay_offset_y * hole_scale lay + hole_translate_y lay)
                 (p_d p))
            (paths overlay)
      | hs => Ok hs
      end
    else Ok [] in
  let header := vector_header width_dp height_dp base in
  let* base_parts :=
    match smooth_base_paths with
    | Some (p :: ps) => Ok (join " " (p :: ps), EmptyString)
    | _ =>
        let* transformed_base_paths :=
          map_result
            (fun p =>
               transform_path_data 1 (base_translate_x lay)
                 (base_translate_y lay) (p_d p))
            (paths base) in
        let combined := join " " transformed_base_paths in
        match hole_paths with
        | [] => Ok (combined, EmptyString)
        | _ =>
            Ok ((combined ++ " " ++ join " " hole_paths)%string,
                even_odd_attribute)
        end
    end in
  let base_line := path_element (snd base_parts) (fst base_parts) in
  let overlay_lines :=
    map (fun pf : string * string => path_element EmptyString (fst pf))
        overlay_paths in
  let lines := (header ++ [base_line] ++ overlay_lines ++ ["</vector>"])%list in
  Ok (Drawable hole_paths (fst base_parts) (snd base_parts) overlay_paths
        (join nl lines ++ nl)).

End Compose.

(* ================================================================== *)
(** * Derived notions and example data used in the statements *)

(** The content box of an overlay: the union of its paths' boxes, or its
    viewport when no path has one. *)
Definition overlay_content_box (overlay : icon) : box :=
  match content_bbox (paths overlay) with
  | Some b => b
  | None =>
      Box (min_x overlay) (min_y overlay)
          (min_x overlay + vb_width overlay) (min_y overlay + vb_height overlay)
  end.

(** Icons of the anchoring example: a 24 by 24 viewport, the overlay's
    content box being [(4, 4, 20, 20)], which is [(2, 2, 10, 10)] at scale
    one half. *)
Definition base_24 : icon :=
  Icon (Some 48) (Some 48) 0 0 24 24
       [PathRecord "M0 0 L24 24" "#000000" (Some (Box 0 0 24 24))].

Definition overlay_4_20 : icon :=
  Icon None None 0 0 24 24
       [PathRecord "M4 4 L20 20" "#000000" (Some (Box 4 4 20 20))].

(** The twenty letters of the tokenizer's command class, as tokens. *)
Definition command_letters : list string :=
  ["M"; "m"; "L"; "l"; "H"; "h"; "V"; "v"; "C"; "c"; "S"; "s"; "Q"; "q";
   "T"; "t"; "A"; "a"; "Z"; "z"].

(** Notions used to state the canonical numeric form. *)

(** Whether the character occurs in the string. *)
Fixpoint string_mem (c : ascii) (s : string) : bool :=
  match s with
  | EmptyString => false
  | String d r => Ascii.eqb d c || string_mem c r
  end.

Definition has_dot (s : string) : bool := string_mem "." s.

(** The number of characters after the first decimal point, [0] without
    one. *)
Fixpoint decimal_places (s : string) : nat :=
  match s with
  | EmptyString => O
  | String d r => if Ascii.eqb d "." then String.length r else decimal_places r
  end.

Fixpoint last_char (s : string) : option ascii :=
  match s with
  | EmptyString => None
  | String d EmptyString => Some d
  | String _ r => last_char r
  end.

Definition ends_with (c : ascii) (s : string) : bool :=
  match last_char s with
  | Some d => Ascii.eqb d c
  | None => false
  end.

(** The value rounded to four decimal places, counted in units of
    1/10000. *)
Definition round4 (v : R) : Z := round_half_even (v * 10000).

(** The canonical minimal form of [n / 10000]: the integer part, then the
    decimals without trailing zeros, and no decimal point when none is
    left. *)
Definition canonical_decimal (n : Z) : string :=
  let m := Z.abs n in
  ((if (n <? 0)%Z then "-" else EmptyString)
   ++ str_int (m / 10000)
   ++ (if (m mod 10000 =? 0)%Z then EmptyString
       else "." ++ rstrip "0" (pad4 (m mod 10000))))%string.

(** [z] is a nearest integer of [v], and the even one when [v] is half-way
    between two integers. *)
Definition nearest_even (v : R) (z : Z) : Prop :=
  (IZR z - 1 / 2 < v < IZR z + 1 / 2)
  \/ ((v = IZR z + 1 / 2 \/ v = IZR z - 1 / 2) /\ Z.even z = true).

(** The shape of the canonical form. *)
Definition canonical_shape (s : string) : Prop :=
  (decimal_places s <= 4)%nat
  /\ ends_with "." s = false
  /\ (has_dot s = true -> ends_with "0" s = false).

(** Notions used to state the enclosure of a curve by its box. *)

(** The point [(px, py)] lies in the box. *)
Definition inside (b : box) (px py : R) : Prop :=
  x_min b <= px <= x_max b /\ y_min b <= py <= y_max b.

(** The epsilon guards of [cubic_extrema] leave the derivative
    [a t^2 + b t + c] as it is: its leading coefficient is at least
    [1e-8] in magnitude, or it is zero and the linear coefficient is above
    [1e-8] in magnitude or zero. *)
Definition cubic_guards_exact (p0 p1 p2 p3 : R) : Prop :=
  let a := - p0 + 3 * p1 - 3 * p2 + p3 in
  let b := 2 * (p0 - 2 * p1 + p2) in
  eps <= Rabs a \/ (a = 0 /\ (eps < Rabs b \/ b = 0)).

(** Likewise for the denominator of [quadratic_extrema]. *)
Definition quadratic_guard_exact (p0 p1 p2 : R) : Prop :=
  let denom := p0 - 2 * p1 + p2 in
  eps <= Rabs denom \/ denom = 0.

(** The box of the curve points at the parameters [t :: ts]. *)
Definition sampled_box (fx fy : R -> R) (t : R) (ts : list R) : box :=
  Box (min_list (fx t) (map fx ts)) (min_list (fy t) (map fy ts))
      (max_list (fx t) (map fx ts)) (max_list (fy t) (map fy ts)).

(** [inner] lies within [outer]. *)
Definition box_within (inner outer : box) : Prop :=
  x_min outer <= x_min inner /\ y_min outer <= y_min inner
  /\ x_max inner <= x_max outer /\ y_max inner <= y_max outer.

(* ================================================================== *)
(** * The segment a loop iteration executes

    Both interpreters resolve a command and its operands in the same way
    and differ in what they do with the resolved segment.  [decode] is
    that common part, [segment_extend] what [path_bbox] does with the
    segment and [render_segment] what [transform_path_data] emits for it;
    [bbox_step_decode] and [transform_step_decode] below state that the
    two step functions are these compositions. *)

Inductive segment : Type :=
| SegMove (x1 y1 : R)
| SegClose
| SegLine (x1 y1 : R)
| SegCubic (x1 y1 x2 y2 x3 y3 : R)
| SegQuad (x1 y1 x2 y2 : R)
| SegArc (rx ry rot fa fs x2 y2 : R).

Definition decode (cur : cursor) (toks : list string)
  : result (segment * cursor * list string) :=
  match toks with
  | [] => Err UnexpectedEnd
  | token :: rest =>
    let* (c, toks) := fetch_command cur token rest in
    let x := cur_x cur in
    let y := cur_y cur in
    if substr_in c "Mm" then
      let* (x1, toks) := read_number toks in
      let* (y1, toks) := read_number toks in
      let x1 := rel c "m" x1 x in
      let y1 := rel c "m" y1 y in
      Ok (SegMove x1 y1,
          Cursor (Some (if String.eqb c "M" then "L" else "l"))
                 x1 y1 x1 y1 None None,
          toks)
    else if substr_in c "Zz" then
      Ok (SegClose,
          Cursor (Some c) (start_x cur) (start_y cur)
                 (start_x cur) (start_y cur) None None,
          toks)
    else if substr_in c "Ll" then
      let* (x1, toks) := read_number toks in
      let* (y1, toks) := read_number toks in
      let x1 := rel c "l" x1 x in
      let y1 := rel c "l" y1 y in
      Ok (SegLine x1 y1,
          Cursor (Some c) x1 y1 (start_x cur) (start_y cur) None None, toks)
    else if substr_in c "Hh" then
      let* (x1, toks) := read_number toks in
      let x1 := rel c "h" x1 x in
      Ok (SegLine x1 y,
          Cursor (Some c) x1 y (start_x cur) (start_y cur) None None, toks)
    else if substr_in c "Vv" then
      let* (y1, toks) := read_number toks in
      let y1 := rel c "v" y1 y in
      Ok (SegLine x y1,
          Cursor (Some c) x y1 (start_x cur) (start_y cur) None None, toks)
    else if substr_in c "Cc" then
      let* (x1, toks) := read_number toks in
      let* (y1, toks) := read_number toks in
      let* (x2, toks) := read_number toks in
      let* (y2, toks) := read_number toks in
      let* (x3, toks) := read_number toks in
      let* (y3, toks) := read_number toks in
      let x1 := rel c "c" x1 x in
      let y1 := rel c "c" y1 y in
      let x2 := rel c "c" x2 x in
      let y2 := rel c "c" y2 y in
      let x3 := rel c "c" x3 x in
      let y3 := rel c "c" y3 y in
      Ok (SegCubic x1 y1 x2 y2 x3 y3,
          Cursor (Some c) x3 y3 (start_x cur) (start_y cur)
                 (Some (x2, y2)) None,
          toks)
    else if substr_in c "Ss" then
      let* (x2, toks) := read_number toks in
      let* (y2, toks) := read_number toks in
      let* (x3, toks) := read_number toks in
      let* (y3, toks) := read_number toks in
      let (x1, y1) := reflected_control x y (last_cubic cur) in
      let x2 := rel c "s" x2 x in
      let y2 := rel c "s" y2 y in
      let x3 := rel c "s" x3 x in
      let y3 := rel c "s" y3 y in
      Ok (SegCubic x1 y1 x2 y2 x3 y3,
          Cursor (Some c) x3 y3 (start_x cur) (start_y cur)
                 (Some (x2, y2)) None,
          toks)
    else if substr_in c "Qq" then
      let* (x1, toks) := read_number toks in
      let* (y1, toks) := read_number toks in
      let* (x2, toks) := read_number toks in
      let* (y2, toks) := read_number toks in
      let x1 := rel c "q" x1 x in
      let y1 := rel c "q" y1 y in
      let x2 := rel c "q" x2 x in
      let y2 := rel c "q" y2 y in
      Ok (SegQuad x1 y1 x2 y2,
          Cursor (Some c) x2 y2 (start_x cur) (start_y cur)
                 None (Some (x1, y1)),
          toks)
    else if substr_in c "Tt" then
      let* (x2, toks) := read_number toks in
      let* (y2, toks) := read_number toks in
      let (x1, y1) := reflected_control x y (last_quad cur) in
      let x2 := rel c "t" x2 x in
      let y2 := rel c "t" y2 y in
      Ok (SegQuad x1 y1 x2 y2,
          Cursor (Some c) x2 y2 (start_x cur) (start_y cur)
                 None (Some (x1, y1)),
          toks)
    else if substr_in c "Aa" then
      let* (rx, toks) := read_number toks in
      let* (ry, toks) := read_number toks in
      let* (rot, toks) := read_number toks in
      let* (fa, toks) := read_number toks in
      let* (fs, toks) := read_number toks in
      let* (x2, toks) := read_number toks in
      let* (y2, toks) := read_number toks in
      let x2 := rel c "a" x2 x in
      let y2 := rel c "a" y2 y in
      Ok (SegArc rx ry rot fa fs x2 y2,
          Cursor (Some c) x2 y2 (start_x cur) (start_y cur) None None, toks)
    else Err UnsupportedCommand
  end.

(** The accumulated box after a segment that starts at the cursor. *)
Definition segment_extend (bbox : option box) (cur : cursor) (seg : segment)
  : option box :=
  let x := cur_x cur in
  let y := cur_y cur in
  match seg with
  | SegMove x1 y1 => add_point bbox x1 y1
  | SegClose => add_point bbox (start_x cur) (start_y cur)
  | SegLine x1 y1 =>
      bbox_union bbox
        (Some (Box (Rmin x x1) (Rmin y y1) (Rmax x x1) (Rmax y y1)))
  | SegCubic x1 y1 x2 y2 x3 y3 => cubic_bbox bbox x y x1 y1 x2 y2 x3 y3
  | SegQuad x1 y1 x2 y2 => quadratic_bbox bbox x y x1 y1 x2 y2
  | SegArc rx ry rot fa fs x2 y2 =>
      arc_bbox bbox x y rx ry rot
        (negb (int_trunc fa =? 0)%Z) (negb (int_trunc fs =? 0)%Z) x2 y2
  end.

(** The text emitted for a segment under the map
    [p -> p * scale + translate]. *)
Definition render_segment (scale translate_x translate_y : R) (seg : segment)
  : string :=
  let tp := transform_point scale translate_x translate_y in
  match seg with
  | SegMove x1 y1 => "M" ++ fmt_point (tp x1 y1)
  | SegClose => "Z"
  | SegLine x1 y1 => "L" ++ fmt_point (tp x1 y1)
  | SegCubic x1 y1 x2 y2 x3 y3 =>
      "C" ++ fmt_point (tp x1 y1) ++ " " ++ fmt_point (tp x2 y2) ++ " "
          ++ fmt_point (tp x3 y3)
  | SegQuad x1 y1 x2 y2 =>
      "Q" ++ fmt_point (tp x1 y1) ++ " " ++ fmt_point (tp x2 y2)
  | SegArc rx ry rot fa fs x2 y2 =>
      "A" ++ fmt_number (rx * scale) ++ " " ++ fmt_number (ry * scale) ++ " "
          ++ fmt_number rot ++ " "
          ++ str_int (int_trunc fa) ++ " " ++ str_int (int_trunc fs) ++ " "
          ++ fmt_point (tp x2 y2)
  end%string.

(* ================================================================== *)
(** * Path data in explicit absolute form

    The form [transform_path_data] writes: every segment has its own
    command letter, one of the absolute [M], [L], [C], [Q], [A] and [Z],
    followed by exactly its operands. *)

Definition absolute_arity (c : string) : option nat :=
  if String.eqb c "M" then Some 2%nat
  else if String.eqb c "L" then Some 2%nat
  else if String.eqb c "C" then Some 6%nat
  else if String.eqb c "Q" then Some 4%nat
  else if String.eqb c "A" then Some 7%nat
  else if String.eqb c "Z" then Some 0%nat
  else None.

(** The values of the next [n] tokens. *)
Fixpoint read_operands (n : nat) (toks : list string)
  : option (list R * list string) :=
  match n with
  | O => Some ([], toks)
  | S m =>
      match toks with
      | [] => None
      | t :: r =>
          match float_of_string t, read_operands m r with
          | Some v, Some (vs, rest) => Some (v :: vs, rest)
          | _, _ => None
          end
      end
  end.

(** An integer value, as the two flags of an arc are. *)
Definition integral (v : R) : bool := Reqb v (IZR (Zfloor v)).

Definition arc_flags_integral (c : string) (vs : list R) : bool :=
  if String.eqb c "A" then
    match vs with
    | [_; _; _; fa; fs; _; _] => integral fa && integral fs
    | _ => false
    end
  else true.

(** The segments of a token list in explicit absolute form, each a
    command letter with the values of its operands; [None] for any other
    token list. *)
Fixpoint explicit_absolute (fuel : nat) (toks : list string)
  : option (list (string * list R)) :=
  match toks with
  | [] => Some []
  | c :: rest =>
      match fuel with
      | O => None
      | S f =>
          match absolute_arity c with
          | None => None
          | Some n =>
              match read_operands n rest with
              | None => None
              | Some (vs, rest') =>
                  if arc_flags_integral c vs then
                    match explicit_absolute f rest' with
                    | Some segs => Some ((c, vs) :: segs)
                    | None => None
                    end
                  else None
              end
          end
      end
  end.

(** A segment written canonically: the letter, then the operands
    formatted by [fmt_number] and separated by single spaces. *)
Definition render_canonical (seg : string * list R) : string :=
  (fst seg ++ join " " (map fmt_number (snd seg)))%string.

(* ================================================================== *)
(** * Texts of plain numerals

    What [fmt_number] writes: an optional minus sign, digits, and
    optionally a point and more digits. *)

Definition numeral_text (s : string) : Prop :=
  exists (neg : bool) (ip fp : string),
    s = ((if neg then "-" else EmptyString) ++ ip
         ++ match fp with EmptyString => EmptyString | _ => "." ++ fp end)%string
    /\ all_digits ip = true /\ ip <> EmptyString /\ all_digits fp = true.

(** What may follow a number in emitted path data: nothing, or a space. *)
Definition ends_token (rest : string) : Prop :=
  rest = EmptyString \/ exists r, rest = String " " r.

(** A value that [fmt_number] writes as a plain numeral denoting the same
    value. *)
Definition printable (v : R) : Prop :=
  numeral_text (fmt_number v) /\ float_of_string (fmt_number v) = Some v.

(* ================================================================== *)
(** * Notions used to relate a path and its transform *)

(** The trace of a run of the common decoding: the cursor before each
    segment, and the segment. *)
Fixpoint decode_loop (fuel : nat) (cur : cursor) (toks : list string)
  : result (list (cursor * segment)) :=
  match toks with
  | [] => Ok []
  | _ =>
      match fuel with
      | O => OutOfFuel
      | S f =>
          let* (sc, toks') := decode cur toks in
          let* tr := decode_loop f (snd sc) toks' in
          Ok ((cur, fst sc) :: tr)
      end
  end.

(** The box accumulated along a trace. *)
Definition trace_bbox (bbox : option box) (tr : list (cursor * segment))
  : option box :=
  fold_left (fun b cs => segment_extend b (fst cs) (snd cs)) tr bbox.

Section Affine.

Variables scale translate_x translate_y : R.

(** [bbox_translate (bbox_scale bbox scale) translate_x translate_y] *)
Definition map_bbox (bbox : option box) : option box :=
  bbox_translate (bbox_scale bbox scale) translate_x translate_y.

Definition map_x (v : R) : R := v * scale + translate_x.
Definition map_y (v : R) : R := v * scale + translate_y.

(** The segment with transformed coordinates (arcs: scaled radii). *)
Definition map_segment (seg : segment) : segment :=
  match seg with
  | SegMove x1 y1 => SegMove (map_x x1) (map_y y1)
  | SegClose => SegClose
  | SegLine x1 y1 => SegLine (map_x x1) (map_y y1)
  | SegCubic x1 y1 x2 y2 x3 y3 =>
      SegCubic (map_x x1) (map_y y1) (map_x x2) (map_y y2)
               (map_x x3) (map_y y3)
  | SegQuad x1 y1 x2 y2 =>
      SegQuad (map_x x1) (map_y y1) (map_x x2) (map_y y2)
  | SegArc rx ry rot fa fs x2 y2 =>
      SegArc (rx * scale) (ry * scale) rot fa fs (map_x x2) (map_y y2)
  end.

End Affine.

(** The letter and the operands a segment is written with. *)
Definition segment_letter (seg : segment) : string :=
  match seg with
  | SegMove _ _ => "M"
  | SegClose => "Z"
  | SegLine _ _ => "L"
  | SegCubic _ _ _ _ _ _ => "C"
  | SegQuad _ _ _ _ => "Q"
  | SegArc _ _ _ _ _ _ _ => "A"
  end.

Definition segment_operands (seg : segment) : list R :=
  match seg with
  | SegMove x1 y1 => [x1; y1]
  | SegClose => []
  | SegLine x1 y1 => [x1; y1]
  | SegCubic x1 y1 x2 y2 x3 y3 => [x1; y1; x2; y2; x3; y3]
  | SegQuad x1 y1 x2 y2 => [x1; y1; x2; y2]
  | SegArc rx ry rot fa fs x2 y2 => [rx; ry; rot; fa; fs; x2; y2]
  end.

Definition is_arc (seg : segment) : bool :=
  match seg with
  | SegArc _ _ _ _ _ _ _ => true
  | _ => false
  end.

(** The tokens of a segment written canonically. *)
Definition segment_tokens (seg : segment) : list string :=
  segment_letter seg :: map fmt_number (segment_operands seg).

(** The tokens of the images of the segments of a trace. *)
Definition mapped_tokens (k tx ty : R) (tr : list (cursor * segment))
  : list string :=
  List.concat (map (fun cs => segment_tokens (map_segment k tx ty (snd cs))) tr).

(** Hypotheses on path data, on its tokens. *)

Definition starts_with_move (toks : list string) : Prop :=
  match toks with
  | t :: _ => t = "M" \/ t = "m"
  | [] => True
  end.

Definition arc_free (toks : list string) : Prop :=
  Forall (fun t => t <> "A" /\ t <> "a") toks.


(** The cursor after a segment given in absolute form. *)
Definition absolute_cursor (cur : cursor) (seg : segment) : cursor :=
  match seg with
  | SegMove x1 y1 => Cursor (Some "L") x1 y1 x1 y1 None None
  | SegClose =>
      Cursor (Some "Z") (start_x cur) (start_y cur)
             (start_x cur) (start_y cur) None None
  | SegLine x1 y1 =>
      Cursor (Some "L") x1 y1 (start_x cur) (start_y cur) None None
  | SegCubic x1 y1 x2 y2 x3 y3 =>
      Cursor (Some "C") x3 y3 (start_x cur) (start_y cur) (Some (x2, y2)) None
  | SegQuad x1 y1 x2 y2 =>
      Cursor (Some "Q") x2 y2 (start_x cur) (start_y cur) None (Some (x1, y1))
  | SegArc rx ry rot fa fs x2 y2 =>
      Cursor (Some "A") x2 y2 (start_x cur) (start_y cur) None None
  end.

(** Two cursors at the same point with the same sub-path start. *)
Definition same_position (c1 c2 : cursor) : Prop :=
  cur_x c1 = cur_x c2 /\ cur_y c1 = cur_y c2
  /\ start_x c1 = start_x c2 /\ start_y c1 = start_y c2.

(** [c2] is at the image of [c1] under the map. *)
Definition mapped_position (k tx ty : R) (c1 c2 : cursor) : Prop :=
  cur_x c2 = map_x k tx (cur_x c1) /\ cur_y c2 = map_y k ty (cur_y c1)
  /\ start_x c2 = map_x k tx (start_x c1)
  /\ start_y c2 = map_y k ty (start_y c1).

Definition is_move (seg : segment) : bool :=
  match seg with
  | SegMove _ _ => true
  | _ => false
  end.

Section Grid.

(** A set of numbers the coordinates stay in. *)
Variable P : R -> Prop.





End Grid.

(** What the tokenizer yields: one command letter, or a text that does not
    begin with a letter. *)
Definition token_shape (t : string) : Prop :=
  (exists c, t = String c EmptyString /\ is_command_letter c = true)
  \/ starts_with_letter t = false.

(** The command in force, if any, is one of the command letters. *)
Definition known_command (cur : cursor) : Prop :=
  forall c, cmd cur = Some c -> In c command_letters.

(** A state from which the loop makes no progress: the command in force
    is a close-path and the next token is an operand, which no iteration
    consumes. *)
Definition stuck (cur : cursor) (toks : list string) : Prop :=
  exists c tok rest,
    toks = tok :: rest /\ starts_with_letter tok = false
    /\ cmd cur = Some c
    /\ substr_in c "Mm" = false /\ substr_in c "Zz" = true.


(** A token that, taken as a command, does not run the arc branch. *)
Definition no_arc_token (t : string) : Prop :=
  starts_with_letter t = true -> substr_in t "Aa" = false.

Definition no_arc_command (cur : cursor) : Prop :=
  forall c, cmd cur = Some c -> substr_in c "Aa" = false.


(** A number with at most four decimals: what [fmt_number] writes
    without loss. *)
Definition four_decimals (v : R) : Prop := exists n : Z, v = IZR n / 10000.

(** Every coordinate written for the image of a segment has at most four
    decimals. *)
Definition written_exactly (k tx ty : R) (seg : segment) : Prop :=
  Forall four_decimals (segment_operands (map_segment k tx ty seg)).

(** Scaling by [k] moves no coefficient of the derivative across a guard
    of [cubic_extrema]: the leading coefficient [a] is below [1e-8] in
    magnitude before exactly when it is after, and then the same holds of
    the linear coefficient [b] being above [1e-8]. *)
Definition cubic_guards_agree (k p0 p1 p2 p3 : R) : Prop :=
  let a := - p0 + 3 * p1 - 3 * p2 + p3 in
  let b := 2 * (p0 - 2 * p1 + p2) in
  (Rabs (a * k) < eps <-> Rabs a < eps)
  /\ (Rabs a < eps -> (eps < Rabs (b * k) <-> eps < Rabs b)).

(** Likewise for the denominator of [quadratic_extrema]. *)
Definition quadratic_guard_agrees (k p0 p1 p2 : R) : Prop :=
  let denom := p0 - 2 * p1 + p2 in
  Rabs (denom * k) < eps <-> Rabs denom < eps.

(** The guards decide alike for a curve segment that starts at the cursor
    and for its image under a map of scale [k]; nothing is asked of the
    other segments. *)
Definition guards_agree (k : R) (cur : cursor) (seg : segment) : Prop :=
  let x := cur_x cur in
  let y := cur_y cur in
  match seg with
  | SegCubic x1 y1 x2 y2 x3 y3 =>
      cubic_guards_agree k x x1 x2 x3 /\ cubic_guards_agree k y y1 y2 y3
  | SegQuad x1 y1 x2 y2 =>
      quadratic_guard_agrees k x x1 x2 /\ quadratic_guard_agrees k y y1 y2
  | _ => True
  end.

(* ================================================================== *)
(** * Notions used to state what [path_bbox] encloses *)






(* ================================================================== *)
(** * Notions used to state what is read back from emitted path data *)






(* ================================================================== *)
(** * Notions used to state where the composition puts things *)






(* ================================================================== *)
(** * Properties *)

(** ** Comparisons *)

Lemma Rltb_true (a b : R) : a < b -> Rltb a b = true.
Proof. intros H. unfold Rltb. destruct (Rlt_dec a b); [reflexivity | contradiction]. Qed.

Lemma Rltb_false (a b : R) : b <= a -> Rltb a b = false.
Proof. intros H. unfold Rltb. destruct (Rlt_dec a b); [lra | reflexivity]. Qed.

Lemma Rleb_true (a b : R) : a <= b -> Rleb a b = true.
Proof. intros H. unfold Rleb. destruct (Rle_dec a b); [reflexivity | contradiction]. Qed.

Lemma Rleb_false (a b : R) : b < a -> Rleb a b = false.
Proof. intros H. unfold Rleb. destruct (Rle_dec a b); [lra | reflexivity]. Qed.

Lemma Reqb_true (a b : R) : a = b -> Reqb a b = true.
Proof. intros H. unfold Reqb. destruct (Req_dec_T a b); [reflexivity | contradiction]. Qed.

Lemma Reqb_false (a b : R) : a <> b -> Reqb a b = false.
Proof. intros H. unfold Reqb. destruct (Req_dec_T a b); [contradiction | reflexivity]. Qed.

Lemma Rltb_spec (a b : R) : reflect (a < b) (Rltb a b).
Proof. unfold Rltb. destruct (Rlt_dec a b); constructor; assumption. Qed.

Lemma Rleb_spec (a b : R) : reflect (a <= b) (Rleb a b).
Proof. unfold Rleb. destruct (Rle_dec a b); constructor; assumption. Qed.

Lemma Reqb_spec (a b : R) : reflect (a = b) (Reqb a b).
Proof. unfold Reqb. destruct (Req_dec_T a b); constructor; assumption. Qed.

(** ** Composition layout *)

Section LayoutFacts.

Variables (base overlay : icon) (scale gap_dp simplify_dp : R).

Let lay := compute_layout base overlay scale gap_dp simplify_dp.

Lemma overlay_bbox_norm_content (b : box) :
  content_bbox (paths overlay) = Some b ->
  overlay_bbox_norm lay = box_translate b (- min_x overlay) (- min_y overlay).
Proof.
  intros Hb. unfold lay, compute_layout. cbn [overlay_bbox_norm].
  rewrite Hb. reflexivity.
Qed.

Lemma overlay_scaled_bbox_eq :
  overlay_scaled_bbox lay = box_scale (overlay_bbox_norm lay) scale.
Proof. reflexivity. Qed.

Lemma gap_no_declared_width :
  width base = None -> gap lay = gap_dp.
Proof.
  intros Hw. unfold lay, compute_layout. cbn [gap]. rewrite Hw. cbn [or_else].
  destruct (Reqb_spec (vb_width base) 0) as [E | NE]; [reflexivity |].
  field. exact NE.
Qed.

Lemma gap_declared_width (w : R) :
  width base = Some w -> w <> 0 -> gap lay = gap_dp * (vb_width base / w).
Proof.
  intros Hw Hn. unfold lay, compute_layout. cbn [gap]. rewrite Hw. cbn [or_else].
  rewrite (Reqb_false Hn). rewrite (Reqb_false Hn). reflexivity.
Qed.

Lemma hole_scale_cases :
  (0 < max_dim lay ->
   hole_scale lay = scale * (1 + (2 * gap lay) / max_dim lay))
  /\ (max_dim lay <= 0 -> hole_scale lay = scale).
Proof.
  unfold lay, compute_layout. cbn [max_dim hole_scale gap].
  set (md := Rmax _ _). split; intros H.
  - rewrite (Rleb_false H). reflexivity.
  - rewrite (Rleb_true H). reflexivity.
Qed.

End LayoutFacts.

(** C3.  When the overlay has a content bounding box [b] and the scale is
    positive, the overlay translation computed by the layout is
    [vb_width base - maxX] and [- minY] of the scaled normalized box, so
    the placed box has its maximum x on the right edge of the base viewport
    (and its minimum y on the top edge). *)
Theorem overlay_anchored_top_right
  (base overlay : icon) (scale gap_dp simplify_dp : R) (b : box) :
  content_bbox (paths overlay) = Some b ->
  0 < scale ->
  let lay := compute_layout base overlay scale gap_dp simplify_dp in
  let scaled :=
    box_scale (box_translate b (- min_x overlay) (- min_y overlay)) scale in
  let placed :=
    box_translate scaled (overlay_translate_x lay) (overlay_translate_y lay) in
  overlay_translate_x lay = vb_width base - x_max scaled
  /\ overlay_translate_y lay = - y_min scaled
  /\ x_max placed = vb_width base
  /\ y_min placed = 0.
Proof.
  intros Hb Hs lay scaled placed.
  assert (Hn : overlay_scaled_bbox lay = scaled).
  { unfold lay. rewrite overlay_scaled_bbox_eq.
    rewrite (overlay_bbox_norm_content _ _ _ _ _ Hb). reflexivity. }
  assert (Hx : overlay_translate_x lay = vb_width base - x_max scaled).
  { rewrite <- Hn. reflexivity. }
  assert (Hy : overlay_translate_y lay = - y_min scaled).
  { rewrite <- Hn. reflexivity. }
  repeat split; try assumption.
  - unfold placed. cbn [box_translate x_max]. rewrite Hx. ring.
  - unfold placed. cbn [box_translate y_min]. rewrite Hy. ring.
Qed.

Lemma overlay_anchored_top_right_witness :
  let lay := compute_layout base_24 overlay_4_20 (1 / 2) 2 (1 / 4) in
  let scaled := box_scale (box_translate (Box 4 4 20 20) (- 0) (- 0)) (1 / 2) in
  let placed :=
    box_translate scaled (overlay_translate_x lay) (overlay_translate_y lay) in
  overlay_translate_x lay = 24 - x_max scaled
  /\ overlay_translate_y lay = - y_min scaled
  /\ x_max placed = 24
  /\ y_min placed = 0.
Proof.
  apply (@overlay_anchored_top_right base_24 overlay_4_20 (1 / 2) 2 (1 / 4)
           (Box 4 4 20 20)).
  - reflexivity.
  - lra.
Defined.

(** C4.  For a positive gap and an icon whose declared width, if any, is
    not zero: the gap in viewport units is [gap_dp * (vb_width / width)],
    and [gap_dp] itself without a declared width; the cut-out scale is
    [scale * (1 + 2 * gap / max_dim)] when the larger dimension [max_dim]
    of the overlay content box is positive, and [scale] otherwise. *)
Theorem cutout_scale_formula
  (base overlay : icon) (scale gap_dp simplify_dp : R) :
  0 < gap_dp ->
  (forall w, width base = Some w -> w <> 0) ->
  let lay := compute_layout base overlay scale gap_dp simplify_dp in
  let gap_in_view_units :=
    match width base with
    | Some w => gap_dp * (vb_width base / w)
    | None => gap_dp
    end in
  let ob := overlay_content_box overlay in
  let max_overlay_dimension :=
    Rmax (x_max ob - x_min ob) (y_max ob - y_min ob) in
  gap lay = gap_in_view_units
  /\ max_dim lay = max_overlay_dimension
  /\ (0 < max_overlay_dimension ->
      hole_scale lay
      = scale * (1 + (2 * gap_in_view_units) / max_overlay_dimension))
  /\ (max_overlay_dimension <= 0 -> hole_scale lay = scale).
Proof.
  intros Hg Hw lay gv ob md.
  assert (Hgap : gap lay = gv).
  { unfold gv. destruct (width base) as [w |] eqn:E.
    - apply gap_declared_width; [exact E | apply Hw; reflexivity].
    - apply gap_no_declared_width; exact E. }
  assert (Hmd : max_dim lay = md).
  { unfold lay, compute_layout, md, ob, overlay_content_box.
    cbn [max_dim box_translate x_max x_min y_max y_min].
    f_equal; ring. }
  destruct (hole_scale_cases base overlay scale gap_dp simplify_dp) as [Hp Hn].
  fold lay in Hp, Hn. rewrite Hgap, Hmd in Hp. rewrite Hmd in Hn.
  repeat split; assumption.
Qed.

Lemma cutout_scale_formula_witness :
  let lay := compute_layout base_24 overlay_4_20 (1 / 2) 2 (1 / 4) in
  let gap_in_view_units := 2 * (24 / 48) in
  let ob := overlay_content_box overlay_4_20 in
  let max_overlay_dimension :=
    Rmax (x_max ob - x_min ob) (y_max ob - y_min ob) in
  gap lay = gap_in_view_units
  /\ max_dim lay = max_overlay_dimension
  /\ (0 < max_overlay_dimension ->
      hole_scale lay
      = 1 / 2 * (1 + (2 * gap_in_view_units) / max_overlay_dimension))
  /\ (max_overlay_dimension <= 0 -> hole_scale lay = 1 / 2).
Proof.
  apply (@cutout_scale_formula base_24 overlay_4_20 (1 / 2) 2 (1 / 4)).
  - lra.
  - intros w Hw. cbn in Hw. injection Hw as <-. lra.
Defined.

(** C5.  With a gap of zero the cut-out scale is the overlay scale, and
    the composition is the one with no hole paths: the data of the base
    path element is the base paths alone and the element carries no
    fill-type attribute, whatever the smoothing flag and capability. *)
Theorem zero_gap_no_cutout
  (tools : option (icon -> icon -> R -> Z -> layout
                   -> list string * option (list string)))
  (base overlay : icon) (scale : R) (smooth : bool) (sample_points : Z)
  (simplify_dp : R) :
  let lay := compute_layout base overlay scale 0 simplify_dp in
  hole_scale lay = scale
  /\ build_vector_xml tools base overlay scale 0 smooth sample_points simplify_dp
     = (let* overlay_paths :=
          map_result
            (fun p =>
               let* data :=
                 transform_path_data scale
                   (- min_x overlay * scale + overlay_translate_x lay)
                   (- min_y overlay * scale + overlay_translate_y lay) (p_d p) in
               Ok (data, p_fill p))
            (paths overlay) in
        let* base_paths :=
          map_result
            (fun p =>
               transform_path_data 1 (base_translate_x lay)
                 (base_translate_y lay) (p_d p))
            (paths base) in
        Ok (Drawable [] (join " " base_paths) EmptyString overlay_paths
              (join nl
                 (vector_header (or_else (width base) (vb_width base))
                    (or_else (height base) (vb_height base)) base
                  ++ [path_element EmptyString (join " " base_paths)]
                  ++ map (fun pf : string * string =>
                            path_element EmptyString (fst pf)) overlay_paths
                  ++ ["</vector>"])%list
               ++ nl))).
Proof.
  intros lay.
  assert (Hgap : gap lay = 0).
  { unfold lay, compute_layout. cbn [gap].
    destruct (Reqb _ 0); ring. }
  split.
  - destruct (hole_scale_cases base overlay scale 0 simplify_dp) as [Hp Hn].
    fold lay in Hp, Hn.
    destruct (Rle_lt_dec (max_dim lay) 0) as [H | H].
    + apply Hn, H.
    + rewrite (Hp H), Hgap. field. lra.
  - unfold build_vector_xml. fold lay. rewrite Hgap.
    rewrite (Rltb_false (Rle_refl 0)). cbn [andb fst snd].
    destruct (map_result _ (paths overlay)) as [ops | e |]; cbn [bind];
      try reflexivity.
    destruct (map_result _ (paths base)) as [tb | e |]; cbn [bind];
      reflexivity.
Qed.

(** ** Evaluation on concrete inputs

    [run] unfolds the interpreters and the string functions and leaves the
    operations on real numbers, the formatter and the curve boxes folded. *)

Ltac run :=
  cbv -[Rplus Rmult Rminus Ropp Rdiv Rinv IZR Rmin Rmax Rabs sqrt
        Rlt_dec Rle_dec Req_dec_T Zfloor Zceil up atan cos sin PI INR
        Rltb Rleb Reqb fmt_number cubic_box quadratic_box arc_bbox
        int_trunc str_int].

Ltac minmax :=
  repeat match goal with
         | |- context [Rmin ?a ?b] =>
             first [ rewrite (Rmin_left a b) by lra
                   | rewrite (Rmin_right a b) by lra ]
         | |- context [Rmax ?a ?b] =>
             first [ rewrite (Rmax_left a b) by lra
                   | rewrite (Rmax_right a b) by lra ]
         end;
  try reflexivity; try lra.

(** ** Rounding and formatting *)

Lemma round_half_even_near (v : R) (z : Z) :
  IZR z - 1 / 2 < v < IZR z + 1 / 2 -> round_half_even v = z.
Proof.
  intros [Hl Hu]. unfold round_half_even.
  destruct (Rle_lt_dec (IZR z) v) as [Hge | Hlt].
  - assert (Hf : Zfloor v = z) by (apply Zfloor_eq; lra).
    rewrite Hf. rewrite Rltb_true by lra. reflexivity.
  - assert (Hf : Zfloor v = (z - 1)%Z).
    { apply Zfloor_eq. rewrite minus_IZR. lra. }
    rewrite Hf. rewrite minus_IZR.
    rewrite Rltb_false by lra. rewrite Rltb_true by lra. lia.
Qed.

Lemma round_half_even_IZR (z : Z) : round_half_even (IZR z) = z.
Proof. apply round_half_even_near. lra. Qed.

Lemma fmt_number_near_integer (v : R) (z : Z) :
  Rabs (v - IZR z) < 1 / 1000000 -> fmt_number v = str_int z.
Proof.
  intros H. assert (Hr : round_half_even v = z).
  { apply round_half_even_near.
    apply Rabs_def2 in H. lra. }
  unfold fmt_number. rewrite Hr. rewrite (Rltb_true H). reflexivity.
Qed.

Lemma fmt_number_IZR (z : Z) : fmt_number (IZR z) = str_int z.
Proof.
  apply fmt_number_near_integer.
  replace (IZR z - IZR z) with 0 by ring. rewrite Rabs_R0. lra.
Qed.

(** ** Strings, digits and the canonical form *)

Ltac Zify.zify_post_hook ::= Z.to_euclidean_division_equations.

Open Scope string_scope.

Lemma append_nil_r (s : string) : s ++ EmptyString = s.
Proof. induction s as [| c s IH]; cbn; [reflexivity | now rewrite IH]. Qed.

Lemma append_assoc (a b c : string) : (a ++ b) ++ c = a ++ (b ++ c).
Proof. induction a as [| x a IH]; cbn; [reflexivity | now rewrite IH]. Qed.

Lemma string_rev_acc_app (s acc : string) :
  string_rev_acc s acc = string_rev s ++ acc.
Proof.
  unfold string_rev. revert acc.
  induction s as [| c s IH]; intros acc; cbn; [reflexivity |].
  rewrite IH. rewrite (IH (String c EmptyString)).
  rewrite append_assoc. reflexivity.
Qed.

Lemma string_rev_cons (c : ascii) (s : string) :
  string_rev (String c s) = string_rev s ++ String c EmptyString.
Proof. unfold string_rev at 1. cbn. apply string_rev_acc_app. Qed.

Lemma string_rev_app (s t : string) :
  string_rev (s ++ t) = string_rev t ++ string_rev s.
Proof.
  induction s as [| c s IH]; cbn [String.append].
  - now rewrite append_nil_r.
  - rewrite !string_rev_cons, IH, append_assoc. reflexivity.
Qed.

Lemma string_rev_involutive (s : string) : string_rev (string_rev s) = s.
Proof.
  induction s as [| c s IH]; [reflexivity |].
  rewrite string_rev_cons, string_rev_app, IH. reflexivity.
Qed.

Lemma lstrip_char_app (c : ascii) (a b : string) :
  lstrip_char c (a ++ b)
  = match lstrip_char c a with
    | EmptyString => lstrip_char c b
    | r => r ++ b
    end.
Proof.
  induction a as [| d a IH]; cbn; [reflexivity |].
  destruct (Ascii.eqb d c); [exact IH | reflexivity].
Qed.

Lemma string_rev_empty (s : string) : string_rev s = EmptyString -> s = EmptyString.
Proof.
  intros H. rewrite <- (string_rev_involutive s), H. reflexivity.
Qed.

Lemma rstrip_app (c : ascii) (s t : string) :
  rstrip c (s ++ t)
  = match rstrip c t with
    | EmptyString => rstrip c s
    | r => s ++ r
    end.
Proof.
  unfold rstrip. rewrite string_rev_app, lstrip_char_app.
  destruct (lstrip_char c (string_rev t)) as [| d r] eqn:E.
  - reflexivity.
  - rewrite string_rev_app, string_rev_involutive.
    destruct (string_rev (String d r)) eqn:E2.
    + apply string_rev_empty in E2. discriminate.
    + reflexivity.
Qed.

Open Scope R_scope.

Lemma round_half_even_spec (v : R) : nearest_even v (round_half_even v).
Proof.
  unfold round_half_even, nearest_even.
  pose proof (Zfloor_bound v) as [Hl Hu].
  set (f := Zfloor v) in *.
  destruct (Rltb_spec (v - IZR f) (1 / 2)) as [H1 | H1].
  - left. lra.
  - destruct (Rltb_spec (1 / 2) (v - IZR f)) as [H2 | H2].
    + left. rewrite plus_IZR. lra.
    + assert (E : v - IZR f = 1 / 2) by lra.
      destruct (Z.even f) eqn:Ev.
      * right. split; [left; lra | exact Ev].
      * right. split.
        -- right. rewrite plus_IZR. lra.
        -- rewrite Z.even_add, Ev. reflexivity.
Qed.

Lemma round_half_even_unique (v : R) (z : Z) :
  nearest_even v z -> round_half_even v = z.
Proof.
  intros Hz. pose proof (round_half_even_spec v) as Hr.
  set (r := round_half_even v) in *.
  destruct (Z.eq_dec r z) as [E | NE]; [exact E | exfalso].
  assert (Hd : (r <= z - 1 \/ z + 1 <= r)%Z) by lia.
  assert (HdR : IZR r <= IZR z - 1 \/ IZR z + 1 <= IZR r).
  { destruct Hd as [H | H]; apply IZR_le in H;
      rewrite ?minus_IZR, ?plus_IZR in H; [left | right]; exact H. }
  unfold nearest_even in Hz, Hr.
  destruct Hz as [Hz | [Hz Ez]], Hr as [Hr | [Hr Er]];
    try (destruct Hz as [Hz | Hz]); try (destruct Hr as [Hr | Hr]);
    try (destruct HdR; lra).
  - assert (Hrz : IZR r = IZR z + 1) by lra.
    rewrite <- plus_IZR in Hrz. apply eq_IZR in Hrz. rewrite Hrz in Er.
    rewrite Z.even_add, Ez in Er. discriminate.
  - assert (Hrz : IZR r = IZR z - 1) by lra.
    rewrite <- minus_IZR in Hrz. apply eq_IZR in Hrz. rewrite Hrz in Er.
    rewrite Z.even_sub, Ez in Er. discriminate.
Qed.

Lemma round_half_even_opp (v : R) : round_half_even (- v) = (- round_half_even v)%Z.
Proof.
  apply round_half_even_unique.
  pose proof (round_half_even_spec v) as Hr.
  unfold nearest_even in *. rewrite opp_IZR, Z.even_opp.
  destruct Hr as [Hr | [[Hr | Hr] Er]].
  - left. lra.
  - right. split; [right; lra | exact Er].
  - right. split; [left; lra | exact Er].
Qed.

Open Scope string_scope.

(** rstrip, one character at a time *)
Lemma rstrip_empty (c : ascii) : rstrip c EmptyString = EmptyString.
Proof. reflexivity. Qed.

Lemma rstrip_single (c d : ascii) :
  rstrip c (String d EmptyString)
  = if Ascii.eqb d c then EmptyString else String d EmptyString.
Proof. unfold rstrip, string_rev. cbn. destruct (Ascii.eqb d c); reflexivity. Qed.

Lemma rstrip_cons (c d : ascii) (s : string) :
  rstrip c (String d s)
  = match rstrip c s with
    | EmptyString => if Ascii.eqb d c then EmptyString else String d EmptyString
    | r => String d r
    end.
Proof.
  change (String d s) with (String d EmptyString ++ s).
  rewrite rstrip_app, rstrip_single.
  destruct (rstrip c s); reflexivity.
Qed.

Lemma rstrip_all_digits (c : ascii) (s : string) :
  all_digits s = true -> all_digits (rstrip c s) = true.
Proof.
  induction s as [| d s IH]; [reflexivity |].
  cbn [all_digits]. intros H. apply andb_prop in H as [Hd Hs].
  rewrite rstrip_cons. specialize (IH Hs).
  destruct (rstrip c s) as [| e r].
  - destruct (Ascii.eqb d c); [reflexivity | cbn; now rewrite Hd].
  - cbn [all_digits] in *. now rewrite Hd, IH.
Qed.

Lemma rstrip_last (c : ascii) (s : string) :
  match last_char (rstrip c s) with
  | Some d => Ascii.eqb d c = false
  | None => rstrip c s = EmptyString
  end.
Proof.
  induction s as [| d s IH]; [reflexivity |].
  rewrite rstrip_cons. destruct (rstrip c s) as [| e r].
  - destruct (Ascii.eqb d c) eqn:E; [reflexivity | exact E].
  - cbn [last_char] in *.
    destruct (match r with EmptyString => Some e | String _ _ => last_char r end);
      [exact IH | discriminate IH].
Qed.

Lemma rstrip_fixed (c : ascii) (s : string) (d : ascii) :
  last_char s = Some d -> Ascii.eqb d c = false -> rstrip c s = s.
Proof.
  induction s as [| e s IH]; [discriminate |].
  intros Hl Hd. rewrite rstrip_cons. destruct s as [| e' s'].
  - cbn in Hl. injection Hl as ->. cbn. now rewrite Hd.
  - cbn [last_char] in Hl. rewrite (IH Hl Hd). reflexivity.
Qed.

Lemma rstrip_empty_inv (c : ascii) (s : string) :
  rstrip c s = EmptyString -> forall d, string_mem d s = true -> d = c.
Proof.
  induction s as [| e s IH]; [discriminate |].
  rewrite rstrip_cons. destruct (rstrip c s) eqn:E; [| discriminate].
  destruct (Ascii.eqb_spec e c) as [-> | NE]; [| discriminate].
  intros _ d. cbn [string_mem]. intros H. apply orb_prop in H as [H | H].
  - apply Ascii.eqb_eq in H. now subst.
  - now apply IH.
Qed.

(** digits *)
Lemma all_digits_mem (s : string) (c : ascii) :
  all_digits s = true -> is_digit c = false -> string_mem c s = false.
Proof.
  induction s as [| d s IH]; [reflexivity |].
  cbn [all_digits string_mem]. intros H Hc. apply andb_prop in H as [Hd Hs].
  rewrite (IH Hs Hc). destruct (Ascii.eqb_spec d c) as [-> | NE]; [congruence | reflexivity].
Qed.

Lemma all_digits_last (s : string) :
  all_digits s = true -> s <> EmptyString ->
  exists d, last_char s = Some d /\ is_digit d = true.
Proof.
  induction s as [| d s IH]; [congruence |].
  cbn [all_digits]. intros H _. apply andb_prop in H as [Hd Hs].
  destruct s as [| e s'].
  - exists d. split; [reflexivity | exact Hd].
  - destruct (IH Hs ltac:(discriminate)) as (x & Hx & Hdx).
    exists x. split; [exact Hx | exact Hdx].
Qed.

Lemma all_digits_uint (d : Decimal.uint) :
  all_digits (NilEmpty.string_of_uint d) = true.
Proof. induction d; cbn; auto. Qed.

Lemma str_int_pos (p : positive) :
  str_int (Z.pos p) = NilEmpty.string_of_uint (Pos.to_uint p).
Proof.
  unfold str_int. cbn [Z.to_int NilZero.string_of_int].
  pose proof (Unsigned.to_uint_nonnil p) as H.
  destruct (Pos.to_uint p); [congruence | reflexivity ..].
Qed.

Lemma str_int_neg (p : positive) :
  str_int (Z.neg p) = String "-" (str_int (Z.pos p)).
Proof. reflexivity. Qed.

Lemma str_int_digits (z : Z) :
  (0 <= z)%Z -> all_digits (str_int z) = true /\ str_int z <> EmptyString.
Proof.
  intros Hz. destruct z as [| p | p]; [split; [reflexivity | discriminate] | | lia].
  rewrite str_int_pos. split; [apply all_digits_uint |].
  pose proof (Unsigned.to_uint_nonnil p) as H.
  destruct (Pos.to_uint p); [congruence | discriminate ..].
Qed.

Lemma digit_char_facts (d : Z) :
  (0 <= d <= 9)%Z ->
  is_digit (digit_char d) = true
  /\ (digit_char d = "0"%char -> d = 0%Z)
  /\ digit_value (digit_char d) = d.
Proof.
  intros H.
  assert (E : (d = 0 \/ d = 1 \/ d = 2 \/ d = 3 \/ d = 4 \/ d = 5 \/ d = 6
               \/ d = 7 \/ d = 8 \/ d = 9)%Z) by lia.
  repeat (destruct E as [E | E]; [subst d; repeat split; (reflexivity || discriminate) |]).
  subst d; repeat split; (reflexivity || discriminate).
Qed.

Lemma pad4_digits (f : Z) :
  (0 <= f < 10000)%Z -> all_digits (pad4 f) = true.
Proof.
  intros H. unfold pad4. cbn [all_digits].
  rewrite (proj1 (@digit_char_facts (f / 1000) ltac:(lia))).
  rewrite (proj1 (@digit_char_facts (f / 100 mod 10) ltac:(lia))).
  rewrite (proj1 (@digit_char_facts (f / 10 mod 10) ltac:(lia))).
  rewrite (proj1 (@digit_char_facts (f mod 10) ltac:(lia))).
  reflexivity.
Qed.

Lemma pad4_zero (f : Z) :
  (0 <= f < 10000)%Z -> rstrip "0" (pad4 f) = EmptyString -> f = 0%Z.
Proof.
  intros H E. pose proof (@rstrip_empty_inv _ _ E) as Hall.
  assert (H1 : (f / 1000 = 0)%Z).
  { apply (proj1 (proj2 (@digit_char_facts (f / 1000) ltac:(lia)))).
    apply Hall. unfold pad4. cbn [string_mem]. now rewrite Ascii.eqb_refl. }
  assert (H2 : (f / 100 mod 10 = 0)%Z).
  { apply (proj1 (proj2 (@digit_char_facts (f / 100 mod 10) ltac:(lia)))).
    apply Hall. unfold pad4. cbn [string_mem]. rewrite Ascii.eqb_refl.
    now rewrite !orb_true_r. }
  assert (H3 : (f / 10 mod 10 = 0)%Z).
  { apply (proj1 (proj2 (@digit_char_facts (f / 10 mod 10) ltac:(lia)))).
    apply Hall. unfold pad4. cbn [string_mem]. rewrite Ascii.eqb_refl.
    now rewrite !orb_true_r. }
  assert (H4 : (f mod 10 = 0)%Z).
  { apply (proj1 (proj2 (@digit_char_facts (f mod 10) ltac:(lia)))).
    apply Hall. unfold pad4. cbn [string_mem]. rewrite Ascii.eqb_refl.
    now rewrite !orb_true_r. }
  lia.
Qed.

Lemma is_digit_not (d c : ascii) :
  is_digit d = true -> is_digit c = false -> Ascii.eqb d c = false.
Proof.
  intros Hd Hc. destruct (Ascii.eqb_spec d c) as [-> | NE]; [congruence | reflexivity].
Qed.

(** Stripping the four decimals of a formatted number. *)
Lemma strip_format (pre : string) (f : Z) (d : ascii) :
  (0 <= f < 10000)%Z ->
  last_char pre = Some d -> is_digit d = true ->
  rstrip "." (rstrip "0" (pre ++ "." ++ pad4 f))
  = pre ++ (if (f =? 0)%Z then EmptyString else "." ++ rstrip "0" (pad4 f)).
Proof.
  intros Hf Hl Hd.
  set (R := rstrip "0" (pad4 f)).
  assert (HR : all_digits R = true) by (apply rstrip_all_digits, pad4_digits, Hf).
  assert (E0 : rstrip "0" ("." ++ pad4 f) = "." ++ R).
  { rewrite rstrip_app. fold R. destruct R; reflexivity. }
  rewrite rstrip_app, E0. cbn [String.append].
  rewrite rstrip_app.
  assert (Epre : rstrip "." pre = pre).
  { apply (@rstrip_fixed _ _ _ Hl). apply is_digit_not; [exact Hd | reflexivity]. }
  destruct (Z.eqb_spec f 0) as [-> | NE].
  - cbn. rewrite Epre. symmetry. apply append_nil_r.
  - assert (HRne : R <> EmptyString).
    { intros E. apply NE. apply pad4_zero; assumption. }
    destruct (@all_digits_last _ HR HRne) as (x & Hx & Hdx).
    assert (E1 : rstrip "." (String "." R) = String "." R).
    { apply (@rstrip_fixed _ _ x).
      - cbn [last_char]. destruct R; [congruence | exact Hx].
      - apply is_digit_not; [exact Hdx | reflexivity]. }
    rewrite E1. reflexivity.
Qed.

Open Scope R_scope.

Lemma round_half_even_nonneg (x : R) : 0 <= x -> (0 <= round_half_even x)%Z.
Proof.
  intros Hx. pose proof (round_half_even_spec x) as Hr.
  set (r := round_half_even x) in *.
  assert (H : -1 < IZR r) by (destruct Hr as [Hr | [[Hr | Hr] _]]; lra).
  apply lt_IZR in H. lia.
Qed.

Lemma round_half_even_abs (x : R) :
  round_half_even (Rabs x) = Z.abs (round_half_even x).
Proof.
  destruct (Rcase_abs x) as [Hn | Hp].
  - rewrite (Rabs_left _ Hn), round_half_even_opp.
    assert (H : (0 <= round_half_even (- x))%Z)
      by (apply round_half_even_nonneg; lra).
    rewrite round_half_even_opp in H. lia.
  - rewrite (Rabs_right _ Hp).
    assert (H : (0 <= round_half_even x)%Z)
      by (apply round_half_even_nonneg; lra).
    lia.
Qed.

Lemma round4_abs (v : R) :
  round_half_even (Rabs v * 10000) = Z.abs (round4 v).
Proof.
  unfold round4. rewrite <- round_half_even_abs. f_equal.
  rewrite Rabs_mult. rewrite (Rabs_right 10000) by lra. reflexivity.
Qed.

Lemma round4_sign (v : R) :
  round4 v <> 0%Z -> Rltb v 0 = (round4 v <? 0)%Z.
Proof.
  intros Hn. pose proof (round_half_even_spec (v * 10000)) as Hr.
  fold (round4 v) in Hr. set (n := round4 v) in *.
  destruct (Z.ltb_spec n 0) as [Hlt | Hge].
  - apply Rltb_true. assert (H : IZR n <= -1) by (apply IZR_le; lia).
    destruct Hr as [Hr | [[Hr | Hr] _]]; lra.
  - apply Rltb_false. assert (H : 1 <= IZR n) by (apply IZR_le; lia).
    destruct Hr as [Hr | [[Hr | Hr] _]]; lra.
Qed.

Lemma round4_near_integer (v : R) (z : Z) :
  Rabs (v - IZR z) < 1 / 1000000 -> round4 v = (z * 10000)%Z.
Proof.
  intros H. apply Rabs_def2 in H. unfold round4.
  apply round_half_even_near. rewrite mult_IZR. lra.
Qed.

Open Scope string_scope.

Lemma canonical_decimal_integer (z : Z) :
  canonical_decimal (z * 10000) = str_int z.
Proof.
  unfold canonical_decimal.
  replace (Z.abs (z * 10000)) with (Z.abs z * 10000)%Z by lia.
  rewrite Z.div_mul by lia. rewrite Z.mod_mul by lia. cbn [Z.eqb].
  rewrite append_nil_r.
  destruct z as [| p | p]; try reflexivity.
Qed.

Lemma last_char_app (s t : string) :
  t <> EmptyString -> last_char (s ++ t) = last_char t.
Proof.
  intros Ht. induction s as [| c s IH]; [reflexivity |].
  cbn [String.append last_char]. rewrite IH.
  destruct (s ++ t) eqn:E; [| reflexivity].
  destruct s; cbn in E; [congruence | discriminate].
Qed.

Lemma format_4f_eq (v : R) :
  format_4f v
  = ((if Rltb v 0 then "-" else EmptyString) ++ str_int (Z.abs (round4 v) / 10000))
      ++ "." ++ pad4 (Z.abs (round4 v) mod 10000).
Proof.
  unfold format_4f. rewrite round4_abs. cbv zeta. rewrite append_assoc. reflexivity.
Qed.

Lemma integer_part_last (sign : string) (i : Z) :
  (0 <= i)%Z ->
  exists d, last_char (sign ++ str_int i) = Some d /\ is_digit d = true.
Proof.
  intros Hi. destruct (@str_int_digits i Hi) as [Hd Hne].
  rewrite (@last_char_app sign _ Hne). apply all_digits_last; assumption.
Qed.

Lemma fmt_number_canonical (v : R) :
  round4 v <> 0%Z -> fmt_number v = canonical_decimal (round4 v).
Proof.
  intros Hn. unfold fmt_number.
  destruct (Rltb_spec (Rabs (v - IZR (round_half_even v))) (1 / 1000000)) as [H | H].
  - rewrite (@round4_near_integer v _ H). symmetry. apply canonical_decimal_integer.
  - rewrite format_4f_eq. rewrite (@round4_sign v Hn).
    set (m := Z.abs (round4 v)).
    destruct (@integer_part_last (if (round4 v <? 0)%Z then "-" else EmptyString)
                (m / 10000)%Z ltac:(lia)) as (d & Hl & Hd).
    rewrite (@strip_format _ (m mod 10000)%Z d ltac:(lia) Hl Hd).
    unfold canonical_decimal. fold m. cbv zeta. rewrite append_assoc. reflexivity.
Qed.

Lemma fmt_number_round4_zero (v : R) :
  round4 v = 0%Z ->
  fmt_number v = if Rleb v (- (1 / 1000000)) then "-0" else "0".
Proof.
  intros Hn. pose proof (round_half_even_spec (v * 10000)) as Hr.
  fold (round4 v) in Hr. rewrite Hn in Hr.
  assert (Hv : - (1 / 20000) <= v <= 1 / 20000)
    by (destruct Hr as [Hr | [[Hr | Hr] _]]; lra).
  assert (Hz : round_half_even v = 0%Z) by (apply round_half_even_near; lra).
  unfold fmt_number. rewrite Hz. replace (v - 0)%R with v by ring.
  destruct (Rltb_spec (Rabs v) (1 / 1000000)) as [H | H].
  - apply Rabs_def2 in H. rewrite Rleb_false by lra. reflexivity.
  - rewrite format_4f_eq, Hn. cbn [Z.abs Z.div Z.modulo].
    destruct (Rltb_spec v 0) as [Hneg | Hpos].
    + rewrite Rabs_left in H by lra. rewrite Rleb_true by lra. reflexivity.
    + rewrite Rabs_right in H by lra. rewrite Rleb_false by lra. reflexivity.
Qed.

Lemma string_mem_app (c : ascii) (s t : string) :
  string_mem c (s ++ t) = string_mem c s || string_mem c t.
Proof.
  induction s as [| d s IH]; [reflexivity |].
  cbn [String.append string_mem]. rewrite IH. apply orb_assoc.
Qed.

Lemma decimal_places_app (s t : string) :
  string_mem "." s = false -> decimal_places (s ++ t) = decimal_places t.
Proof.
  induction s as [| d s IH]; [reflexivity |].
  cbn [string_mem String.append decimal_places]. intros H.
  apply orb_false_elim in H as [Hd Hs]. rewrite Hd. apply IH, Hs.
Qed.

Lemma length_rstrip (c : ascii) (s : string) :
  (String.length (rstrip c s) <= String.length s)%nat.
Proof.
  induction s as [| d s IH]; [apply Nat.le_refl |].
  rewrite rstrip_cons. destruct (rstrip c s) as [| e r].
  - destruct (Ascii.eqb d c); cbn; lia.
  - cbn [String.length] in *. lia.
Qed.

Lemma canonical_decimal_shape (n : Z) : canonical_shape (canonical_decimal n).
Proof.
  unfold canonical_decimal. cbv zeta.
  set (m := Z.abs n). set (sign := if (n <? 0)%Z then "-" else EmptyString).
  assert (Hi : (0 <= m / 10000)%Z) by lia.
  destruct (@str_int_digits _ Hi) as [Hd Hne].
  destruct (@integer_part_last sign _ Hi) as (d & Hl & Hdd).
  assert (Hnodot : string_mem "." (sign ++ str_int (m / 10000)) = false).
  { rewrite string_mem_app. rewrite (@all_digits_mem _ "." Hd eq_refl).
    unfold sign. destruct (n <? 0)%Z; reflexivity. }
  rewrite <- append_assoc.
  destruct (Z.eqb_spec (m mod 10000) 0) as [E | NE].
  - rewrite append_nil_r. unfold canonical_shape, ends_with, has_dot.
    rewrite Hl, Hnodot. repeat split.
    + rewrite <- (append_nil_r (sign ++ _)).
      rewrite (@decimal_places_app _ EmptyString Hnodot). cbn. lia.
    + apply is_digit_not; [exact Hdd | reflexivity].
    + discriminate.
  - set (f := (m mod 10000)%Z) in *. set (R := rstrip "0" (pad4 f)).
    assert (Hf : (0 <= f < 10000)%Z) by (unfold f; lia).
    assert (HR : all_digits R = true) by (apply rstrip_all_digits, pad4_digits, Hf).
    assert (HRne : R <> EmptyString).
    { intros E. apply NE. apply pad4_zero; assumption. }
    destruct (@all_digits_last _ HR HRne) as (x & Hx & Hdx).
    pose proof (rstrip_last "0" (pad4 f)) as Hlast. fold R in Hlast.
    rewrite Hx in Hlast.
    assert (Hlc : last_char ((sign ++ str_int (m / 10000)) ++ "." ++ R) = Some x).
    { rewrite last_char_app by discriminate. cbn [String.append last_char].
      destruct R; [congruence | exact Hx]. }
    unfold canonical_shape, ends_with, has_dot. rewrite Hlc. repeat split.
    + rewrite (@decimal_places_app _ ("." ++ R) Hnodot).
      cbn [String.append decimal_places].
      cbn [Ascii.eqb Bool.eqb]. 
      pose proof (length_rstrip "0" (pad4 f)) as Hlen. fold R in Hlen.
      cbn [pad4 String.length] in Hlen. exact Hlen.
    + apply is_digit_not; [exact Hdx | reflexivity].
    + intros _. exact Hlast.
Qed.

Lemma fmt_number_shape (v : R) : canonical_shape (fmt_number v).
Proof.
  destruct (Z.eq_dec (round4 v) 0) as [E | NE].
  - rewrite (@fmt_number_round4_zero v E).
    destruct (Rleb v _); repeat split; cbn; (lia || discriminate || reflexivity).
  - rewrite (@fmt_number_canonical v NE). apply canonical_decimal_shape.
Qed.

Lemma str_int_no_dot (z : Z) : has_dot (str_int z) = false.
Proof.
  unfold has_dot. destruct z as [| p | p]; [reflexivity | |].
  - apply all_digits_mem; [apply (@str_int_digits (Z.pos p)); lia | reflexivity].
  - rewrite str_int_neg. cbn [string_mem]. 
    rewrite (@all_digits_mem (str_int (Z.pos p)) "."); [reflexivity | | reflexivity].
    apply (@str_int_digits (Z.pos p)); lia.
Qed.

Open Scope R_scope.

(** ** Tokens *)

(** C9 (as amended).  When the tokenizer extracts no token from the path
    data, [path_bbox] returns [None] and [transform_path_data] returns the
    empty string: neither raises. *)
Theorem no_tokens_no_error (path_data : string) (scale translate_x translate_y : R) :
  tokenize path_data = [] ->
  path_bbox path_data = Ok None
  /\ transform_path_data scale translate_x translate_y path_data = Ok EmptyString.
Proof.
  intros H. unfold path_bbox, transform_path_data. rewrite H. split; reflexivity.
Qed.

Lemma no_tokens_no_error_witness :
  path_bbox "x, y" = Ok None
  /\ transform_path_data 2 1 1 "x, y" = Ok EmptyString.
Proof.
  apply (@no_tokens_no_error "x, y" 2 1 1). reflexivity.
Defined.

(** C9, counterexample.  The path data ["x, y"] is not empty and has no
    token, and both interpreters return a result instead of an error. *)
Lemma no_tokens_counterexample :
  "x, y" <> EmptyString
  /\ tokenize "x, y" = []
  /\ path_bbox "x, y" = Ok None
  /\ transform_path_data 1 0 0 "x, y" = Ok EmptyString.
Proof. repeat split; discriminate. Qed.

(** ** Single steps of the interpreters *)

Lemma read_number_cons (tok : string) (rest : list string) (v : R) :
  float_of_string tok = Some v -> read_number (tok :: rest) = Ok (v, rest).
Proof. intros H. unfold read_number. rewrite H. reflexivity. Qed.

Lemma fetch_command_letter (cur : cursor) (tok : string) (rest : list string) :
  starts_with_letter tok = true -> fetch_command cur tok rest = Ok (tok, rest).
Proof. intros H. unfold fetch_command. rewrite H. reflexivity. Qed.

Lemma fetch_command_operand (cur : cursor) (c tok : string) (rest : list string) :
  starts_with_letter tok = false -> cmd cur = Some c ->
  fetch_command cur tok rest = Ok (c, tok :: rest).
Proof. intros H Hc. unfold fetch_command. rewrite H, Hc. reflexivity. Qed.

Ltac read_all :=
  repeat (erewrite read_number_cons by eassumption; cbn [bind]).

(** The control point [S]/[s] and [T]/[t] start from. *)
Lemma reflected_control_some (x y : R) (prev : R * R) :
  reflected_control x y (Some prev) = (2 * x - fst prev, 2 * y - snd prev).
Proof. reflexivity. Qed.

Lemma reflected_control_none (x y : R) : reflected_control x y None = (x, y).
Proof. reflexivity. Qed.

Section SmoothCubicStep.

Variables (cur : cursor) (tok : string) (toks : list string).
Variables (c t2 t3 t4 t5 : string) (rest : list string) (x2 y2 x3 y3 : R).

Hypothesis Hfetch : fetch_command cur tok toks = Ok (c, t2 :: t3 :: t4 :: t5 :: rest).
Hypothesis Hc : c = "S" \/ c = "s".
Hypothesis H2 : float_of_string t2 = Some x2.
Hypothesis H3 : float_of_string t3 = Some y2.
Hypothesis H4 : float_of_string t4 = Some x3.
Hypothesis H5 : float_of_string t5 = Some y3.

Let x := cur_x cur.
Let y := cur_y cur.
Let first := reflected_control x y (last_cubic cur).
Let cur' :=
  Cursor (Some c) (rel c "s" x3 x) (rel c "s" y3 y) (start_x cur) (start_y cur)
         (Some (rel c "s" x2 x, rel c "s" y2 y)) None.

Lemma bbox_step_smooth_cubic (bbox : option box) :
  bbox_step cur bbox (tok :: toks)
  = Ok (cur',
        cubic_bbox bbox x y (fst first) (snd first)
          (rel c "s" x2 x) (rel c "s" y2 y) (rel c "s" x3 x) (rel c "s" y3 y),
        rest).
Proof.
  unfold bbox_step. rewrite Hfetch. cbn [bind].
  destruct Hc; subst c; cbn -[read_number cubic_bbox rel reflected_control];
    read_all; subst first x y cur';
    destruct (reflected_control _ _ _); reflexivity.
Qed.

Lemma transform_step_smooth_cubic (k tx ty : R) (out : list string) :
  transform_step k tx ty cur out (tok :: toks)
  = Ok (cur',
        out_append out
          ("C" ++ fmt_point (transform_point k tx ty (fst first) (snd first))
               ++ " "
               ++ fmt_point (transform_point k tx ty (rel c "s" x2 x) (rel c "s" y2 y))
               ++ " "
               ++ fmt_point (transform_point k tx ty (rel c "s" x3 x) (rel c "s" y3 y))),
        rest).
Proof.
  unfold transform_step. rewrite Hfetch. cbn [bind].
  destruct Hc; subst c;
    cbn -[read_number rel reflected_control fmt_point transform_point out_append
          String.append];
    read_all; subst first x y cur';
    destruct (reflected_control _ _ _); reflexivity.
Qed.

End SmoothCubicStep.

(** ** The shorthand example *)

Lemma sqrt_400 : sqrt 400 = 20.
Proof. replace 400 with (20 * 20) by lra. apply sqrt_square. lra. Qed.

Lemma cubic_box_first : cubic_box 0 0 0 0 10 0 10 10 = Box 0 0 10 10.
Proof.
  unfold cubic_box, cubic_extrema, in_open_unit, eps.
  replace (- 0 + 3 * 0 - 3 * 10 + 10) with (-20) by lra.
  replace (2 * (0 - 2 * 0 + 10)) with 20 by lra.
  replace (0 - 0) with 0 by lra.
  replace (- 0 + 3 * 0 - 3 * 0 + 10) with 10 by lra.
  replace (2 * (0 - 2 * 0 + 0)) with 0 by lra.
  replace (20 * 20 - 4 * -20 * 0) with 400 by lra.
  replace (0 * 0 - 4 * 10 * 0) with 0 by lra.
  rewrite sqrt_400, sqrt_0.
  rewrite (@Rltb_false (Rabs (-20)) (1 / 100000000))
    by (rewrite Rabs_left; lra).
  rewrite (@Rltb_false (Rabs 10) (1 / 100000000))
    by (rewrite Rabs_right; lra).
  rewrite (@Rleb_true 0 400) by lra. rewrite (@Rleb_true 0 0) by lra.
  replace ((- (20) + 20) / (2 * -20)) with 0 by lra.
  replace ((- (20) - 20) / (2 * -20)) with 1 by lra.
  replace ((- 0 + 0) / (2 * 10)) with 0 by lra.
  replace ((- 0 - 0) / (2 * 10)) with 0 by lra.
  rewrite (@Rltb_false 0 0) by lra. rewrite (@Rltb_false 1 1) by lra.
  rewrite andb_false_r. cbn [andb app map min_list max_list fold_left].
  f_equal; minmax.
Qed.

Lemma cubic_box_second : cubic_box 10 10 10 20 10 20 0 20 = Box 0 10 10 20.
Proof.
  unfold cubic_box, cubic_extrema, in_open_unit, eps.
  replace (- (10) + 3 * 10 - 3 * 10 + 0) with (-10) by lra.
  replace (2 * (10 - 2 * 10 + 10)) with 0 by lra.
  replace (10 - 10) with 0 by lra.
  replace (- (10) + 3 * 20 - 3 * 20 + 20) with 10 by lra.
  replace (2 * (10 - 2 * 20 + 20)) with (-20) by lra.
  replace (20 - 10) with 10 by lra.
  replace (0 * 0 - 4 * -10 * 0) with 0 by lra.
  replace (-20 * -20 - 4 * 10 * 10) with 0 by lra.
  rewrite sqrt_0.
  rewrite (@Rltb_false (Rabs (-10)) (1 / 100000000))
    by (rewrite Rabs_left; lra).
  rewrite (@Rltb_false (Rabs 10) (1 / 100000000))
    by (rewrite Rabs_right; lra).
  rewrite (@Rleb_true 0 0) by lra.
  replace ((- 0 + 0) / (2 * -10)) with 0 by lra.
  replace ((- 0 - 0) / (2 * -10)) with 0 by lra.
  replace ((- -20 + 0) / (2 * 10)) with 1 by lra.
  replace ((- -20 - 0) / (2 * 10)) with 1 by lra.
  rewrite (@Rltb_false 0 0) by lra. rewrite (@Rltb_false 1 1) by lra.
  rewrite andb_false_r. cbn [andb app map min_list max_list fold_left].
  f_equal; minmax.
Qed.

Lemma shorthand_example_bbox :
  path_bbox "C 0,0 10,0 10,10 S 10,20 0,20" = Ok (Some (Box 0 0 10 20))
  /\ path_bbox "C 0,0 10,0 10,10 C 10,20 10,20 0,20" = Ok (Some (Box 0 0 10 20)).
Proof.
  split; run;
    replace (2 * 10 - 10) with 10 by lra; replace (2 * 10 - 0) with 20 by lra;
    rewrite cubic_box_first, cubic_box_second; do 2 f_equal; f_equal; minmax.
Qed.

Lemma shorthand_example_transform (k tx ty : R) :
  transform_path_data k tx ty "C 0,0 10,0 10,10 S 10,20 0,20"
  = transform_path_data k tx ty "C 0,0 10,0 10,10 C 10,20 10,20 0,20".
Proof.
  run. replace (2 * 10 - 10) with 10 by lra. replace (2 * 10 - 0) with 20 by lra.
  reflexivity.
Qed.

Lemma shorthand_example_output :
  transform_path_data 1 0 0 "C 0,0 10,0 10,10 S 10,20 0,20"
  = Ok "C0 0 10 0 10 10 C10 20 10 20 0 20".
Proof.
  run. replace (2 * 10 - 10) with 10 by lra. replace (2 * 10 - 0) with 20 by lra.
  replace (0 * 1 + 0) with 0 by lra. replace (10 * 1 + 0) with 10 by lra.
  replace (20 * 1 + 0) with 20 by lra.
  rewrite !fmt_number_IZR. reflexivity.
Qed.

(** ** Which steps record a cubic control point *)

Ltac step_cases H :=
  repeat match type of H with
         | context [read_number ?t] =>
             destruct (read_number t) as [[? ?] | ? |]; cbn [bind] in H;
             try discriminate H
         end.

Ltac finish_membership :=
  cbn [last_cubic last_quad In]; split; intros H; try congruence;
  try (repeat (destruct H as [H | H]; try discriminate H); contradiction);
  try (repeat ((left; reflexivity) || right)).

Lemma last_cubic_after_bbox_step
  (cur : cursor) (bbox : option box) (tok : string) (toks : list string)
  (c : string) (toks1 : list string) (cur' : cursor) (bbox' : option box)
  (rest : list string) :
  fetch_command cur tok toks = Ok (c, toks1) ->
  In c command_letters ->
  bbox_step cur bbox (tok :: toks) = Ok (cur', bbox', rest) ->
  (last_cubic cur' <> None <-> In c ["C"; "c"; "S"; "s"]).
Proof.
  intros Hf Hc Hs. unfold bbox_step in Hs. rewrite Hf in Hs. cbn [bind] in Hs.
  cbv [command_letters In] in Hc;
    repeat (destruct Hc as [Hc | Hc]; [subst c |]); try contradiction;
    cbn -[read_number cubic_bbox quadratic_bbox arc_bbox rel reflected_control
          add_point bbox_union] in Hs;
    step_cases Hs;
    try (destruct (reflected_control _ _ _));
    injection Hs as <- _ _; finish_membership.
Qed.

Lemma last_cubic_after_transform_step
  (k tx ty : R) (cur : cursor) (out : list string) (tok : string)
  (toks : list string) (c : string) (toks1 : list string) (cur' : cursor)
  (out' : list string) (rest : list string) :
  fetch_command cur tok toks = Ok (c, toks1) ->
  In c command_letters ->
  transform_step k tx ty cur out (tok :: toks) = Ok (cur', out', rest) ->
  (last_cubic cur' <> None <-> In c ["C"; "c"; "S"; "s"]).
Proof.
  intros Hf Hc Hs. unfold transform_step in Hs. rewrite Hf in Hs.
  cbn [bind] in Hs.
  cbv [command_letters In] in Hc;
    repeat (destruct Hc as [Hc | Hc]; [subst c |]); try contradiction;
    cbn -[read_number rel reflected_control fmt_point transform_point
          out_append String.append fmt_number str_int int_trunc] in Hs;
    step_cases Hs;
    try (destruct (reflected_control _ _ _));
    injection Hs as <- _ _; finish_membership.
Qed.

(** C6.  In both interpreters a step that runs [S] or [s] (given by its
    letter, or repeated on further operands) builds its cubic from the
    first control point [(2 * x - px, 2 * y - py)] when the cursor holds a
    recorded cubic control point [(px, py)], and from the cursor [(x, y)]
    otherwise; a control point is recorded after a step exactly when that
    step ran [C], [c], [S] or [s].  The two paths of the example have the
    same bounding box and the same transformed output. *)
Theorem smooth_cubic_reflection
  (cur : cursor) (tok : string) (toks : list string)
  (c t2 t3 t4 t5 : string) (rest : list string) (x2 y2 x3 y3 : R) :
  fetch_command cur tok toks = Ok (c, t2 :: t3 :: t4 :: t5 :: rest) ->
  c = "S" \/ c = "s" ->
  float_of_string t2 = Some x2 ->
  float_of_string t3 = Some y2 ->
  float_of_string t4 = Some x3 ->
  float_of_string t5 = Some y3 ->
  let x := cur_x cur in
  let y := cur_y cur in
  let first :=
    match last_cubic cur with
    | Some prev => (2 * x - fst prev, 2 * y - snd prev)
    | None => (x, y)
    end in
  let second := (rel c "s" x2 x, rel c "s" y2 y) in
  let final := (rel c "s" x3 x, rel c "s" y3 y) in
  let cur' :=
    Cursor (Some c) (fst final) (snd final) (start_x cur) (start_y cur)
           (Some second) None in
  (forall bbox,
      bbox_step cur bbox (tok :: toks)
      = Ok (cur',
            cubic_bbox bbox x y (fst first) (snd first)
              (fst second) (snd second) (fst final) (snd final),
            rest))
  /\ (forall k tx ty out,
         transform_step k tx ty cur out (tok :: toks)
         = Ok (cur',
               out_append out
                 ("C" ++ fmt_point (transform_point k tx ty (fst first) (snd first))
                      ++ " "
                      ++ fmt_point (transform_point k tx ty (fst second) (snd second))
                      ++ " "
                      ++ fmt_point (transform_point k tx ty (fst final) (snd final))),
               rest))
  /\ (forall cur0 bbox0 tok0 toks0 c0 toks1 bbox1,
         fetch_command cur0 tok0 toks0 = Ok (c0, toks1) ->
         In c0 command_letters ->
         bbox_step cur0 bbox0 (tok0 :: toks0) = Ok (cur, bbox1, tok :: toks) ->
         (last_cubic cur <> None <-> In c0 ["C"; "c"; "S"; "s"]))
  /\ (forall k tx ty cur0 out0 tok0 toks0 c0 toks1 out1,
         fetch_command cur0 tok0 toks0 = Ok (c0, toks1) ->
         In c0 command_letters ->
         transform_step k tx ty cur0 out0 (tok0 :: toks0)
         = Ok (cur, out1, tok :: toks) ->
         (last_cubic cur <> None <-> In c0 ["C"; "c"; "S"; "s"]))
  /\ path_bbox "C 0,0 10,0 10,10 S 10,20 0,20" = Ok (Some (Box 0 0 10 20))
  /\ path_bbox "C 0,0 10,0 10,10 C 10,20 10,20 0,20" = Ok (Some (Box 0 0 10 20))
  /\ (forall k tx ty,
         transform_path_data k tx ty "C 0,0 10,0 10,10 S 10,20 0,20"
         = transform_path_data k tx ty "C 0,0 10,0 10,10 C 10,20 10,20 0,20")
  /\ transform_path_data 1 0 0 "C 0,0 10,0 10,10 S 10,20 0,20"
     = Ok "C0 0 10 0 10 10 C10 20 10 20 0 20".
Proof.
  intros Hf Hc H2 H3 H4 H5 x y first second final cur'.
  assert (Hfirst : first = reflected_control x y (last_cubic cur)).
  { unfold first. destruct (last_cubic cur); reflexivity. }
  split; [| split; [| split; [| split; [| split; [| split; [| split]]]]]].
  - intros bbox. rewrite Hfirst.
    apply (bbox_step_smooth_cubic cur tok toks Hf Hc H2 H3 H4 H5).
  - intros k tx ty out. rewrite Hfirst.
    apply (transform_step_smooth_cubic cur tok toks Hf Hc H2 H3 H4 H5).
  - intros cur0 bbox0 tok0 toks0 c0 toks1 bbox1 Hf0 Hc0 Hs.
    exact (last_cubic_after_bbox_step _ _ _ _ Hf0 Hc0 Hs).
  - intros k tx ty cur0 out0 tok0 toks0 c0 toks1 out1 Hf0 Hc0 Hs.
    exact (last_cubic_after_transform_step _ _ _ _ _ _ _ Hf0 Hc0 Hs).
  - apply shorthand_example_bbox.
  - apply shorthand_example_bbox.
  - apply shorthand_example_transform.
  - apply shorthand_example_output.
Qed.

Lemma smooth_cubic_reflection_witness :
  bbox_step (Cursor (Some "C") 10 10 0 0 (Some (10, 0)) None) None
            ["S"; "10"; "20"; "0"; "20"]
  = Ok (Cursor (Some "S") 0 20 0 0 (Some (10, 20)) None,
        cubic_bbox None 10 10 (2 * 10 - 10) (2 * 10 - 0) 10 20 0 20,
        []).
Proof.
  exact (proj1
           (@smooth_cubic_reflection
              (Cursor (Some "C") 10 10 0 0 (Some (10, 0)) None)
              "S" ["10"; "20"; "0"; "20"] "S" "10" "20" "0" "20" []
              10 20 0 20 eq_refl (or_introl eq_refl)
              eq_refl eq_refl eq_refl eq_refl)
           None).
Defined.

(** ** The number formatter *)

(** C10 (as amended).  A value within [1e-6] of [round(v)] renders as that
    integer, with no decimal point; any other value renders as its
    [.4f] form with trailing zeros and a trailing point stripped.  Every
    rendering has at most four decimals, never ends in a point and, when
    it has a point, never ends in a zero.  Two values that agree after
    rounding to four decimals render identically, provided the rounded
    value is not zero or both values are above [-1e-6]. *)
Theorem fmt_number_canonical_form (v : R) :
  (Rabs (v - IZR (round_half_even v)) < 1 / 1000000 ->
   fmt_number v = str_int (round_half_even v)
   /\ has_dot (fmt_number v) = false)
  /\ (1 / 1000000 <= Rabs (v - IZR (round_half_even v)) ->
      fmt_number v = rstrip "." (rstrip "0" (format_4f v)))
  /\ canonical_shape (fmt_number v)
  /\ (round4 v <> 0%Z -> fmt_number v = canonical_decimal (round4 v))
  /\ (forall w : R,
         round4 v = round4 w ->
         round4 v <> 0%Z \/ (- (1 / 1000000) < v /\ - (1 / 1000000) < w) ->
         fmt_number v = fmt_number w)
  /\ fmt_number (9999995 / 10000000) = "1".
Proof.
  split; [| split; [| split; [| split; [| split]]]].
  - intros H. unfold fmt_number. rewrite (Rltb_true H).
    split; [reflexivity | apply str_int_no_dot].
  - intros H. unfold fmt_number. rewrite (Rltb_false H). reflexivity.
  - apply fmt_number_shape.
  - apply fmt_number_canonical.
  - intros w E [NE | [Hv Hw]].
    + rewrite (@fmt_number_canonical v NE).
      rewrite E in NE. rewrite (@fmt_number_canonical w NE), E. reflexivity.
    + destruct (Z.eq_dec (round4 v) 0) as [Z0 | NE].
      * rewrite (@fmt_number_round4_zero v Z0).
        rewrite E in Z0. rewrite (@fmt_number_round4_zero w Z0).
        rewrite !Rleb_false by lra. reflexivity.
      * rewrite (@fmt_number_canonical v NE).
        rewrite E in NE. rewrite (@fmt_number_canonical w NE), E. reflexivity.
  - rewrite (@fmt_number_near_integer (9999995 / 10000000) 1); [reflexivity |].
    rewrite Rabs_left; lra.
Qed.

(** C10, counterexample.  The values [-0.00001] and [0.00001] both round
    to zero at four decimals, and render differently. *)
Lemma fmt_number_counterexample :
  round4 (- (1 / 100000)) = round4 (1 / 100000)
  /\ fmt_number (- (1 / 100000)) = "-0"
  /\ fmt_number (1 / 100000) = "0".
Proof.
  assert (H1 : round4 (- (1 / 100000)) = 0%Z)
    by (apply round_half_even_near; lra).
  assert (H2 : round4 (1 / 100000) = 0%Z)
    by (apply round_half_even_near; lra).
  split; [congruence |]. split.
  - rewrite (@fmt_number_round4_zero _ H1). rewrite Rleb_true by lra. reflexivity.
  - rewrite (@fmt_number_round4_zero _ H2). rewrite Rleb_false by lra. reflexivity.
Qed.

(** ** Extrema on the unit interval *)

Lemma max_list_ge (xs : list R) (x : R) :
  x <= max_list x xs /\ forall y, In y xs -> y <= max_list x xs.
Proof.
  unfold max_list. revert x. induction xs as [| z xs IH]; intros x; cbn [fold_left].
  - split; [lra | intros y []].
  - destruct (IH (Rmax x z)) as [H1 H2]. split.
    + eapply Rle_trans; [apply Rmax_l | exact H1].
    + intros y [<- | Hy]; [| apply H2, Hy].
      eapply Rle_trans; [apply Rmax_r | exact H1].
Qed.

Lemma min_list_le (xs : list R) (x : R) :
  min_list x xs <= x /\ forall y, In y xs -> min_list x xs <= y.
Proof.
  unfold min_list. revert x. induction xs as [| z xs IH]; intros x; cbn [fold_left].
  - split; [lra | intros y []].
  - destruct (IH (Rmin x z)) as [H1 H2]. split.
    + eapply Rle_trans; [exact H1 | apply Rmin_l].
    + intros y [<- | Hy]; [| apply H2, Hy].
      eapply Rle_trans; [exact H1 | apply Rmin_r].
Qed.

Lemma max_list_least (xs : list R) (x u : R) :
  x <= u -> (forall y, In y xs -> y <= u) -> max_list x xs <= u.
Proof.
  unfold max_list. revert x. induction xs as [| z xs IH]; intros x Hx Hall; cbn [fold_left].
  - exact Hx.
  - apply IH.
    + apply Rmax_lub; [exact Hx | apply Hall; left; reflexivity].
    + intros y Hy. apply Hall. right. exact Hy.
Qed.

Lemma min_list_greatest (xs : list R) (x l : R) :
  l <= x -> (forall y, In y xs -> l <= y) -> l <= min_list x xs.
Proof.
  unfold min_list. revert x. induction xs as [| z xs IH]; intros x Hx Hall; cbn [fold_left].
  - exact Hx.
  - apply IH.
    + apply Rmin_glb; [exact Hx | apply Hall; left; reflexivity].
    + intros y Hy. apply Hall. right. exact Hy.
Qed.

Section UnitInterval.

Variables (f f' : R -> R).
Hypothesis Hderiv : forall t, derivable_pt_lim f t (f' t).

Lemma unit_derivable (t : R) : derivable_pt f t.
Proof. exists (f' t). apply Hderiv. Qed.

Lemma unit_continuous (t : R) : continuity_pt f t.
Proof. apply derivable_continuous_pt, unit_derivable. Qed.

Lemma maximum_on_unit (t : R) :
  0 <= t <= 1 ->
  exists m, f t <= f m /\ (m = 0 \/ m = 1 \/ (0 < m < 1 /\ f' m = 0)).
Proof.
  intros Ht.
  destruct (continuity_ab_maj f 0 1 ltac:(lra) (fun c _ => unit_continuous c))
    as (m & Hmax & Hm).
  exists m. split; [apply Hmax, Ht |].
  destruct (Req_dec m 0) as [-> | N0]; [left; reflexivity |].
  destruct (Req_dec m 1) as [-> | N1]; [right; left; reflexivity |].
  right. right. split; [lra |].
  rewrite <- (derive_pt_eq_0 f m (f' m) (unit_derivable m) (Hderiv m)).
  apply (deriv_maximum f 0 1 m); try lra.
  intros x H0 H1. apply Hmax. lra.
Qed.

Lemma minimum_on_unit (t : R) :
  0 <= t <= 1 ->
  exists m, f m <= f t /\ (m = 0 \/ m = 1 \/ (0 < m < 1 /\ f' m = 0)).
Proof.
  intros Ht.
  destruct (continuity_ab_min f 0 1 ltac:(lra) (fun c _ => unit_continuous c))
    as (m & Hmin & Hm).
  exists m. split; [apply Hmin, Ht |].
  destruct (Req_dec m 0) as [-> | N0]; [left; reflexivity |].
  destruct (Req_dec m 1) as [-> | N1]; [right; left; reflexivity |].
  right. right. split; [lra |].
  rewrite <- (derive_pt_eq_0 f m (f' m) (unit_derivable m) (Hderiv m)).
  apply (deriv_minimum f 0 1 m); try lra.
  intros x H0 H1. apply Hmin. lra.
Qed.

End UnitInterval.

(** ** The cubic segment on one axis *)

Section CubicAxis.

Variables p0 p1 p2 p3 : R.

Let a := - p0 + 3 * p1 - 3 * p2 + p3.
Let b := 2 * (p0 - 2 * p1 + p2).
Let c := p1 - p0.

Lemma cubic_point_deriv (t : R) :
  derivable_pt_lim (cubic_point p0 p1 p2 p3) t (3 * (a * (t * t) + b * t + c)).
Proof.
  assert (pr : derivable_pt (cubic_point p0 p1 p2 p3) t)
    by (unfold cubic_point; reg).
  assert (E : derive_pt (cubic_point p0 p1 p2 p3) t pr = 3 * (a * (t * t) + b * t + c)).
  { unfold cubic_point in *. unfold a, b, c. reg; try field. }
  rewrite <- E. destruct pr as [l Hl]. exact Hl.
Qed.

Lemma cubic_point_ends :
  cubic_point p0 p1 p2 p3 0 = p0 /\ cubic_point p0 p1 p2 p3 1 = p3.
Proof. unfold cubic_point. split; ring. Qed.

Lemma eps_pos : 0 < eps.
Proof. unfold eps. lra. Qed.

Lemma critical_in_cubic_extrema (m : R) :
  cubic_guards_exact p0 p1 p2 p3 ->
  0 < m < 1 ->
  a * (m * m) + b * m + c = 0 ->
  In m (cubic_extrema p0 p1 p2 p3) \/ (a = 0 /\ b = 0 /\ c = 0).
Proof.
  intros G Hm Hroot. unfold cubic_guards_exact in G. cbv zeta in G.
  fold a b in G. unfold cubic_extrema. fold a b c. cbv zeta.
  assert (Hunit : in_open_unit m = true).
  { unfold in_open_unit. rewrite !Rltb_true by lra. reflexivity. }
  pose proof eps_pos as He.
  destruct G as [Ga | [Ga [Gb | Gb]]].
  - left. rewrite (Rltb_false Ga).
    assert (Ha : a <> 0).
    { intros E. rewrite E, Rabs_R0 in Ga. lra. }
    assert (Hd : b * b - 4 * a * c = (2 * a * m + b) * (2 * a * m + b)).
    { replace c with (- (a * (m * m) + b * m)) by lra. ring. }
    rewrite Hd. rewrite Rleb_true by (apply Rle_0_sqr).
    destruct (Rle_lt_dec 0 (2 * a * m + b)) as [Hs | Hs].
    + rewrite sqrt_square by exact Hs.
      replace ((- b + (2 * a * m + b)) / (2 * a)) with m by (field; exact Ha).
      rewrite Hunit. left. reflexivity.
    + replace ((2 * a * m + b) * (2 * a * m + b))
        with ((- (2 * a * m + b)) * (- (2 * a * m + b))) by ring.
      rewrite sqrt_square by lra.
      replace ((- b - - (2 * a * m + b)) / (2 * a)) with m by (field; exact Ha).
      rewrite Hunit. apply in_or_app. right. left. reflexivity.
  - left. rewrite Ga, Rabs_R0. rewrite (Rltb_true He). rewrite (Rltb_true Gb).
    assert (Hb : b <> 0).
    { intros E. rewrite E, Rabs_R0 in Gb. lra. }
    replace (- c / b) with m.
    + rewrite Hunit. left. reflexivity.
    + rewrite Ga in Hroot. field_simplify_eq; [lra | exact Hb].
  - right. rewrite Ga, Gb in Hroot. repeat split; [exact Ga | exact Gb | lra].
Qed.

Lemma cubic_constant (t : R) :
  a = 0 -> b = 0 -> c = 0 -> cubic_point p0 p1 p2 p3 t = p0.
Proof.
  unfold a, b, c. intros Ha Hb Hc. unfold cubic_point. cbv zeta.
  assert (E1 : p1 = p0) by lra. assert (E2 : p2 = p0) by lra.
  assert (E3 : p3 = p0) by lra. subst p1 p2 p3. ring.
Qed.

Lemma cubic_axis_enclosed (t : R) :
  cubic_guards_exact p0 p1 p2 p3 ->
  0 <= t <= 1 ->
  let pts := p3 :: map (cubic_point p0 p1 p2 p3) (cubic_extrema p0 p1 p2 p3) in
  min_list p0 pts <= cubic_point p0 p1 p2 p3 t <= max_list p0 pts.
Proof.
  intros G Ht pts.
  destruct cubic_point_ends as [E0 E1].
  destruct (max_list_ge pts p0) as [Mh Min].
  destruct (min_list_le pts p0) as [mh mIn].
  assert (Hcrit : forall m, 0 < m < 1 -> 3 * (a * (m * m) + b * m + c) = 0 ->
                            min_list p0 pts <= cubic_point p0 p1 p2 p3 m <= max_list p0 pts).
  { intros m Hm Hz.
    destruct (@critical_in_cubic_extrema m G Hm ltac:(lra)) as [Hin | (Ha & Hb & Hc)].
    - assert (Hp : In (cubic_point p0 p1 p2 p3 m) pts)
        by (right; apply in_map; exact Hin).
      split; [apply mIn, Hp | apply Min, Hp].
    - rewrite (cubic_constant m Ha Hb Hc). split; assumption. }
  split.
  - destruct (@minimum_on_unit _ (fun x => 3 * (a * (x * x) + b * x + c)) cubic_point_deriv t Ht) as (m & Hle & [-> | [-> | [Hm Hz]]]).
    + rewrite E0 in Hle. lra.
    + rewrite E1 in Hle. assert (H3 : min_list p0 pts <= p3) by (apply mIn; left; reflexivity). lra.
    + destruct (Hcrit m Hm Hz). lra.
  - destruct (@maximum_on_unit _ (fun x => 3 * (a * (x * x) + b * x + c)) cubic_point_deriv t Ht) as (m & Hle & [-> | [-> | [Hm Hz]]]).
    + rewrite E0 in Hle. lra.
    + rewrite E1 in Hle. assert (H3 : p3 <= max_list p0 pts) by (apply Min; left; reflexivity). lra.
    + destruct (Hcrit m Hm Hz). lra.
Qed.

End CubicAxis.

(** ** The quadratic segment on one axis *)

Section QuadraticAxis.

Variables p0 p1 p2 : R.

Let d := p0 - 2 * p1 + p2.

Lemma quadratic_point_deriv (t : R) :
  derivable_pt_lim (quadratic_point p0 p1 p2) t (2 * (d * t - (p0 - p1))).
Proof.
  assert (pr : derivable_pt (quadratic_point p0 p1 p2) t)
    by (unfold quadratic_point; reg).
  assert (E : derive_pt (quadratic_point p0 p1 p2) t pr = 2 * (d * t - (p0 - p1))).
  { unfold quadratic_point in *. unfold d. reg; try field. }
  rewrite <- E. destruct pr as [l Hl]. exact Hl.
Qed.

Lemma quadratic_point_ends :
  quadratic_point p0 p1 p2 0 = p0 /\ quadratic_point p0 p1 p2 1 = p2.
Proof. unfold quadratic_point. split; ring. Qed.

Lemma critical_in_quadratic_extrema (m : R) :
  quadratic_guard_exact p0 p1 p2 ->
  0 < m < 1 ->
  d * m - (p0 - p1) = 0 ->
  In m (quadratic_extrema p0 p1 p2) \/ (d = 0 /\ p1 = p0).
Proof.
  intros G Hm Hroot. unfold quadratic_guard_exact in G. cbv zeta in G.
  fold d in G. unfold quadratic_extrema. fold d. cbv zeta.
  pose proof eps_pos as He.
  destruct G as [G | G].
  - left. rewrite (Rltb_false G).
    assert (Hd : d <> 0).
    { intros E. rewrite E, Rabs_R0 in G. lra. }
    replace ((p0 - p1) / d) with m.
    + unfold in_open_unit. rewrite !Rltb_true by lra. left. reflexivity.
    + field_simplify_eq; [lra | exact Hd].
  - right. rewrite G in Hroot. split; [exact G | lra].
Qed.

Lemma quadratic_axis_enclosed (t : R) :
  quadratic_guard_exact p0 p1 p2 ->
  0 <= t <= 1 ->
  let pts := p2 :: map (quadratic_point p0 p1 p2) (quadratic_extrema p0 p1 p2) in
  min_list p0 pts <= quadratic_point p0 p1 p2 t <= max_list p0 pts.
Proof.
  intros G Ht pts.
  destruct quadratic_point_ends as [E0 E1].
  destruct (max_list_ge pts p0) as [Mh Min].
  destruct (min_list_le pts p0) as [mh mIn].
  assert (Hcrit : forall m, 0 < m < 1 -> 2 * (d * m - (p0 - p1)) = 0 ->
                            min_list p0 pts <= quadratic_point p0 p1 p2 m <= max_list p0 pts).
  { intros m Hm Hz.
    destruct (@critical_in_quadratic_extrema m G Hm ltac:(lra)) as [Hin | (Hd & Hp)].
    - assert (Hp : In (quadratic_point p0 p1 p2 m) pts)
        by (right; apply in_map; exact Hin).
      split; [apply mIn, Hp | apply Min, Hp].
    - assert (Ec : quadratic_point p0 p1 p2 m = p0).
      { unfold quadratic_point. cbv zeta. unfold d in Hd.
        assert (E2 : p2 = p0) by lra. subst p1 p2. ring. }
      rewrite Ec. split; assumption. }
  split.
  - destruct (@minimum_on_unit _ (fun x => 2 * (d * x - (p0 - p1))) quadratic_point_deriv t Ht) as (m & Hle & [-> | [-> | [Hm Hz]]]).
    + rewrite E0 in Hle. lra.
    + rewrite E1 in Hle. assert (H3 : min_list p0 pts <= p2) by (apply mIn; left; reflexivity). lra.
    + destruct (Hcrit m Hm Hz). lra.
  - destruct (@maximum_on_unit _ (fun x => 2 * (d * x - (p0 - p1))) quadratic_point_deriv t Ht) as (m & Hle & [-> | [-> | [Hm Hz]]]).
    + rewrite E0 in Hle. lra.
    + rewrite E1 in Hle. assert (H3 : p2 <= max_list p0 pts) by (apply Min; left; reflexivity). lra.
    + destruct (Hcrit m Hm Hz). lra.
Qed.

End QuadraticAxis.

(** ** Boxes of curve segments *)

Lemma inside_union (acc : option box) (b : box) (px py : R) :
  inside b px py ->
  exists u, bbox_union acc (Some b) = Some u /\ inside u px py.
Proof.
  intros [[Hx1 Hx2] [Hy1 Hy2]]. destruct acc as [a |]; cbn [bbox_union].
  - eexists. split; [reflexivity |]. unfold inside. cbn [x_min x_max y_min y_max].
    pose proof (Rmin_r (x_min a) (x_min b)). pose proof (Rmin_r (y_min a) (y_min b)).
    pose proof (Rmax_r (x_max a) (x_max b)). pose proof (Rmax_r (y_max a) (y_max b)).
    lra.
  - exists b. split; [reflexivity |]. unfold inside. lra.
Qed.

Lemma sampled_within (fx fy : R -> R) (b : box) (t : R) (ts : list R) :
  (forall s, 0 <= s <= 1 -> inside b (fx s) (fy s)) ->
  0 <= t <= 1 -> Forall (fun s => 0 <= s <= 1) ts ->
  box_within (sampled_box fx fy t ts) b.
Proof.
  intros Hin Ht Hts. unfold box_within, sampled_box. cbn [x_min y_min x_max y_max].
  rewrite Forall_forall in Hts.
  assert (Hall : forall (g : R -> R) y, In y (map g ts) -> exists s, y = g s /\ 0 <= s <= 1).
  { intros g y Hy. apply in_map_iff in Hy as (s & <- & Hs). exists s. split; [reflexivity | apply Hts, Hs]. }
  destruct (Hin t Ht) as [[Hx1 Hx2] [Hy1 Hy2]].
  repeat split.
  - apply min_list_greatest; [exact Hx1 |].
    intros y Hy. destruct (Hall fx y Hy) as (s & -> & Hs). apply (Hin s Hs).
  - apply min_list_greatest; [exact Hy1 |].
    intros y Hy. destruct (Hall fy y Hy) as (s & -> & Hs). apply (Hin s Hs).
  - apply max_list_least; [exact Hx2 |].
    intros y Hy. destruct (Hall fx y Hy) as (s & -> & Hs). apply (Hin s Hs).
  - apply max_list_least; [exact Hy2 |].
    intros y Hy. destruct (Hall fy y Hy) as (s & -> & Hs). apply (Hin s Hs).
Qed.

Lemma cubic_box_encloses (x0 y0 x1 y1 x2 y2 x3 y3 t : R) :
  cubic_guards_exact x0 x1 x2 x3 ->
  cubic_guards_exact y0 y1 y2 y3 ->
  0 <= t <= 1 ->
  inside (cubic_box x0 y0 x1 y1 x2 y2 x3 y3)
         (cubic_point x0 x1 x2 x3 t) (cubic_point y0 y1 y2 y3 t).
Proof.
  intros Gx Gy Ht. unfold inside, cubic_box. cbn [x_min x_max y_min y_max].
  split.
  - apply (cubic_axis_enclosed Gx Ht).
  - apply (cubic_axis_enclosed Gy Ht).
Qed.

Lemma quadratic_box_encloses (x0 y0 x1 y1 x2 y2 t : R) :
  quadratic_guard_exact x0 x1 x2 ->
  quadratic_guard_exact y0 y1 y2 ->
  0 <= t <= 1 ->
  inside (quadratic_box x0 y0 x1 y1 x2 y2)
         (quadratic_point x0 x1 x2 t) (quadratic_point y0 y1 y2 t).
Proof.
  intros Gx Gy Ht. unfold inside, quadratic_box. cbn [x_min x_max y_min y_max].
  split.
  - apply (quadratic_axis_enclosed Gx Ht).
  - apply (quadratic_axis_enclosed Gy Ht).
Qed.

(** C2 (as amended).  When the epsilon guards of the extrema solvers leave
    the derivative as it is on both axes, every point of a cubic segment,
    and of a quadratic segment, at a parameter in [[0, 1]] lies inside the
    box computed for the segment (alone, or unioned into an accumulated
    box), and the box of the points at any finite set of such parameters
    lies within the computed box. *)
Theorem curve_inside_bbox
  (x0 y0 x1 y1 x2 y2 x3 y3 : R) (u0 v0 u1 v1 u2 v2 : R)
  (t : R) (ts : list R) (acc : option box) :
  cubic_guards_exact x0 x1 x2 x3 ->
  cubic_guards_exact y0 y1 y2 y3 ->
  quadratic_guard_exact u0 u1 u2 ->
  quadratic_guard_exact v0 v1 v2 ->
  0 <= t <= 1 ->
  Forall (fun s => 0 <= s <= 1) ts ->
  inside (cubic_box x0 y0 x1 y1 x2 y2 x3 y3)
         (cubic_point x0 x1 x2 x3 t) (cubic_point y0 y1 y2 y3 t)
  /\ inside (quadratic_box u0 v0 u1 v1 u2 v2)
            (quadratic_point u0 u1 u2 t) (quadratic_point v0 v1 v2 t)
  /\ (exists b,
         cubic_bbox acc x0 y0 x1 y1 x2 y2 x3 y3 = Some b
         /\ inside b (cubic_point x0 x1 x2 x3 t) (cubic_point y0 y1 y2 y3 t))
  /\ (exists b,
         quadratic_bbox acc u0 v0 u1 v1 u2 v2 = Some b
         /\ inside b (quadratic_point u0 u1 u2 t) (quadratic_point v0 v1 v2 t))
  /\ box_within
       (sampled_box (cubic_point x0 x1 x2 x3) (cubic_point y0 y1 y2 y3) t ts)
       (cubic_box x0 y0 x1 y1 x2 y2 x3 y3)
  /\ box_within
       (sampled_box (quadratic_point u0 u1 u2) (quadratic_point v0 v1 v2) t ts)
       (quadratic_box u0 v0 u1 v1 u2 v2).
Proof.
  intros Gx Gy Hu Hv Ht Hts.
  assert (Hc : forall s, 0 <= s <= 1 ->
                 inside (cubic_box x0 y0 x1 y1 x2 y2 x3 y3)
                        (cubic_point x0 x1 x2 x3 s) (cubic_point y0 y1 y2 y3 s))
    by (intros s Hs; apply cubic_box_encloses; assumption).
  assert (Hq : forall s, 0 <= s <= 1 ->
                 inside (quadratic_box u0 v0 u1 v1 u2 v2)
                        (quadratic_point u0 u1 u2 s) (quadratic_point v0 v1 v2 s))
    by (intros s Hs; apply quadratic_box_encloses; assumption).
  split; [apply Hc, Ht |]. split; [apply Hq, Ht |].
  split; [apply inside_union, Hc, Ht |]. split; [apply inside_union, Hq, Ht |].
  split; apply sampled_within; assumption.
Qed.

Lemma curve_inside_bbox_witness :
  inside (cubic_box 0 0 0 0 10 0 10 10)
         (cubic_point 0 0 10 10 (1 / 2)) (cubic_point 0 0 0 10 (1 / 2))
  /\ inside (quadratic_box 0 0 5 0 0 0)
            (quadratic_point 0 5 0 (1 / 2)) (quadratic_point 0 0 0 (1 / 2))
  /\ (exists b,
         cubic_bbox None 0 0 0 0 10 0 10 10 = Some b
         /\ inside b (cubic_point 0 0 10 10 (1 / 2)) (cubic_point 0 0 0 10 (1 / 2)))
  /\ (exists b,
         quadratic_bbox None 0 0 5 0 0 0 = Some b
         /\ inside b (quadratic_point 0 5 0 (1 / 2)) (quadratic_point 0 0 0 (1 / 2)))
  /\ box_within
       (sampled_box (cubic_point 0 0 10 10) (cubic_point 0 0 0 10) (1 / 2) [0; 1])
       (cubic_box 0 0 0 0 10 0 10 10)
  /\ box_within
       (sampled_box (quadratic_point 0 5 0) (quadratic_point 0 0 0) (1 / 2) [0; 1])
       (quadratic_box 0 0 5 0 0 0).
Proof.
  apply (@curve_inside_bbox 0 0 0 0 10 0 10 10 0 0 5 0 0 0 (1 / 2) [0; 1] None).
  - left. unfold eps. rewrite Rabs_left; lra.
  - left. unfold eps. rewrite Rabs_right; lra.
  - left. unfold eps. rewrite Rabs_left; lra.
  - right. lra.
  - lra.
  - repeat constructor; lra.
Defined.

(** C2, counterexample.  The quadratic with x-coordinates [0, 1e-9, 0]
    has the denominator [-2e-9], below the guard: no extremum is kept, the
    box is the single point [(0, 0)], and the curve point at [t = 1/2] has
    the abscissa [5e-10], to the right of the box. *)
Lemma curve_outside_bbox_counterexample :
  quadratic_bbox None 0 0 (1 / 1000000000) 0 0 0 = Some (Box 0 0 0 0)
  /\ quadratic_point 0 (1 / 1000000000) 0 (1 / 2) = 1 / 2000000000
  /\ x_max (Box 0 0 0 0) < quadratic_point 0 (1 / 1000000000) 0 (1 / 2).
Proof.
  assert (Hp : quadratic_point 0 (1 / 1000000000) 0 (1 / 2) = 1 / 2000000000)
    by (unfold quadratic_point; lra).
  split; [| split; [exact Hp | rewrite Hp; cbn; lra]].
  unfold quadratic_bbox, quadratic_box, quadratic_extrema, eps.
  rewrite (@Rltb_true (Rabs (0 - 2 * (1 / 1000000000) + 0))) by (rewrite Rabs_left; lra).
  rewrite (@Rltb_true (Rabs (0 - 2 * 0 + 0))) by (rewrite Rabs_right; lra).
  cbn [map min_list max_list fold_left bbox_union].
  do 2 f_equal; minmax.
Qed.

(** ** The two interpreters share their decoding *)

Open Scope string_scope.

Lemma Rmin_same (a : R) : Rmin a a = a.
Proof. unfold Rmin. destruct (Rle_dec a a); reflexivity. Qed.
Lemma Rmax_same (a : R) : Rmax a a = a.
Proof. unfold Rmax. destruct (Rle_dec a a); reflexivity. Qed.

Ltac step_goal :=
  repeat match goal with
         | |- context [read_number ?t] =>
             destruct (read_number t) as [[? ?] | ? |]; cbn [bind];
             try reflexivity
         end.

Lemma bbox_step_decode (cur : cursor) (bbox : option box) (tok : string) (toks : list string) :
  bbox_step cur bbox (tok :: toks)
  = (let* (sc, rest) := decode cur (tok :: toks) in
     Ok (snd sc, segment_extend bbox cur (fst sc), rest))%result.
Proof.
  unfold bbox_step, decode.
  destruct (fetch_command cur tok toks) as [[c toks1] | e |]; cbn [bind];
    try reflexivity.
  repeat match goal with
         | |- context [if substr_in c ?s then _ else _] =>
             destruct (substr_in c s);
             [ step_goal; try (destruct (reflected_control _ _ _));
               cbn [fst snd segment_extend cur_x cur_y];
               rewrite ?Rmin_same, ?Rmax_same; reflexivity | ]
         end.
  reflexivity.
Qed.

Lemma transform_step_decode (k tx ty : R) (cur : cursor) (out : list string) (tok : string) (toks : list string) :
  transform_step k tx ty cur out (tok :: toks)
  = (let* (sc, rest) := decode cur (tok :: toks) in
     Ok (snd sc, out_append out (render_segment k tx ty (fst sc)), rest))%result.
Proof.
  unfold transform_step, decode.
  destruct (fetch_command cur tok toks) as [[c toks1] | e |]; cbn [bind];
    try reflexivity.
  repeat match goal with
         | |- context [if substr_in c ?s then _ else _] =>
             destruct (substr_in c s);
             [ step_goal; try (destruct (reflected_control _ _ _));
               reflexivity | ]
         end.
  reflexivity.
Qed.

(** ** Round trip of explicit absolute path data *)

Lemma transform_point_identity (x y : R) : transform_point 1 0 0 x y = (x, y).
Proof. unfold transform_point. f_equal; ring. Qed.

Lemma int_trunc_IZR (z : Z) : int_trunc (IZR z) = z.
Proof.
  unfold int_trunc. destruct (Rleb 0 (IZR z)); [apply ZfloorZ |].
  unfold Zceil. replace (- IZR z)%R with (IZR (- z)) by (rewrite opp_IZR; reflexivity).
  rewrite ZfloorZ. lia.
Qed.

Lemma integral_flag (v : R) :
  integral v = true -> str_int (int_trunc v) = fmt_number v.
Proof.
  unfold integral. destruct (Reqb_spec v (IZR (Zfloor v))) as [E | NE]; [| discriminate].
  intros _. rewrite E. rewrite int_trunc_IZR, fmt_number_IZR. reflexivity.
Qed.

Lemma read_operands_length (n : nat) (toks rest : list string) (vs : list R) :
  read_operands n toks = Some (vs, rest) ->
  (List.length rest <= List.length toks)%nat.
Proof.
  revert toks vs. induction n as [| n IH]; intros toks vs H; cbn [read_operands] in H.
  - injection H as _ <-. apply Nat.le_refl.
  - destruct toks as [| t r]; [discriminate |].
    destruct (float_of_string t); [| discriminate].
    destruct (read_operands n r) as [[vs' rest'] |] eqn:E; [| discriminate].
    injection H as _ <-. specialize (IH _ _ E). cbn [List.length]. lia.
Qed.

Ltac invert_operands H :=
  cbn [read_operands] in H;
  repeat match type of H with
         | context [match ?l with [] => _ | _ :: _ => _ end] =>
             destruct l as [| ? ?]; [discriminate H |]; cbn [read_operands] in H
         | context [float_of_string ?t] =>
             let E := fresh "E" in
             destruct (float_of_string t) eqn:E; [| discriminate H];
             cbn [read_operands] in H
         end;
  injection H as <- <-.

Lemma transform_step_absolute
  (cur : cursor) (out : list string) (c : string) (rest rest' : list string)
  (n : nat) (vs : list R) :
  absolute_arity c = Some n ->
  read_operands n rest = Some (vs, rest') ->
  arc_flags_integral c vs = true ->
  exists cur',
    transform_step 1 0 0 cur out (c :: rest)
    = Ok (cur', out_append out (render_canonical (c, vs)), rest').
Proof.
  unfold absolute_arity, arc_flags_integral. intros Ha Hr Hf.
  repeat match type of Ha with
         | context [String.eqb c ?s] =>
             destruct (String.eqb_spec c s) as [-> | _];
             [ injection Ha as <-; invert_operands Hr | ]
         end; try discriminate Ha.
  all: unfold transform_step; rewrite fetch_command_letter by reflexivity;
    cbn -[read_number rel fmt_point transform_point out_append String.append
          fmt_number str_int int_trunc render_canonical];
    read_all; eexists; rewrite ?transform_point_identity, ?Rmult_1_r;
    unfold render_canonical, fmt_point, rel;
    cbn [fst snd map join String.eqb Ascii.eqb Bool.eqb];
    rewrite ?append_assoc.
  all: try reflexivity.
  cbn [String.eqb Ascii.eqb Bool.eqb] in Hf.
  apply andb_prop in Hf as [Hfa Hfs].
  rewrite (integral_flag _ Hfa), (integral_flag _ Hfs). reflexivity.
Qed.

Lemma transform_loop_absolute (fuel : nat) :
  forall (toks : list string) (segs : list (string * list R)),
    explicit_absolute fuel toks = Some segs ->
    forall (fuel' : nat) (cur : cursor) (out : list string),
      (List.length toks <= fuel')%nat ->
      transform_loop 1 0 0 fuel' cur out toks
      = Ok (out ++ map render_canonical segs)%list.
Proof.
  induction fuel as [| f IH]; intros toks segs H fuel' cur out Hlen.
  - destruct toks; [| discriminate]. injection H as <-.
    destruct fuel'; cbn; now rewrite app_nil_r.
  - destruct toks as [| c rest].
    + injection H as <-. destruct fuel'; cbn; now rewrite app_nil_r.
    + cbn [explicit_absolute] in H.
      destruct (absolute_arity c) as [n |] eqn:Ha; [| discriminate].
      destruct (read_operands n rest) as [[vs rest'] |] eqn:Hr; [| discriminate].
      destruct (arc_flags_integral c vs) eqn:Hf; [| discriminate].
      destruct (explicit_absolute f rest') as [segs' |] eqn:He; [| discriminate].
      injection H as <-.
      destruct fuel' as [| f']; [cbn in Hlen; lia |].
      destruct (@transform_step_absolute cur out c rest rest' n vs Ha Hr Hf)
        as [cur' Hstep].
      cbn [transform_loop]. rewrite Hstep. cbn [bind fst snd].
      rewrite (IH rest' segs' He f' cur' (out_append out (render_canonical (c, vs)))).
      * unfold out_append. rewrite <- app_assoc. reflexivity.
      * pose proof (read_operands_length _ _ Hr). cbn [List.length] in Hlen. lia.
Qed.

(** C7 (as amended).  On path data in explicit absolute form (every
    segment with its own letter among [M L C Q A Z] and exactly its
    operands, the two flags of an arc being integers), the transform with
    scale [1] and translation [(0, 0)] returns the same segments, each
    number rendered by [fmt_number] and the separators being single
    spaces. *)
Theorem transform_identity_explicit_absolute
  (path_data : string) (segs : list (string * list R)) :
  explicit_absolute (List.length (tokenize path_data)) (tokenize path_data)
  = Some segs ->
  transform_path_data 1 0 0 path_data
  = Ok (join " " (map render_canonical segs)).
Proof.
  intros H. unfold transform_path_data.
  destruct (tokenize path_data) as [| t ts] eqn:E.
  - cbn in H. injection H as <-. reflexivity.
  - rewrite (@transform_loop_absolute _ _ _ H (List.length (t :: ts))
               initial_cursor [] (Nat.le_refl _)).
    reflexivity.
Qed.

Lemma fmt_number_decimal (n : Z) :
  n <> 0%Z -> fmt_number (IZR n / 10000) = canonical_decimal n.
Proof.
  intros Hn.
  assert (E : round4 (IZR n / 10000) = n).
  { unfold round4. replace (IZR n / 10000 * 10000) with (IZR n) by field.
    apply round_half_even_IZR. }
  rewrite fmt_number_canonical; rewrite E; [reflexivity | exact Hn].
Qed.

Lemma transform_identity_explicit_absolute_witness :
  transform_path_data 1 0 0 "M 0,0 C 1.50 2 3 4 5 6 L7,8 Z"
  = Ok "M0 0 C1.5 2 3 4 5 6 L7 8 Z".
Proof.
  rewrite (@transform_identity_explicit_absolute
             "M 0,0 C 1.50 2 3 4 5 6 L7,8 Z"
             [("M", [0; 0]); ("C", [15000 / 10000; 2; 3; 4; 5; 6]);
              ("L", [7; 8]); ("Z", [])]).
  - unfold render_canonical. cbn [map fst snd].
    rewrite (@fmt_number_decimal 15000) by discriminate.
    rewrite !fmt_number_IZR. reflexivity.
  - run. replace (150 / 100) with (15000 / 10000) by lra. reflexivity.
Defined.

(** C7, counterexample.  A relative line is written as an absolute one:
    the output has another letter and other numbers than the input. *)
Lemma transform_identity_counterexample :
  transform_path_data 1 0 0 "M1 1 l1 1" = Ok "M1 1 L2 2"
  /\ tokenize "M1 1 l1 1" = ["M"; "1"; "1"; "l"; "1"; "1"]
  /\ tokenize "M1 1 L2 2" = ["M"; "1"; "1"; "L"; "2"; "2"]
  /\ float_of_string "1" = Some 1
  /\ float_of_string "2" = Some 2.
Proof.
  split; [| repeat split].
  run. replace (1 * 1 + 0) with 1 by lra. replace ((1 + 1) * 1 + 0) with 2 by lra.
  rewrite !fmt_number_IZR. reflexivity.
Qed.

(** ** The tokenizer on emitted path data *)

Lemma span_digits_spec (s ds r : string) :
  span_digits s = (ds, r) ->
  s = ds ++ r /\ all_digits ds = true
  /\ match r with String c _ => is_digit c = false | EmptyString => True end.
Proof.
  revert ds r. induction s as [| c s IH]; intros ds r H; cbn [span_digits] in H.
  - injection H as <- <-. repeat split.
  - destruct (is_digit c) eqn:Ec.
    + destruct (span_digits s) as [ds' r'] eqn:E. injection H as <- <-.
      destruct (IH _ _ eq_refl) as (-> & Hd & Hr).
      cbn [all_digits String.append]. rewrite Ec, Hd. repeat split. exact Hr.
    + injection H as <- <-. repeat split. exact Ec.
Qed.

Lemma span_digits_app (ds r : string) :
  all_digits ds = true ->
  match r with String c _ => is_digit c = false | EmptyString => True end ->
  span_digits (ds ++ r) = (ds, r).
Proof.
  intros Hd Hr. induction ds as [| c ds IH]; cbn [String.append].
  - destruct r as [| c r]; [reflexivity |]. cbn [span_digits]. now rewrite Hr.
  - cbn [all_digits] in Hd. apply andb_prop in Hd as [Hc Hd].
    cbn [span_digits]. rewrite Hc, (IH Hd). reflexivity.
Qed.

Lemma length_append (s t : string) :
  String.length (s ++ t) = (String.length s + String.length t)%nat.
Proof. induction s as [| c s IH]; cbn; [reflexivity | now rewrite IH]. Qed.

Lemma match_mantissa_spec (s m r : string) :
  match_mantissa s = Some (m, r) -> s = m ++ r /\ m <> EmptyString.
Proof.
  unfold match_mantissa.
  destruct (span_digits s) as [ds r1] eqn:E1.
  destruct (span_digits_spec _ E1) as (-> & _ & _).
  assert (Hwhole : match ds with EmptyString => None | _ => Some (ds, r1) end = Some (m, r) ->
                   ds ++ r1 = m ++ r /\ m <> EmptyString).
  { destruct ds; [discriminate |]. intros [= <- <-]. split; [reflexivity | discriminate]. }
  destruct r1 as [| c r']; [exact Hwhole |].
  destruct (Ascii.eqb_spec c ".") as [-> | NE]; [| exact Hwhole].
  destruct (span_digits r') as [fs r''] eqn:E2.
  destruct (span_digits_spec _ E2) as (-> & _ & _).
  destruct fs as [| f fs]; [exact Hwhole |].
  intros [= <- <-]. split.
  - rewrite append_assoc. reflexivity.
  - destruct ds; discriminate.
Qed.

Lemma match_exponent_spec (s e r : string) :
  match_exponent s = (e, r) -> s = e ++ r.
Proof.
  unfold match_exponent. destruct s as [| c s']; [intros [= <- <-]; reflexivity |].
  destruct (is_exp_mark c); [| intros [= <- <-]; reflexivity].
  destruct s' as [| sg r']; [intros [= <- <-]; reflexivity |].
  destruct (is_sign sg).
  - destruct (span_digits r') as [ds r''] eqn:E.
    destruct (span_digits_spec _ E) as (-> & _ & _).
    destruct ds; intros [= <- <-]; reflexivity.
  - destruct (span_digits (String sg r')) as [ds r''] eqn:E.
    destruct (span_digits_spec _ E) as (Heq & _ & _).
    destruct ds; intros [= <- <-]; [reflexivity |].
    cbn [String.append]. rewrite Heq. reflexivity.
Qed.

Lemma match_unsigned_spec (t txt rest : string) :
  match_unsigned t = Some (txt, rest) -> t = txt ++ rest /\ txt <> EmptyString.
Proof.
  unfold match_unsigned.
  destruct (match_mantissa t) as [[m r] |] eqn:Em; [| discriminate].
  destruct (match_mantissa_spec _ Em) as [-> Hm].
  destruct (match_exponent r) as [e r'] eqn:Ee.
  rewrite (match_exponent_spec _ Ee). intros [= <- <-]. split.
  - rewrite append_assoc. reflexivity.
  - destruct m; [congruence | discriminate].
Qed.

Lemma match_number_spec (s txt rest : string) :
  match_number s = Some (txt, rest) -> s = txt ++ rest /\ txt <> EmptyString.
Proof.
  unfold match_number. destruct s as [| c r]; [discriminate |].
  destruct (is_sign c); [| apply match_unsigned_spec].
  destruct (match_unsigned r) as [[txt' rest'] |] eqn:E; [| discriminate].
  intros [= <- <-]. destruct (match_unsigned_spec _ E) as [-> _].
  split; [reflexivity | discriminate].
Qed.

Lemma match_number_shorter (s txt rest : string) :
  match_number s = Some (txt, rest) ->
  (String.length rest < String.length s)%nat.
Proof.
  intros H. destruct (match_number_spec _ H) as [-> Hne].
  rewrite length_append. destruct txt; [congruence | cbn; lia].
Qed.

(** Fuel beyond the length of the input changes nothing. *)
Lemma scan_fuel (f1 : nat) :
  forall (f2 : nat) (s : string),
    (String.length s <= f1)%nat -> (String.length s <= f2)%nat ->
    scan f1 s = scan f2 s.
Proof.
  induction f1 as [| f1 IH]; intros f2 s H1 H2.
  - destruct s; [destruct f2; reflexivity | cbn in H1; lia].
  - destruct s as [| c r]; [destruct f2; reflexivity |].
    destruct f2 as [| f2]; [cbn in H2; lia |].
    cbn [String.length] in H1, H2. cbn [scan].
    destruct (is_command_letter c).
    + f_equal. apply IH; lia.
    + destruct (match_number (String c r)) as [[txt rest] |] eqn:E.
      * pose proof (match_number_shorter _ E) as Hs. cbn [String.length] in Hs.
        f_equal. apply IH; lia.
      * apply IH; lia.
Qed.

Lemma tokenize_letter (c : ascii) (r : string) :
  is_command_letter c = true ->
  tokenize (String c r) = String c EmptyString :: tokenize r.
Proof. intros H. unfold tokenize. cbn [String.length scan]. now rewrite H. Qed.

Lemma tokenize_space (r : string) : tokenize (String " " r) = tokenize r.
Proof. reflexivity. Qed.

Lemma tokenize_number (s txt rest : string) :
  match s with String c _ => is_command_letter c = false | EmptyString => True end ->
  match_number s = Some (txt, rest) ->
  tokenize s = txt :: tokenize rest.
Proof.
  intros Hc H. pose proof (match_number_shorter _ H) as Hs.
  unfold tokenize. destruct s as [| c r]; [discriminate |].
  cbn [String.length scan]. rewrite Hc, H. f_equal.
  cbn [String.length] in Hs. apply scan_fuel; lia.
Qed.

Lemma digit_not_special (c : ascii) :
  is_digit c = true ->
  is_sign c = false /\ is_command_letter c = false /\ is_letter c = false
  /\ Ascii.eqb c "." = false /\ is_exp_mark c = false.
Proof.
  unfold is_digit. intros H. apply andb_prop in H as [H1 H2].
  apply Nat.leb_le in H1. apply Nat.leb_le in H2.
  assert (E : c = ascii_of_nat (nat_of_ascii c)) by (symmetry; apply ascii_nat_embedding).
  assert (Hn : (nat_of_ascii c = 48 \/ nat_of_ascii c = 49 \/ nat_of_ascii c = 50
               \/ nat_of_ascii c = 51 \/ nat_of_ascii c = 52 \/ nat_of_ascii c = 53
               \/ nat_of_ascii c = 54 \/ nat_of_ascii c = 55 \/ nat_of_ascii c = 56
               \/ nat_of_ascii c = 57)%nat) by lia.
  repeat (destruct Hn as [Hn | Hn]; [rewrite E, Hn; repeat split |]).
  rewrite E, Hn; repeat split.
Qed.

Lemma ends_token_nondigit (rest : string) :
  ends_token rest ->
  match rest with String c _ => is_digit c = false | EmptyString => True end.
Proof. intros [-> | [r ->]]; [exact I | reflexivity]. Qed.

Lemma match_exponent_ends (rest : string) :
  ends_token rest -> match_exponent rest = (EmptyString, rest).
Proof. intros [-> | [r ->]]; reflexivity. Qed.

Lemma match_unsigned_numeral (ip fp rest : string) :
  all_digits ip = true -> ip <> EmptyString -> all_digits fp = true ->
  ends_token rest ->
  let u := ip ++ match fp with EmptyString => EmptyString | _ => "." ++ fp end in
  match_unsigned (u ++ rest) = Some (u, rest).
Proof.
  intros Hip Hne Hfp Hrest u. unfold match_unsigned, match_mantissa.
  pose proof (ends_token_nondigit Hrest) as Hnd.
  destruct fp as [| f fp].
  - subst u. rewrite append_nil_r.
    rewrite (span_digits_app _ _ Hip Hnd).
    assert (Hw : match rest with
                 | String c r' =>
                     if Ascii.eqb c "." then
                       let (fs, r'') := span_digits r' in
                       match fs with
                       | EmptyString => match ip with EmptyString => None | _ => Some (ip, rest) end
                       | _ => Some (ip ++ String "." fs, r'')
                       end
                     else match ip with EmptyString => None | _ => Some (ip, rest) end
                 | EmptyString => match ip with EmptyString => None | _ => Some (ip, rest) end
                 end = Some (ip, rest)).
    { destruct Hrest as [-> | [r ->]]; cbn; destruct ip; congruence. }
    rewrite Hw. rewrite (match_exponent_ends Hrest). now rewrite append_nil_r.
  - subst u. rewrite append_assoc. cbn [String.append].
    rewrite (@span_digits_app ip (String "." (String f (fp ++ rest))) Hip eq_refl).
    cbn [Ascii.eqb Bool.eqb].
    change (String f (fp ++ rest)) with (String f fp ++ rest).
    rewrite (span_digits_app _ _ Hfp Hnd).
    rewrite (match_exponent_ends Hrest). now rewrite append_nil_r.
Qed.

Lemma numeral_first_char (s : string) :
  numeral_text s ->
  exists c r, s = String c r /\ is_command_letter c = false
              /\ is_letter c = false.
Proof.
  intros (neg & ip & fp & -> & Hip & Hne & Hfp).
  destruct neg.
  - eexists _, _. split; [reflexivity | split; reflexivity].
  - destruct ip as [| c ip]; [congruence |].
    cbn [all_digits] in Hip. apply andb_prop in Hip as [Hc _].
    destruct (digit_not_special _ Hc) as (_ & H1 & H2 & _).
    eexists _, _. split; [reflexivity | split; assumption].
Qed.

Lemma match_number_numeral (s rest : string) :
  numeral_text s -> ends_token rest ->
  match_number (s ++ rest) = Some (s, rest).
Proof.
  intros (neg & ip & fp & -> & Hip & Hne & Hfp) Hrest.
  pose proof (@match_unsigned_numeral ip fp rest Hip Hne Hfp Hrest) as Hu.
  cbv zeta in Hu. destruct neg.
  - cbn [String.append] in Hu |- *. unfold match_number.
    change (is_sign "-") with true. cbv iota. rewrite Hu. reflexivity.
  - cbn [String.append] in Hu |- *.
    destruct ip as [| c ip]; [congruence |]. cbn [String.append] in *.
    cbn [all_digits] in Hip. apply andb_prop in Hip as [Hc _].
    destruct (digit_not_special _ Hc) as (Hs & _).
    unfold match_number. rewrite Hs. exact Hu.
Qed.

Lemma tokenize_numeral (s rest : string) :
  numeral_text s -> ends_token rest ->
  tokenize (s ++ rest) = s :: tokenize rest.
Proof.
  intros Hs Hr. apply tokenize_number; [| apply match_number_numeral; assumption].
  destruct (numeral_first_char Hs) as (c & r & -> & Hc & _). exact Hc.
Qed.

(** ** Integers are written and read back exactly *)

Lemma digits_value_uint_acc (d : Decimal.uint) (acc : positive) :
  digits_value (Z.pos acc) (NilEmpty.string_of_uint d)
  = Z.pos (Pos.of_uint_acc d acc).
Proof.
  revert acc. induction d; intros acc; cbn [NilEmpty.string_of_uint digits_value Pos.of_uint_acc];
    [reflexivity
    | rewrite <- IHd; f_equal;
      match goal with
      | |- context [digit_value ?c] =>
          let v := eval vm_compute in (digit_value c) in
          change (digit_value c) with v
      end; lia ..].
Qed.

Lemma digits_value_uint (d : Decimal.uint) :
  digits_value 0 (NilEmpty.string_of_uint d) = Z.of_N (Pos.of_uint d).
Proof.
  induction d; cbn [NilEmpty.string_of_uint digits_value Pos.of_uint];
    [reflexivity | exact IHd | apply (digits_value_uint_acc d) ..].
Qed.

Lemma digits_value_str_int (z : Z) : (0 <= z)%Z -> digits_value 0 (str_int z) = z.
Proof.
  intros Hz. destruct z as [| p | p]; [reflexivity | | lia].
  rewrite str_int_pos, digits_value_uint, Unsigned.of_to. reflexivity.
Qed.

Lemma parse_decimal_digits (ds : string) :
  all_digits ds = true -> ds <> EmptyString ->
  parse_decimal ds = Some (digits_value 0 ds, 0%Z)
  /\ parse_decimal (String "-" ds) = Some ((- digits_value 0 ds)%Z, 0%Z).
Proof.
  intros Hd Hne.
  assert (Hspan : span_digits ds = (ds, EmptyString)).
  { rewrite <- (append_nil_r ds) at 1. apply span_digits_app; [exact Hd | exact I]. }
  assert (Hlen : (String.length ds =? 0)%nat = false).
  { destruct ds; [congruence | reflexivity]. }
  split.
  - unfold parse_decimal.
    assert (Hs : split_sign ds = (false, ds)).
    { destruct ds as [| c r]; [congruence |]. cbn [all_digits] in Hd.
      apply andb_prop in Hd as [Hc _]. unfold split_sign.
      destruct (digit_not_special _ Hc) as (Hsg & _).
      unfold is_sign, char_in in Hsg. cbn [list_ascii_of_string existsb] in Hsg.
      apply orb_false_elim in Hsg as [H1 H2]. apply orb_false_elim in H2 as [H2 _].
      rewrite H1, H2. reflexivity. }
    rewrite Hs, Hspan. cbn [split_fraction parse_exponent starts_with_dot].
    rewrite Hlen. cbn [andb negb String.length Z.of_nat]. rewrite append_nil_r.
    reflexivity.
  - unfold parse_decimal. cbn [split_sign Ascii.eqb Bool.eqb].
    rewrite Hspan. cbn [split_fraction parse_exponent starts_with_dot].
    rewrite Hlen. cbn [andb negb String.length Z.of_nat]. rewrite append_nil_r.
    reflexivity.
Qed.

Lemma decimal_zero_exponent (m : Z) : decimal m 0 = IZR m.
Proof. unfold decimal. cbn [Z.leb Z.compare]. f_equal. lia. Qed.

Lemma float_of_str_int (z : Z) : float_of_string (str_int z) = Some (IZR z).
Proof.
  unfold float_of_string. destruct z as [| p | p].
  - reflexivity.
  - destruct (@str_int_digits (Z.pos p) ltac:(lia)) as [Hd Hne].
    rewrite (proj1 (parse_decimal_digits Hd Hne)).
    rewrite digits_value_str_int by lia. now rewrite decimal_zero_exponent.
  - destruct (@str_int_digits (Z.pos p) ltac:(lia)) as [Hd Hne].
    rewrite str_int_neg. rewrite (proj2 (parse_decimal_digits Hd Hne)).
    rewrite digits_value_str_int by lia. now rewrite decimal_zero_exponent.
Qed.

Lemma numeral_text_str_int (z : Z) : numeral_text (str_int z).
Proof.
  destruct z as [| p | p].
  - exists false, "0", EmptyString. repeat split; discriminate.
  - destruct (@str_int_digits (Z.pos p) ltac:(lia)) as [Hd Hne].
    exists false, (str_int (Z.pos p)), EmptyString.
    cbn [String.append]. rewrite append_nil_r. repeat split; assumption.
  - destruct (@str_int_digits (Z.pos p) ltac:(lia)) as [Hd Hne].
    exists true, (str_int (Z.pos p)), EmptyString.
    rewrite str_int_neg. cbn [String.append]. rewrite append_nil_r.
    repeat split; assumption.
Qed.

Lemma printable_IZR (z : Z) : printable (IZR z).
Proof.
  unfold printable. rewrite fmt_number_IZR.
  split; [apply numeral_text_str_int | apply float_of_str_int].
Qed.

(** ** Both loops fold the same trace *)

Lemma bbox_loop_trace (fuel : nat) :
  forall (cur : cursor) (bbox : option box) (toks : list string),
    bbox_loop fuel cur bbox toks
    = (let* tr := decode_loop fuel cur toks in Ok (trace_bbox bbox tr))%result.
Proof.
  induction fuel as [| f IH]; intros cur bbox toks.
  - destruct toks; reflexivity.
  - destruct toks as [| tok toks]; [reflexivity |].
    cbn [bbox_loop decode_loop]. rewrite bbox_step_decode.
    destruct (decode cur (tok :: toks)) as [[[seg cur'] rest] | e |]; cbn [bind fst snd];
      try reflexivity.
    rewrite IH. destruct (decode_loop f cur' rest); reflexivity.
Qed.

Lemma transform_loop_trace (k tx ty : R) (fuel : nat) :
  forall (cur : cursor) (out : list string) (toks : list string),
    transform_loop k tx ty fuel cur out toks
    = (let* tr := decode_loop fuel cur toks in
       Ok (out ++ map (fun cs => render_segment k tx ty (snd cs)) tr)%list)%result.
Proof.
  induction fuel as [| f IH]; intros cur out toks.
  - destruct toks; cbn; [now rewrite app_nil_r | reflexivity].
  - destruct toks as [| tok toks]; [cbn; now rewrite app_nil_r |].
    cbn [transform_loop decode_loop]. rewrite transform_step_decode.
    destruct (decode cur (tok :: toks)) as [[[seg cur'] rest] | e |]; cbn [bind fst snd];
      try reflexivity.
    rewrite IH. destruct (decode_loop f cur' rest); cbn [bind]; try reflexivity.
    unfold out_append. rewrite <- app_assoc. reflexivity.
Qed.

(** ** Boxes under the map [p -> p * k + t], for [0 < k] *)

Section AffineBoxes.

Variables k tx ty : R.
Hypothesis Hk : 0 < k.

Lemma Rmin_affine (t a b : R) : Rmin (a * k + t) (b * k + t) = Rmin a b * k + t.
Proof.
  unfold Rmin. destruct (Rle_dec a b), (Rle_dec (a * k + t) (b * k + t));
    try reflexivity; nra.
Qed.

Lemma Rmax_affine (t a b : R) : Rmax (a * k + t) (b * k + t) = Rmax a b * k + t.
Proof.
  unfold Rmax. destruct (Rle_dec a b), (Rle_dec (a * k + t) (b * k + t));
    try reflexivity; nra.
Qed.

Lemma min_list_affine (t : R) (xs : list R) (a : R) :
  min_list (a * k + t) (map (fun v => v * k + t) xs) = min_list a xs * k + t.
Proof.
  unfold min_list. revert a. induction xs as [| x xs IH]; intros a; cbn [map fold_left].
  - reflexivity.
  - rewrite Rmin_affine. apply IH.
Qed.

Lemma max_list_affine (t : R) (xs : list R) (a : R) :
  max_list (a * k + t) (map (fun v => v * k + t) xs) = max_list a xs * k + t.
Proof.
  unfold max_list. revert a. induction xs as [| x xs IH]; intros a; cbn [map fold_left].
  - reflexivity.
  - rewrite Rmax_affine. apply IH.
Qed.

Lemma bbox_union_affine (a b : option box) :
  bbox_union (map_bbox k tx ty a) (map_bbox k tx ty b)
  = map_bbox k tx ty (bbox_union a b).
Proof.
  destruct a as [a |], b as [b |]; try reflexivity.
  unfold map_bbox. cbn [bbox_scale bbox_translate bbox_union box_scale box_translate
                          x_min y_min x_max y_max].
  rewrite !Rmin_affine, !Rmax_affine. reflexivity.
Qed.

Lemma cubic_point_affine (t p0 p1 p2 p3 s : R) :
  cubic_point (p0 * k + t) (p1 * k + t) (p2 * k + t) (p3 * k + t) s
  = cubic_point p0 p1 p2 p3 s * k + t.
Proof. unfold cubic_point. ring. Qed.

Lemma quadratic_point_affine (t p0 p1 p2 s : R) :
  quadratic_point (p0 * k + t) (p1 * k + t) (p2 * k + t) s
  = quadratic_point p0 p1 p2 s * k + t.
Proof. unfold quadratic_point. ring. Qed.

Lemma Rabs_scale (a : R) : Rabs (a * k) = Rabs a * k.
Proof. rewrite Rabs_mult, (Rabs_right k) by lra. reflexivity. Qed.

Lemma cubic_extrema_affine (t p0 p1 p2 p3 : R) :
  cubic_guards_agree k p0 p1 p2 p3 ->
  cubic_extrema (p0 * k + t) (p1 * k + t) (p2 * k + t) (p3 * k + t)
  = cubic_extrema p0 p1 p2 p3.
Proof.
  unfold cubic_guards_agree, cubic_extrema. cbv zeta.
  set (a := - p0 + 3 * p1 - 3 * p2 + p3).
  set (b := 2 * (p0 - 2 * p1 + p2)).
  set (c := p1 - p0).
  replace (- (p0 * k + t) + 3 * (p1 * k + t) - 3 * (p2 * k + t) + (p3 * k + t))
    with (a * k) by (unfold a; ring).
  replace (2 * (p0 * k + t - 2 * (p1 * k + t) + (p2 * k + t)))
    with (b * k) by (unfold b; ring).
  replace (p1 * k + t - (p0 * k + t)) with (c * k) by (unfold c; ring).
  pose proof eps_pos as He.
  intros [Ga Gb].
  destruct (Rltb_spec (Rabs a) eps) as [Ha | Ha].
  - rewrite (Rltb_true (proj2 Ga Ha)). specialize (Gb Ha).
    destruct (Rltb_spec eps (Rabs b)) as [Hb | Hb].
    + rewrite (Rltb_true (proj2 Gb Hb)).
      assert (Hb0 : b <> 0) by (intros E; rewrite E, Rabs_R0 in Hb; lra).
      replace (- (c * k) / (b * k)) with (- c / b) by (field; split; lra).
      reflexivity.
    + rewrite Rltb_false; [reflexivity |].
      apply Rnot_lt_le. intros H. apply Hb, Gb, H.
  - assert (Ha' : eps <= Rabs a) by (apply Rnot_lt_le, Ha).
    assert (Ha0 : a <> 0) by (intros E; rewrite E, Rabs_R0 in Ha'; lra).
    rewrite Rltb_false
      by (apply Rnot_lt_le; intros H; apply Ha, Ga, H).
    replace (b * k * (b * k) - 4 * (a * k) * (c * k))
      with ((b * b - 4 * a * c) * (k * k)) by ring.
    destruct (Rleb_spec 0 (b * b - 4 * a * c)) as [Hd | Hd].
    + rewrite Rleb_true by nra.
      rewrite sqrt_mult by nra. rewrite (sqrt_square k) by lra.
      replace ((- (b * k) + sqrt (b * b - 4 * a * c) * k) / (2 * (a * k)))
        with ((- b + sqrt (b * b - 4 * a * c)) / (2 * a)) by (field; split; lra).
      replace ((- (b * k) - sqrt (b * b - 4 * a * c) * k) / (2 * (a * k)))
        with ((- b - sqrt (b * b - 4 * a * c)) / (2 * a)) by (field; split; lra).
      reflexivity.
    + apply Rnot_le_lt in Hd. assert (Hkk : 0 < k * k) by nra.
      rewrite Rleb_false by nra. reflexivity.
Qed.

Lemma quadratic_extrema_affine (t p0 p1 p2 : R) :
  quadratic_guard_agrees k p0 p1 p2 ->
  quadratic_extrema (p0 * k + t) (p1 * k + t) (p2 * k + t)
  = quadratic_extrema p0 p1 p2.
Proof.
  unfold quadratic_guard_agrees, quadratic_extrema. cbv zeta.
  set (d := p0 - 2 * p1 + p2).
  replace (p0 * k + t - 2 * (p1 * k + t) + (p2 * k + t)) with (d * k)
    by (unfold d; ring).
  replace (p0 * k + t - (p1 * k + t)) with ((p0 - p1) * k) by ring.
  pose proof eps_pos as He.
  intros G.
  destruct (Rltb_spec (Rabs d) eps) as [Hd | Hd].
  - rewrite (Rltb_true (proj2 G Hd)). reflexivity.
  - assert (Hd' : eps <= Rabs d) by (apply Rnot_lt_le, Hd).
    assert (Hd0 : d <> 0) by (intros E; rewrite E, Rabs_R0 in Hd'; lra).
    rewrite Rltb_false
      by (apply Rnot_lt_le; intros H; apply Hd, G, H).
    replace ((p0 - p1) * k / (d * k)) with ((p0 - p1) / d) by (field; split; lra).
    reflexivity.
Qed.

Lemma map_cubic_point (t p0 p1 p2 p3 : R) (ts : list R) :
  map (cubic_point (p0 * k + t) (p1 * k + t) (p2 * k + t) (p3 * k + t)) ts
  = map (fun v => v * k + t) (map (cubic_point p0 p1 p2 p3) ts).
Proof.
  rewrite map_map. apply map_ext. intros s. apply cubic_point_affine.
Qed.

Lemma map_quadratic_point (t p0 p1 p2 : R) (ts : list R) :
  map (quadratic_point (p0 * k + t) (p1 * k + t) (p2 * k + t)) ts
  = map (fun v => v * k + t) (map (quadratic_point p0 p1 p2) ts).
Proof.
  rewrite map_map. apply map_ext. intros s. apply quadratic_point_affine.
Qed.

Lemma cubic_box_affine (x0 y0 x1 y1 x2 y2 x3 y3 : R) :
  cubic_guards_agree k x0 x1 x2 x3 ->
  cubic_guards_agree k y0 y1 y2 y3 ->
  cubic_box (map_x k tx x0) (map_y k ty y0) (map_x k tx x1) (map_y k ty y1)
            (map_x k tx x2) (map_y k ty y2) (map_x k tx x3) (map_y k ty y3)
  = box_translate (box_scale (cubic_box x0 y0 x1 y1 x2 y2 x3 y3) k) tx ty.
Proof.
  intros Gx Gy. unfold cubic_box, map_x, map_y. cbv zeta.
  rewrite (cubic_extrema_affine tx Gx), (cubic_extrema_affine ty Gy).
  rewrite !map_cubic_point.
  unfold box_translate, box_scale. cbn [x_min y_min x_max y_max].
  f_equal.
  - apply (min_list_affine tx (x3 :: _)).
  - apply (min_list_affine ty (y3 :: _)).
  - apply (max_list_affine tx (x3 :: _)).
  - apply (max_list_affine ty (y3 :: _)).
Qed.

Lemma quadratic_box_affine (x0 y0 x1 y1 x2 y2 : R) :
  quadratic_guard_agrees k x0 x1 x2 ->
  quadratic_guard_agrees k y0 y1 y2 ->
  quadratic_box (map_x k tx x0) (map_y k ty y0) (map_x k tx x1) (map_y k ty y1)
                (map_x k tx x2) (map_y k ty y2)
  = box_translate (box_scale (quadratic_box x0 y0 x1 y1 x2 y2) k) tx ty.
Proof.
  intros Gx Gy. unfold quadratic_box, map_x, map_y. cbv zeta.
  rewrite (quadratic_extrema_affine tx Gx), (quadratic_extrema_affine ty Gy).
  rewrite !map_quadratic_point.
  unfold box_translate, box_scale. cbn [x_min y_min x_max y_max].
  f_equal.
  - apply (min_list_affine tx (x2 :: _)).
  - apply (min_list_affine ty (y2 :: _)).
  - apply (max_list_affine tx (x2 :: _)).
  - apply (max_list_affine ty (y2 :: _)).
Qed.

End AffineBoxes.

(** ** What one decoding step preserves *)

Lemma read_number_inv (toks rest : list string) (v : R) :
  read_number toks = Ok (v, rest) ->
  exists tok, toks = tok :: rest /\ float_of_string tok = Some v.
Proof.
  unfold read_number. destruct toks as [| tok r]; [discriminate |].
  destruct (float_of_string tok) eqn:E; [| discriminate].
  intros [= <- <-]. exists tok. split; [reflexivity | exact E].
Qed.

Lemma fetch_command_inv (cur : cursor) (tok c : string) (rest toks1 : list string) :
  fetch_command cur tok rest = Ok (c, toks1) ->
  (starts_with_letter tok = true /\ c = tok /\ toks1 = rest)
  \/ (starts_with_letter tok = false /\ cmd cur = Some c /\ toks1 = tok :: rest).
Proof.
  unfold fetch_command. destruct (starts_with_letter tok).
  - intros [= <- <-]. left. repeat split.
  - destruct (cmd cur) as [c' |]; [| discriminate].
    intros [= <- <-]. right. repeat split.
Qed.

(** The case analysis of [decode]: one goal per branch, the numbers read
    being named by equations on [float_of_string]. *)
Ltac decode_reads Hd :=
  repeat match type of Hd with
         | context [read_number ?t] =>
             let E := fresh "Hr" in
             destruct (read_number t) as [[? ?] | ? |] eqn:E;
             cbn [bind] in Hd; try discriminate Hd;
             apply read_number_inv in E as (? & -> & E)
         end.

Ltac decode_cases Hd c :=
  repeat match type of Hd with
         | context [if substr_in c ?s then _ else _] =>
             let B := fresh "Hb" in
             destruct (substr_in c s) eqn:B;
             [ decode_reads Hd; try (destruct (reflected_control _ _ _) eqn:?) | ]
         end;
  try discriminate Hd;
  injection Hd as <- <- <-.

Section DecodeGrid.

Variable P : R -> Prop.
Hypothesis P_add : forall a b, P a -> P b -> P (a + b).
Hypothesis P_scale : forall (z : Z) a, P a -> P (IZR z * a).







End DecodeGrid.

Lemma decode_no_arc (cur : cursor) (toks : list string)
  (seg : segment) (cur' : cursor) (rest : list string) :
  decode cur toks = Ok (seg, cur', rest) ->
  no_arc_command cur -> Forall no_arc_token toks ->
  is_arc seg = false /\ no_arc_command cur' /\ Forall no_arc_token rest.
Proof.
  intros Hd Hc Ht.
  unfold decode in Hd. destruct toks as [| tok toks]; [discriminate |].
  destruct (fetch_command cur tok toks) as [[c toks1] | e |] eqn:Hf;
    cbn [bind] in Hd; try discriminate.
  assert (H1 : substr_in c "Aa" = false /\ Forall no_arc_token toks1).
  { apply fetch_command_inv in Hf as [(Hl & -> & ->) | (_ & Hcmd & ->)].
    - split; [apply (Forall_inv Ht), Hl | apply (Forall_inv_tail Ht)].
    - split; [apply Hc, Hcmd | exact Ht]. }
  destruct H1 as [Hna Ht1]. clear Hf Ht.
  decode_cases Hd c;
    try congruence;
    repeat match goal with
           | H : Forall no_arc_token (_ :: _) |- _ => apply Forall_inv_tail in H
           end;
    (split; [reflexivity | split; [| assumption]]);
    intros c' Hc'; cbn [cmd] in Hc'; injection Hc' as <-;
    try assumption; destruct (String.eqb c "M"); reflexivity.
Qed.

Lemma decode_position (cur : cursor) (toks : list string)
  (seg : segment) (cur' : cursor) (rest : list string) :
  decode cur toks = Ok (seg, cur', rest) ->
  same_position cur' (absolute_cursor cur seg).
Proof.
  intros Hd.
  unfold decode in Hd. destruct toks as [| tok toks]; [discriminate |].
  destruct (fetch_command cur tok toks) as [[c toks1] | e |] eqn:Hf;
    cbn [bind] in Hd; try discriminate.
  decode_cases Hd c; repeat split.
Qed.

Lemma decode_rendered (cur : cursor) (seg : segment) (more : list string) :
  is_arc seg = false ->
  Forall (fun v => float_of_string (fmt_number v) = Some v) (segment_operands seg) ->
  decode cur (segment_tokens seg ++ more)%list
  = Ok (seg, absolute_cursor cur seg, more).
Proof.
  intros Ha Hv. destruct seg; try discriminate Ha;
    cbn [segment_operands] in Hv;
    repeat match goal with
           | H : Forall _ (_ :: _) |- _ =>
               let Hh := fresh "Hh" in
               pose proof (Forall_inv H) as Hh; cbv beta in Hh;
               apply Forall_inv_tail in H
           end;
    unfold segment_tokens; cbn [segment_letter segment_operands map app];
    unfold decode; rewrite fetch_command_letter by reflexivity;
    cbn -[read_number fmt_number]; read_all; reflexivity.
Qed.

(** ** One segment and its image *)

Section MappedSegment.

Variables k tx ty : R.
Hypothesis Hk : 0 < k.

Lemma add_point_mapped (bbox : option box) (x y : R) :
  add_point (map_bbox k tx ty bbox) (map_x k tx x) (map_y k ty y)
  = map_bbox k tx ty (add_point bbox x y).
Proof. unfold add_point. rewrite <- (bbox_union_affine tx ty Hk). reflexivity. Qed.

Lemma segment_extend_mapped
  (bbox : option box) (cur cur2 : cursor) (seg : segment) :
  mapped_position k tx ty cur cur2 \/ is_move seg = true ->
  is_arc seg = false ->
  guards_agree k cur seg ->
  segment_extend (map_bbox k tx ty bbox) cur2 (map_segment k tx ty seg)
  = map_bbox k tx ty (segment_extend bbox cur seg).
Proof.
  intros Hpos Ha Hg.
  destruct seg; try discriminate Ha; cbn [map_segment segment_extend].
  - apply add_point_mapped.
  - destruct Hpos as [(_ & _ & -> & ->) | Hm]; [| discriminate Hm].
    apply add_point_mapped.
  - destruct Hpos as [(-> & -> & _) | Hm]; [| discriminate Hm].
    rewrite <- (bbox_union_affine tx ty Hk). f_equal.
    unfold map_bbox, map_x, map_y.
    cbn [bbox_scale bbox_translate box_scale box_translate x_min y_min x_max y_max].
    rewrite !(Rmin_affine Hk), !(Rmax_affine Hk). reflexivity.
  - destruct Hpos as [(-> & -> & _) | Hm]; [| discriminate Hm].
    destruct Hg as [Gx Gy].
    unfold cubic_bbox. rewrite <- (bbox_union_affine tx ty Hk). f_equal.
    rewrite (cubic_box_affine tx ty Hk Gx Gy). reflexivity.
  - destruct Hpos as [(-> & -> & _) | Hm]; [| discriminate Hm].
    destruct Hg as [Gx Gy].
    unfold quadratic_bbox. rewrite <- (bbox_union_affine tx ty Hk). f_equal.
    rewrite (quadratic_box_affine tx ty Hk Gx Gy). reflexivity.
Qed.

Lemma position_mapped (cur cur2 cur' : cursor) (seg : segment) :
  mapped_position k tx ty cur cur2 \/ is_move seg = true ->
  same_position cur' (absolute_cursor cur seg) ->
  mapped_position k tx ty cur' (absolute_cursor cur2 (map_segment k tx ty seg)).
Proof.
  intros Hpos (E1 & E2 & E3 & E4).
  unfold mapped_position. rewrite E1, E2, E3, E4.
  destruct seg; cbn [map_segment absolute_cursor cur_x cur_y start_x start_y];
    try (repeat split; reflexivity);
    (destruct Hpos as [(_ & _ & -> & ->) | Hm]; [| discriminate Hm]);
    repeat split; reflexivity.
Qed.

End MappedSegment.

Lemma decode_move (cur : cursor) (t : string) (toks : list string)
  (seg : segment) (cur' : cursor) (rest : list string) :
  t = "M" \/ t = "m" ->
  decode cur (t :: toks) = Ok (seg, cur', rest) -> is_move seg = true.
Proof.
  intros Ht Hd. unfold decode in Hd.
  destruct Ht as [-> | ->]; rewrite fetch_command_letter in Hd by reflexivity;
    cbn -[read_number] in Hd; decode_reads Hd; injection Hd as <- _ _; reflexivity.
Qed.

(** ** Shape of the tokens *)

Lemma starts_with_letter_app (m e : string) :
  m <> EmptyString -> starts_with_letter (m ++ e) = starts_with_letter m.
Proof. destruct m; [congruence | reflexivity]. Qed.

Lemma digits_head (ds x : string) :
  all_digits ds = true -> starts_with_letter x = false ->
  starts_with_letter (ds ++ x) = false.
Proof.
  destruct ds as [| c ds]; [intros _ H; exact H |].
  cbn [all_digits String.append starts_with_letter]. intros H _.
  apply andb_prop in H as [H _]. apply (digit_not_special _ H).
Qed.

Lemma match_mantissa_head (s m r : string) :
  match_mantissa s = Some (m, r) -> starts_with_letter m = false.
Proof.
  unfold match_mantissa.
  destruct (span_digits s) as [ds r1] eqn:E1.
  destruct (span_digits_spec _ E1) as (_ & Hds & _).
  assert (Hwhole : match ds with EmptyString => None | _ => Some (ds, r1) end = Some (m, r) ->
                   starts_with_letter m = false).
  { destruct ds as [| c ds]; [discriminate |]. intros [= <- <-].
    cbn [all_digits] in Hds. apply andb_prop in Hds as [H _].
    apply (digit_not_special _ H). }
  destruct r1 as [| c r']; [exact Hwhole |].
  destruct (Ascii.eqb c "."); [| exact Hwhole].
  destruct (span_digits r') as [fs r''].
  destruct fs; [exact Hwhole |].
  intros [= <- <-]. apply digits_head; [exact Hds | reflexivity].
Qed.

Lemma match_number_head (s txt rest : string) :
  match_number s = Some (txt, rest) -> starts_with_letter txt = false.
Proof.
  assert (Hu : forall t txt' rest', match_unsigned t = Some (txt', rest') ->
                                    starts_with_letter txt' = false).
  { intros t txt' rest'. unfold match_unsigned.
    destruct (match_mantissa t) as [[m r] |] eqn:Em; [| discriminate].
    destruct (match_exponent r) as [e r']. intros [= <- <-].
    rewrite starts_with_letter_app by apply (match_mantissa_spec _ Em).
    apply (match_mantissa_head _ Em). }
  unfold match_number. destruct s as [| c r]; [discriminate |].
  destruct (is_sign c) eqn:Hs; [| apply Hu].
  destruct (match_unsigned r) as [[txt' rest'] |]; [| discriminate].
  intros [= <- <-]. cbn [starts_with_letter].
  unfold is_sign, char_in in Hs. cbn [list_ascii_of_string existsb] in Hs.
  destruct (Ascii.eqb_spec c "-") as [-> | _]; [reflexivity |].
  destruct (Ascii.eqb_spec c "+") as [-> | _]; [reflexivity | discriminate].
Qed.

Lemma scan_shape (fuel : nat) :
  forall s, Forall token_shape (scan fuel s).
Proof.
  induction fuel as [| f IH]; intros s; [apply Forall_nil |].
  cbn [scan]. destruct s as [| c r]; [apply Forall_nil |].
  destruct (is_command_letter c) eqn:Hc.
  - apply Forall_cons; [| apply IH]. left. exists c. split; [reflexivity | exact Hc].
  - destruct (match_number (String c r)) as [[txt rest] |] eqn:Hm; [| apply IH].
    apply Forall_cons; [| apply IH]. right. apply (match_number_head _ Hm).
Qed.

Lemma command_letter_cases (c : ascii) :
  is_command_letter c = true -> In (String c EmptyString) command_letters.
Proof.
  unfold is_command_letter, char_in. cbn [list_ascii_of_string existsb].
  repeat match goal with
         | |- (Ascii.eqb c ?a || _)%bool = true -> _ =>
             destruct (Ascii.eqb_spec c a) as [-> | _];
             [intros _; cbn; tauto | cbn [orb]]
         end.
  discriminate.
Qed.

Lemma shape_no_arc (toks : list string) :
  Forall token_shape toks -> arc_free toks -> Forall no_arc_token toks.
Proof.
  intros Hs Ha. unfold arc_free in Ha.
  induction toks as [| t toks IH]; [apply Forall_nil |].
  apply Forall_cons; [| apply IH; [apply (Forall_inv_tail Hs) | apply (Forall_inv_tail Ha)]].
  pose proof (Forall_inv Hs) as H. pose proof (Forall_inv Ha) as [NA Na]. cbv beta in *.
  intros Hl. destruct H as [(c & -> & Hc) | H]; [| congruence].
  apply command_letter_cases in Hc. unfold command_letters in Hc.
  cbn [In] in Hc.
  repeat match type of Hc with
         | _ \/ _ => destruct Hc as [Hc | Hc]
         end;
    try contradiction;
    injection Hc as <-; first [reflexivity | congruence].
Qed.

(** ** The emitted path data and its tokens *)

Lemma tokenize_operands (vs : list R) :
  forall rest, Forall printable vs -> ends_token rest ->
    tokenize (join " " (map fmt_number vs) ++ rest)
    = (map fmt_number vs ++ tokenize rest)%list.
Proof.
  induction vs as [| v vs IH]; intros rest Hv Hr; [reflexivity |].
  pose proof (Forall_inv Hv) as [Hn _]. apply Forall_inv_tail in Hv.
  destruct vs as [| w vs].
  - cbn [map join app]. apply (tokenize_numeral Hn Hr).
  - change (join " " (map fmt_number (v :: w :: vs)))
      with (fmt_number v ++ " " ++ join " " (map fmt_number (w :: vs))).
    rewrite !append_assoc.
    rewrite (@tokenize_numeral (fmt_number v)
               (" " ++ join " " (map fmt_number (w :: vs)) ++ rest) Hn)
      by (right; eexists; reflexivity).
    change (" " ++ join " " (map fmt_number (w :: vs)) ++ rest)
      with (String " " (join " " (map fmt_number (w :: vs)) ++ rest)).
    rewrite tokenize_space. rewrite (IH rest Hv Hr). reflexivity.
Qed.

Lemma render_segment_canonical (k tx ty : R) (seg : segment) :
  is_arc seg = false ->
  render_segment k tx ty seg
  = segment_letter (map_segment k tx ty seg)
    ++ join " " (map fmt_number (segment_operands (map_segment k tx ty seg))).
Proof.
  intros Ha. destruct seg; try discriminate Ha;
    cbn [render_segment map_segment segment_letter segment_operands map join];
    unfold fmt_point, transform_point, map_x, map_y; cbn [fst snd];
    rewrite ?append_assoc; reflexivity.
Qed.

Lemma tokenize_segment (k tx ty : R) (seg : segment) (rest : string) :
  is_arc seg = false ->
  Forall printable (segment_operands (map_segment k tx ty seg)) ->
  ends_token rest ->
  tokenize (render_segment k tx ty seg ++ rest)
  = (segment_tokens (map_segment k tx ty seg) ++ tokenize rest)%list.
Proof.
  intros Ha Hv Hr. rewrite (render_segment_canonical k tx ty seg Ha).
  rewrite append_assoc. unfold segment_tokens. cbn [app].
  rewrite <- (tokenize_operands Hv Hr).
  destruct seg; try discriminate Ha; cbn [map_segment segment_letter];
    apply tokenize_letter; reflexivity.
Qed.

Lemma tokenize_rendered (k tx ty : R) (tr : list (cursor * segment)) :
  Forall (fun cs => is_arc (snd cs) = false
                    /\ Forall printable (segment_operands (map_segment k tx ty (snd cs)))) tr ->
  tokenize (join " " (map (fun cs => render_segment k tx ty (snd cs)) tr))
  = mapped_tokens k tx ty tr.
Proof.
  induction tr as [| cs tr IH]; intros H; [reflexivity |].
  pose proof (Forall_inv H) as [Ha Hv]. apply Forall_inv_tail in H.
  unfold mapped_tokens. cbn [map List.concat].
  destruct tr as [| cs' tr].
  - cbn [map join List.concat]. rewrite app_nil_r.
    rewrite <- (append_nil_r (render_segment k tx ty (snd cs))).
    rewrite (tokenize_segment k tx ty (snd cs) Ha Hv) by (left; reflexivity).
    apply app_nil_r.
  - change (tokenize (render_segment k tx ty (snd cs)
                      ++ String " " (join " " (map (fun cs0 => render_segment k tx ty (snd cs0))
                                                   (cs' :: tr))))
            = (segment_tokens (map_segment k tx ty (snd cs))
               ++ mapped_tokens k tx ty (cs' :: tr))%list).
    rewrite (tokenize_segment k tx ty (snd cs) Ha Hv) by (right; eexists; reflexivity).
    rewrite tokenize_space. rewrite (IH H). reflexivity.
Qed.

(** ** The length of the emitted token list *)

Lemma mapped_tokens_length (k tx ty : R) (tr : list (cursor * segment)) :
  (List.length tr <= List.length (mapped_tokens k tx ty tr))%nat.
Proof.
  unfold mapped_tokens. induction tr as [| cs tr IH]; [apply Nat.le_refl |].
  cbn [map List.concat]. rewrite length_app. unfold segment_tokens at 1.
  cbn [List.length]. lia.
Qed.

(** ** The grid of the integers *)



(** ** Where the box of a transformed path differs *)

Lemma quadratic_box_flat :
  quadratic_box 0 0 (1 / 1000000000) 0 0 0 = Box 0 0 0 0.
Proof.
  unfold quadratic_box, quadratic_extrema, eps.
  rewrite (@Rltb_true (Rabs (0 - 2 * (1 / 1000000000) + 0))) by (rewrite Rabs_left; lra).
  rewrite (@Rltb_true (Rabs (0 - 2 * 0 + 0))) by (rewrite Rabs_right; lra).
  cbn [map min_list max_list fold_left].
  f_equal; minmax.
Qed.

Lemma quadratic_box_bulge :
  quadratic_box 0 0 (1 / 1000) 0 0 0 = Box 0 0 (1 / 2000) 0.
Proof.
  unfold quadratic_box, quadratic_extrema, in_open_unit, eps.
  rewrite (@Rltb_false (Rabs (0 - 2 * (1 / 1000) + 0))) by (rewrite Rabs_left; lra).
  rewrite (@Rltb_true (Rabs (0 - 2 * 0 + 0))) by (rewrite Rabs_right; lra).
  replace ((0 - 1 / 1000) / (0 - 2 * (1 / 1000) + 0)) with (1 / 2) by lra.
  rewrite (@Rltb_true 0 (1 / 2)) by lra. rewrite (@Rltb_true (1 / 2) 1) by lra.
  cbn [andb map min_list max_list fold_left].
  replace (quadratic_point 0 (1 / 1000) 0 (1 / 2)) with (1 / 2000)
    by (unfold quadratic_point; lra).
  f_equal; minmax.
Qed.

(** C1, counterexamples.  Three paths without arcs and a positive scale
    for which the two boxes differ.  With the scale [0.25001] the line to
    [(1, 1)] is written as [L0.25 0.25], four decimals being kept, so the
    box of the output ends at [0.25] and the scaled box at [0.25001].  A
    path that begins with a line has the origin in its box; translated by
    [(1, 1)], the output [L2 2] has the box from [(0, 0)] to [(2, 2)], and
    the translated box goes from [(1, 1)] to [(2, 2)].  The quadratic with
    the control abscissa [1e-9] is below the guard of the extrema solver
    and has the box of its end points; scaled by [1000000] it is written
    exactly, as [Q0.001 0 0 0], passes the guard, and its box reaches
    [0.0005]. *)
Lemma bbox_of_transformed_path_counterexample :
  (arc_free (tokenize "M0 0 L1 1")
   /\ 0 < 25001 / 100000
   /\ transform_path_data (25001 / 100000) 0 0 "M0 0 L1 1" = Ok "M0 0 L0.25 0.25"
   /\ path_bbox "M0 0 L0.25 0.25" = Ok (Some (Box 0 0 (25 / 100) (25 / 100)))
   /\ path_bbox "M0 0 L1 1" = Ok (Some (Box 0 0 1 1))
   /\ bbox_translate (bbox_scale (Some (Box 0 0 1 1)) (25001 / 100000)) 0 0
      = Some (Box (0 * (25001 / 100000) + 0) (0 * (25001 / 100000) + 0)
                  (1 * (25001 / 100000) + 0) (1 * (25001 / 100000) + 0))
   /\ 25 / 100 < 1 * (25001 / 100000) + 0)
  /\ (arc_free (tokenize "L1 1")
      /\ transform_path_data 1 1 1 "L1 1" = Ok "L2 2"
      /\ path_bbox "L2 2" = Ok (Some (Box 0 0 2 2))
      /\ path_bbox "L1 1" = Ok (Some (Box 0 0 1 1))
      /\ bbox_translate (bbox_scale (Some (Box 0 0 1 1)) 1) 1 1
         = Some (Box (0 * 1 + 1) (0 * 1 + 1) (1 * 1 + 1) (1 * 1 + 1))
      /\ 0 < 0 * 1 + 1)
  /\ (arc_free (tokenize "M0 0 Q1e-9 0 0 0")
      /\ starts_with_move (tokenize "M0 0 Q1e-9 0 0 0")
      /\ transform_path_data 1000000 0 0 "M0 0 Q1e-9 0 0 0" = Ok "M0 0 Q0.001 0 0 0"
      /\ path_bbox "M0 0 Q0.001 0 0 0" = Ok (Some (Box 0 0 (1 / 2000) 0))
      /\ path_bbox "M0 0 Q1e-9 0 0 0" = Ok (Some (Box 0 0 0 0))
      /\ bbox_translate (bbox_scale (Some (Box 0 0 0 0)) 1000000) 0 0
         = Some (Box (0 * 1000000 + 0) (0 * 1000000 + 0)
                     (0 * 1000000 + 0) (0 * 1000000 + 0))
      /\ 0 * 1000000 + 0 < 1 / 2000).
Proof.
  split; [| split].
  - split.
    { change (tokenize "M0 0 L1 1") with ["M"; "0"; "0"; "L"; "1"; "1"].
      repeat (apply Forall_cons; [split; discriminate |]). apply Forall_nil. }
    split; [lra |]. split.
    { run. replace (0 * (25001 / 100000) + 0) with 0 by lra.
      replace (1 * (25001 / 100000) + 0) with (25001 / 100000) by lra.
      rewrite fmt_number_IZR.
      assert (E : round4 (25001 / 100000) = 2500%Z)
        by (apply round_half_even_near; lra).
      rewrite fmt_number_canonical; rewrite E; [reflexivity | discriminate]. }
    split; [run; do 2 f_equal; f_equal; minmax |].
    split; [run; do 2 f_equal; f_equal; minmax |].
    split; [reflexivity | lra].
  - split.
    { change (tokenize "L1 1") with ["L"; "1"; "1"].
      repeat (apply Forall_cons; [split; discriminate |]). apply Forall_nil. }
    split.
    { run. replace (1 * 1 + 1) with 2 by lra. rewrite !fmt_number_IZR. reflexivity. }
    split; [run; do 2 f_equal; f_equal; minmax |].
    split; [run; do 2 f_equal; f_equal; minmax |].
    split; [reflexivity | lra].
  - split.
    { change (tokenize "M0 0 Q1e-9 0 0 0")
        with ["M"; "0"; "0"; "Q"; "1e-9"; "0"; "0"; "0"].
      repeat (apply Forall_cons; [split; discriminate |]). apply Forall_nil. }
    split; [left; reflexivity |]. split.
    { run. replace (0 * 1000000 + 0) with 0 by lra.
      replace (1 / 1000000000 * 1000000 + 0) with (IZR 10 / 10000) by lra.
      rewrite fmt_number_IZR. rewrite (@fmt_number_decimal 10) by discriminate.
      reflexivity. }
    split; [run; rewrite quadratic_box_bulge; do 2 f_equal; f_equal; minmax |].
    split; [run; rewrite quadratic_box_flat; do 2 f_equal; f_equal; minmax |].
    split; [reflexivity | lra].
Qed.

(** ** The fuel of the loops

    Each iteration consumes a token, except the one of a close-path in
    force before an operand, which repeats for ever.  So the iterations
    granted by [path_bbox] and [transform_path_data], one per token, are
    all a run that ends can take, and [OutOfFuel] is returned exactly for
    the runs that do not end. *)

Lemma decode_progress (cur : cursor) (toks : list string)
  (seg : segment) (cur' : cursor) (rest : list string) :
  decode cur toks = Ok (seg, cur', rest) ->
  (List.length rest < List.length toks)%nat
  \/ (rest = toks /\ stuck cur' toks).
Proof.
  intros Hd. unfold decode in Hd. destruct toks as [| tok toks]; [discriminate |].
  destruct (fetch_command cur tok toks) as [[c toks1] | e |] eqn:Hf;
    cbn [bind] in Hd; try discriminate.
  apply fetch_command_inv in Hf as [(Hl & -> & ->) | (Hl & Hcmd & ->)].
  - left. decode_cases Hd tok; cbn [List.length]; lia.
  - decode_cases Hd c; try (left; cbn [List.length]; lia).
    right. split; [reflexivity |].
    exists c, tok, toks. cbn [cmd]. repeat split; assumption.
Qed.

Lemma stuck_decode (cur : cursor) (toks : list string) :
  stuck cur toks ->
  exists seg cur', decode cur toks = Ok (seg, cur', toks) /\ stuck cur' toks.
Proof.
  intros (c & tok & rest & -> & Hl & Hc & Hm & Hz).
  unfold decode. rewrite (@fetch_command_operand cur c tok rest Hl Hc). cbn [bind].
  rewrite Hm, Hz. eexists _, _. split; [reflexivity |].
  exists c, tok, rest. cbn [cmd]. repeat split; assumption.
Qed.

Lemma stuck_loop (fuel : nat) :
  forall cur toks, stuck cur toks -> decode_loop fuel cur toks = OutOfFuel.
Proof.
  induction fuel as [| f IH]; intros cur toks Hs.
  - destruct Hs as (c & tok & rest & -> & _). reflexivity.
  - destruct (@stuck_decode _ _ Hs) as (seg & cur' & Hd & Hs').
    destruct Hs as (c & tok & rest & -> & _).
    cbn [decode_loop]. rewrite Hd. cbn [bind fst snd].
    rewrite (IH cur' _ Hs'). reflexivity.
Qed.

Lemma decode_loop_fuel (f1 : nat) :
  forall (f2 : nat) (cur : cursor) (toks : list string),
    (List.length toks <= f1)%nat -> (List.length toks <= f2)%nat ->
    decode_loop f1 cur toks = decode_loop f2 cur toks.
Proof.
  induction f1 as [| f1 IH]; intros f2 cur toks H1 H2.
  - destruct toks; [destruct f2; reflexivity | cbn in H1; lia].
  - destruct toks as [| tok toks]; [destruct f2; reflexivity |].
    destruct f2 as [| f2]; [cbn in H2; lia |].
    cbn [decode_loop].
    destruct (decode cur (tok :: toks)) as [[[seg cur'] rest] | e |] eqn:Hd;
      cbn [bind fst snd]; try reflexivity.
    destruct (@decode_progress _ _ _ _ _ Hd) as [Hlt | [-> Hs]].
    + cbn [List.length] in *. rewrite (IH f2 cur' rest) by lia. reflexivity.
    + rewrite !(@stuck_loop _ _ _ Hs). reflexivity.
Qed.

Lemma path_bbox_fuel (d : string) (fuel : nat) :
  (List.length (tokenize d) <= fuel)%nat ->
  bbox_loop fuel initial_cursor None (tokenize d) = path_bbox d.
Proof.
  intros H. unfold path_bbox.
  destruct (tokenize d) as [| tok toks] eqn:E; [destruct fuel; reflexivity |].
  rewrite !bbox_loop_trace.
  rewrite (@decode_loop_fuel fuel (List.length (tok :: toks)) initial_cursor
             (tok :: toks) H (Nat.le_refl _)).
  reflexivity.
Qed.

Lemma transform_path_data_fuel (k tx ty : R) (d : string) (fuel : nat) :
  (List.length (tokenize d) <= fuel)%nat ->
  (let* out := transform_loop k tx ty fuel initial_cursor [] (tokenize d) in
   Ok (join " " out))%result
  = transform_path_data k tx ty d.
Proof.
  intros H. unfold transform_path_data.
  destruct (tokenize d) as [| tok toks] eqn:E; [destruct fuel; reflexivity |].
  rewrite !transform_loop_trace.
  rewrite (@decode_loop_fuel fuel (List.length (tok :: toks)) initial_cursor
             (tok :: toks) H (Nat.le_refl _)).
  reflexivity.
Qed.

(** ** The unsupported-command branch is never taken *)

Lemma read_number_error (toks : list string) (e : error) :
  read_number toks = Err e -> e <> UnsupportedCommand.
Proof.
  unfold read_number. destruct toks as [| t r]; [intros [= <-]; discriminate |].
  destruct (float_of_string t); [discriminate | intros [= <-]; discriminate].
Qed.

Lemma decode_supported (cur : cursor) (toks : list string) :
  known_command cur -> Forall token_shape toks ->
  decode cur toks <> Err UnsupportedCommand
  /\ forall seg cur' rest,
       decode cur toks = Ok (seg, cur', rest) ->
       known_command cur' /\ Forall token_shape rest.
Proof.
  intros Hc Ht. unfold decode.
  destruct toks as [| tok toks]; [split; [discriminate | intros ? ? ?; discriminate] |].
  destruct (fetch_command cur tok toks) as [[c toks1] | e |] eqn:Hf; cbn [bind].
  - assert (H1 : In c command_letters /\ Forall token_shape toks1).
    { apply fetch_command_inv in Hf as [(Hl & -> & ->) | (_ & Hcmd & ->)].
      - split; [| apply (Forall_inv_tail Ht)].
        destruct (Forall_inv Ht) as [(a & -> & Ha) | Hn]; [| congruence].
        apply (command_letter_cases _ Ha).
      - split; [apply (Hc _ Hcmd) | exact Ht]. }
    destruct H1 as [Hin Ht1]. unfold command_letters in Hin. cbn [In] in Hin.
    repeat match type of Hin with
           | _ \/ _ => destruct Hin as [Hin | Hin]
           end;
      try contradiction; subst c; cbn -[read_number reflected_control];
      repeat match goal with
             | |- context [read_number ?t] =>
                 let E := fresh "Hr" in
                 destruct (read_number t) as [[? ?] | ? |] eqn:E; cbn [bind];
                 [ apply read_number_inv in E as (? & -> & E)
                 | split; [intros [= ->]; exact (read_number_error _ E eq_refl)
                          | intros ? ? ?; discriminate]
                 | split; [discriminate | intros ? ? ?; discriminate] ]
             end;
      try destruct (reflected_control _ _ _);
      (split; [discriminate |]);
      intros seg cur' rest [= <- <- <-];
      (split; [intros c0 [= <-]; cbn; tauto |]);
      repeat match goal with
             | H : Forall token_shape (_ :: _) |- _ => apply Forall_inv_tail in H
             end;
      assumption.
  - split; [| intros ? ? ?; discriminate].
    unfold fetch_command in Hf. destruct (starts_with_letter tok); [discriminate |].
    destruct (cmd cur); [discriminate |]. injection Hf as <-. discriminate.
  - split; [discriminate | intros ? ? ?; discriminate].
Qed.

Lemma decode_loop_supported (fuel : nat) :
  forall (cur : cursor) (toks : list string),
    known_command cur -> Forall token_shape toks ->
    decode_loop fuel cur toks <> Err UnsupportedCommand.
Proof.
  induction fuel as [| f IH]; intros cur toks Hc Ht.
  - destruct toks; discriminate.
  - destruct toks as [| tok toks]; [discriminate |].
    cbn [decode_loop].
    destruct (decode_supported Hc Ht) as [Hne Hok].
    destruct (decode cur (tok :: toks)) as [[[seg cur'] rest] | e |];
      cbn [bind fst snd];
      [| intros [= ->]; apply Hne; reflexivity | discriminate].
    destruct (Hok seg cur' rest eq_refl) as [Hc' Ht'].
    specialize (IH cur' rest Hc' Ht').
    destruct (decode_loop f cur' rest); cbn [bind];
      [discriminate | intros [= ->]; apply IH; reflexivity | discriminate].
Qed.

Lemma initial_cursor_known : known_command initial_cursor.
Proof. intros c. discriminate. Qed.

Lemma path_bbox_supported (d : string) : path_bbox d <> Err UnsupportedCommand.
Proof.
  unfold path_bbox. pose proof (scan_shape (String.length d) d) as Hs.
  fold (tokenize d) in Hs.
  destruct (tokenize d) as [| tok toks]; [discriminate |].
  rewrite bbox_loop_trace.
  pose proof (@decode_loop_supported (List.length (tok :: toks)) _ _
                initial_cursor_known Hs) as Hl.
  destruct (decode_loop (List.length (tok :: toks)) initial_cursor (tok :: toks));
    cbn [bind]; [discriminate | intros [= ->]; apply Hl; reflexivity | discriminate].
Qed.

Lemma transform_path_data_supported (k tx ty : R) (d : string) :
  transform_path_data k tx ty d <> Err UnsupportedCommand.
Proof.
  unfold transform_path_data. pose proof (scan_shape (String.length d) d) as Hs.
  fold (tokenize d) in Hs.
  destruct (tokenize d) as [| tok toks]; [discriminate |].
  rewrite transform_loop_trace.
  pose proof (@decode_loop_supported (List.length (tok :: toks)) _ _
                initial_cursor_known Hs) as Hl.
  destruct (decode_loop (List.length (tok :: toks)) initial_cursor (tok :: toks));
    cbn [bind]; [discriminate | intros [= ->]; apply Hl; reflexivity | discriminate].
Qed.

(** C8.  Neither interpreter ever fails with the unsupported-command
    error: the tokenizer keeps the twenty command letters only, so the
    branch that raises it is never reached.  The letter [B] is no path
    command, and yet the path data ["M0 0 B5 5"] is interpreted in both
    modes: the tokenizer drops the letter, and its operands are taken as
    the implicit line of the [M]. *)
Theorem unsupported_letter_is_skipped :
  (forall d, path_bbox d <> Err UnsupportedCommand)
  /\ (forall k tx ty d, transform_path_data k tx ty d <> Err UnsupportedCommand)
  /\ is_command_letter "B" = false
  /\ tokenize "M0 0 B5 5" = ["M"; "0"; "0"; "5"; "5"]
  /\ path_bbox "M0 0 B5 5" = Ok (Some (Box 0 0 5 5))
  /\ transform_path_data 1 0 0 "M0 0 B5 5" = Ok "M0 0 L5 5".
Proof.
  split; [exact path_bbox_supported |].
  split; [exact transform_path_data_supported |].
  split; [reflexivity |]. split; [reflexivity |]. split.
  - run. do 2 f_equal. f_equal; minmax.
  - run. replace (0 * 1 + 0) with 0 by ring. replace (5 * 1 + 0) with 5 by ring.
    rewrite !fmt_number_IZR. reflexivity.
Qed.

(* ================================================================== *)
(** * Numbers are written and read back *)

(** ** The value of a plain numeral *)

Lemma digits_value_app (a b : string) :
  forall acc, digits_value acc (a ++ b) = digits_value (digits_value acc a) b.
Proof.
  induction a as [| c a IH]; intros acc; cbn [String.append digits_value];
    [reflexivity | apply IH].
Qed.

Lemma digits_value_acc (s : string) :
  forall acc,
    digits_value acc s
    = (acc * 10 ^ Z.of_nat (String.length s) + digits_value 0 s)%Z.
Proof.
  induction s as [| c s IH]; intros acc; cbn [digits_value String.length].
  - cbn. lia.
  - rewrite (IH (acc * 10 + digit_value c)%Z), (IH (0 * 10 + digit_value c)%Z).
    rewrite Nat2Z.inj_succ, Z.pow_succ_r by lia. ring.
Qed.

Lemma parse_decimal_numeral (neg : bool) (ip fp : string) :
  all_digits ip = true -> ip <> EmptyString -> all_digits fp = true ->
  parse_decimal ((if neg then "-" else EmptyString) ++ ip
                 ++ match fp with EmptyString => EmptyString | _ => "." ++ fp end)
  = Some ((if neg then - digits_value 0 (ip ++ fp) else digits_value 0 (ip ++ fp))%Z,
          (- Z.of_nat (String.length fp))%Z).
Proof.
  intros Hip Hne Hfp.
  set (frac := match fp with EmptyString => EmptyString | _ => "." ++ fp end).
  assert (Hspan : span_digits (ip ++ frac) = (ip, frac)).
  { apply span_digits_app; [exact Hip |]. unfold frac.
    destruct fp; [exact I | reflexivity]. }
  assert (Hfrac : split_fraction frac = (fp, EmptyString)).
  { unfold frac. destruct fp as [| c r]; [reflexivity |].
    cbn [String.append split_fraction]. change (Ascii.eqb "." ".") with true.
    cbv iota. rewrite <- (append_nil_r (String c r)) at 1.
    apply span_digits_app; [exact Hfp | exact I]. }
  assert (Hlen : (String.length ip =? 0)%nat = false)
    by (destruct ip; [congruence | reflexivity]).
  assert (Hdot : negb (starts_with_dot frac && (String.length fp =? 0)%nat) = true)
    by (unfold frac; destruct fp; reflexivity).
  unfold parse_decimal. destruct neg.
  - cbn [String.append split_sign]. change (Ascii.eqb "-" "-") with true. cbv iota.
    rewrite Hspan, Hfrac. cbn [parse_exponent]. cbv zeta.
    rewrite Hlen, Hdot. cbn [andb negb]. reflexivity.
  - cbn [String.append].
    assert (Hs : split_sign (ip ++ frac) = (false, ip ++ frac)).
    { destruct ip as [| c r]; [congruence |]. cbn [String.append].
      cbn [all_digits] in Hip. apply andb_prop in Hip as [Hc _].
      unfold split_sign.
      destruct (digit_not_special _ Hc) as (Hsg & _).
      unfold is_sign, char_in in Hsg. cbn [list_ascii_of_string existsb] in Hsg.
      apply orb_false_elim in Hsg as [H1 H2]. apply orb_false_elim in H2 as [H2 _].
      rewrite H1, H2. reflexivity. }
    rewrite Hs, Hspan, Hfrac. cbn [parse_exponent]. cbv zeta.
    rewrite Hlen, Hdot. cbn [andb negb]. reflexivity.
Qed.

(** ** The decimals that are kept *)

(** The decimals [fmt_number] keeps of a fraction [f / 10000], checked
    for each of the fractions: some digits, at most four, that denote
    [f] when the stripped zeros are put back. *)
Lemma stripped_fraction_table :
  forallb
    (fun f =>
       let fp := rstrip "0" (pad4 f) in
       all_digits fp && negb (String.length fp =? 0)%nat
       && (String.length fp <=? 4)%nat
       && (digits_value 0 fp * 10 ^ (4 - Z.of_nat (String.length fp)) =? f)%Z)
    (map Z.of_nat (seq 1 (Z.to_nat 9999)))
  = true.
Proof. vm_compute. reflexivity. Qed.

Lemma stripped_fraction (f : Z) :
  (0 < f < 10000)%Z ->
  let fp := rstrip "0" (pad4 f) in
  all_digits fp = true /\ fp <> EmptyString
  /\ (String.length fp <= 4)%nat
  /\ (digits_value 0 fp * 10 ^ (4 - Z.of_nat (String.length fp)) = f)%Z.
Proof.
  intros Hf. pose proof stripped_fraction_table as H.
  rewrite forallb_forall in H. specialize (H f).
  assert (Hin : In f (map Z.of_nat (seq 1 (Z.to_nat 9999)))).
  { apply in_map_iff. exists (Z.to_nat f). split; [lia |]. apply in_seq. lia. }
  specialize (H Hin). cbv zeta in H |- *.
  apply andb_prop in H as [H H4]. apply andb_prop in H as [H H3].
  apply andb_prop in H as [H1 H2].
  split; [exact H1 |]. split.
  - intros E. rewrite E in H2. discriminate H2.
  - split; [apply Nat.leb_le, H3 | apply Z.eqb_eq, H4].
Qed.

Lemma decimal_negative_exponent (m L : Z) :
  (0 <= L)%Z -> decimal m (- L) = IZR m / IZR (10 ^ L).
Proof.
  intros HL. unfold decimal. destruct (Z.leb_spec 0 (- L)) as [H0 | H0].
  - assert (E : L = 0%Z) by lia. subst L.
    change (- 0)%Z with 0%Z. change (10 ^ 0)%Z with 1%Z.
    rewrite Z.mul_1_r. field.
  - replace (- - L)%Z with L by lia. reflexivity.
Qed.

Lemma float_of_numeral (neg : bool) (ip fp : string) :
  all_digits ip = true -> ip <> EmptyString -> all_digits fp = true ->
  float_of_string ((if neg then "-" else EmptyString) ++ ip
                   ++ match fp with EmptyString => EmptyString | _ => "." ++ fp end)
  = Some ((if neg then -1 else 1)
          * (IZR (digits_value 0 ip)
             + IZR (digits_value 0 fp) / IZR (10 ^ Z.of_nat (String.length fp)))).
Proof.
  intros Hip Hne Hfp. unfold float_of_string.
  rewrite (@parse_decimal_numeral neg ip fp Hip Hne Hfp).
  f_equal. rewrite digits_value_app, digits_value_acc.
  set (L := Z.of_nat (String.length fp)).
  assert (HL : (0 <= L)%Z) by (unfold L; lia).
  assert (Hp : (0 < 10 ^ L)%Z) by (apply Z.pow_pos_nonneg; lia).
  assert (Hp' : 0 < IZR (10 ^ L)) by (apply (IZR_lt 0); exact Hp).
  rewrite (decimal_negative_exponent _ HL).
  destruct neg; rewrite ?opp_IZR, ?plus_IZR, ?mult_IZR; field; lra.
Qed.

Lemma float_of_canonical (n : Z) :
  float_of_string (canonical_decimal n) = Some (IZR n / 10000).
Proof.
  unfold canonical_decimal. set (m := Z.abs n). cbv zeta.
  set (q := (m / 10000)%Z). set (f := (m mod 10000)%Z).
  assert (Hm : m = (q * 10000 + f)%Z) by (unfold q, f; lia).
  assert (Hf : (0 <= f < 10000)%Z) by (unfold f; lia).
  assert (Hq : (0 <= q)%Z) by (unfold q, m; lia).
  destruct (@str_int_digits q Hq) as [Hd Hne].
  assert (Hsign : IZR n = (if (n <? 0)%Z then -1 else 1) * IZR m).
  { unfold m. destruct (Z.ltb_spec n 0).
    - rewrite Z.abs_neq by lia. rewrite opp_IZR. ring.
    - rewrite Z.abs_eq by lia. ring. }
  destruct (Z.eqb_spec f 0) as [Ef | Ef].
  - pose proof (@float_of_numeral (n <? 0)%Z (str_int q) EmptyString Hd Hne eq_refl) as H.
    cbv iota in H. rewrite H. f_equal.
    rewrite digits_value_str_int by exact Hq. cbn [digits_value String.length Z.of_nat Z.pow].
    rewrite Hsign, Hm, Ef, plus_IZR, mult_IZR. field.
  - destruct (@stripped_fraction f ltac:(lia)) as (Hfd & Hfn & Hlen & Hval).
    set (fp := rstrip "0" (pad4 f)) in *.
    pose proof (@float_of_numeral (n <? 0)%Z (str_int q) fp Hd Hne Hfd) as H.
    replace (match fp with EmptyString => EmptyString | _ => "." ++ fp end)
      with ("." ++ fp) in H by (destruct fp; [congruence | reflexivity]).
    rewrite H. f_equal.
    rewrite digits_value_str_int by exact Hq.
    rewrite Hsign, Hm, plus_IZR, mult_IZR.
    assert (Hcases : String.length fp = 1%nat \/ String.length fp = 2%nat
                     \/ String.length fp = 3%nat \/ String.length fp = 4%nat).
    { destruct (String.length fp) as [| [| [| [| [| k]]]]] eqn:El; lia. }
    clearbody fp.
    destruct Hcases as [El | [El | [El | El]]]; rewrite El in Hval |- *;
      match type of Hval with
      | (_ * ?p)%Z = _ => let v := eval vm_compute in p in change p with v in Hval
      end;
      match goal with
      | |- context [IZR (10 ^ ?k)] =>
          let v := eval vm_compute in (10 ^ k)%Z in change (10 ^ k)%Z with v
      end;
      rewrite <- Hval, mult_IZR; field.
Qed.

Lemma numeral_text_canonical (n : Z) : numeral_text (canonical_decimal n).
Proof.
  unfold canonical_decimal. set (m := Z.abs n). cbv zeta.
  set (q := (m / 10000)%Z). set (f := (m mod 10000)%Z).
  assert (Hf : (0 <= f < 10000)%Z) by (unfold f; lia).
  assert (Hq : (0 <= q)%Z) by (unfold q, m; lia).
  destruct (@str_int_digits q Hq) as [Hd Hne].
  destruct (Z.eqb_spec f 0) as [Ef | Ef].
  - exists (n <? 0)%Z, (str_int q), EmptyString. repeat split; assumption.
  - destruct (@stripped_fraction f ltac:(lia)) as (Hfd & Hfn & _ & _).
    exists (n <? 0)%Z, (str_int q), (rstrip "0" (pad4 f)).
    split; [| repeat split; assumption].
    destruct (rstrip "0" (pad4 f)); [congruence | reflexivity].
Qed.

Lemma fmt_number_numeral (v : R) :
  numeral_text (fmt_number v)
  /\ float_of_string (fmt_number v) = Some (IZR (round4 v) / 10000).
Proof.
  destruct (Z.eq_dec (round4 v) 0) as [E | E].
  - rewrite (@fmt_number_round4_zero v E), E.
    replace (0 / 10000) with 0 by field.
    destruct (Rleb v (- (1 / 1000000))).
    + split; [exists true, "0", EmptyString; repeat split; discriminate |].
      assert (H : float_of_string "-0"
                  = Some (-1 * (IZR (digits_value 0 "0")
                                + IZR (digits_value 0 EmptyString)
                                  / IZR (10 ^ Z.of_nat (String.length EmptyString)))))
        by (apply (@float_of_numeral true "0" EmptyString);
            [reflexivity | discriminate | reflexivity]).
      rewrite H. f_equal.
      change (digits_value 0 "0") with 0%Z.
      change (digits_value 0 EmptyString) with 0%Z.
      change (10 ^ Z.of_nat (String.length EmptyString))%Z with 1%Z. lra.
    + split; [exists false, "0", EmptyString; repeat split; discriminate |].
      reflexivity.
  - rewrite (@fmt_number_canonical v E).
    split; [apply numeral_text_canonical | apply float_of_canonical].
Qed.


Lemma round4_grid (n : Z) : round4 (IZR n / 10000) = n.
Proof.
  unfold round4. replace (IZR n / 10000 * 10000) with (IZR n) by field.
  apply round_half_even_IZR.
Qed.


(** ** Every number token has a value *)








(** ** What the tokenizer yields *)



(* ================================================================== *)
(** * The box of a transformed path *)

Lemma four_decimals_printable (v : R) : four_decimals v -> printable v.
Proof.
  intros [n ->]. destruct (fmt_number_numeral (IZR n / 10000)) as [Hn Hf].
  split; [exact Hn |]. rewrite Hf, round4_grid. reflexivity.
Qed.

Lemma trace_no_arc (fuel : nat) :
  forall (cur : cursor) (toks : list string) (tr : list (cursor * segment)),
    decode_loop fuel cur toks = Ok tr ->
    no_arc_command cur -> Forall no_arc_token toks ->
    Forall (fun cs => is_arc (snd cs) = false) tr.
Proof.
  induction fuel as [| f IH]; intros cur toks tr Hl Hna Hnt.
  - destruct toks; [| discriminate]. injection Hl as <-. apply Forall_nil.
  - destruct toks as [| tok toks]; [injection Hl as <-; apply Forall_nil |].
    cbn [decode_loop] in Hl.
    destruct (decode cur (tok :: toks)) as [[[seg cur'] rest] | e |] eqn:Hd;
      cbn [bind fst snd] in Hl; try discriminate.
    destruct (decode_loop f cur' rest) as [tr' | e |] eqn:Hl';
      cbn [bind] in Hl; try discriminate.
    injection Hl as <-.
    destruct (@decode_no_arc _ _ _ _ _ Hd Hna Hnt) as (Harc & Hna' & Hnt').
    apply Forall_cons; [exact Harc | apply (IH cur' rest tr' Hl' Hna' Hnt')].
Qed.

(** ** The run over the emitted path data *)

Section SecondRun.

Variables k tx ty : R.
Hypothesis Hk : 0 < k.

Lemma second_run (fuel : nat) :
  forall (cur : cursor) (toks : list string) (tr : list (cursor * segment)),
    decode_loop fuel cur toks = Ok tr ->
    no_arc_command cur -> Forall no_arc_token toks ->
    Forall (fun cs => written_exactly k tx ty (snd cs)
                      /\ guards_agree k (fst cs) (snd cs)) tr ->
    forall (cur2 : cursor) (bbox : option box) (fuel2 : nat),
      mapped_position k tx ty cur cur2 \/ starts_with_move toks ->
      (List.length tr <= fuel2)%nat ->
      bbox_loop fuel2 cur2 (map_bbox k tx ty bbox) (mapped_tokens k tx ty tr)
      = Ok (map_bbox k tx ty (trace_bbox bbox tr)).
Proof.
  induction fuel as [| f IH];
    intros cur toks tr Hl Hna Hnt Hex cur2 bbox fuel2 Hpos Hlen.
  - destruct toks; [| discriminate]. injection Hl as <-.
    destruct fuel2; reflexivity.
  - destruct toks as [| tok toks].
    + injection Hl as <-. destruct fuel2; reflexivity.
    + cbn [decode_loop] in Hl.
      destruct (decode cur (tok :: toks)) as [[[seg cur'] rest] | e |] eqn:Hd;
        cbn [bind fst snd] in Hl; try discriminate.
      destruct (decode_loop f cur' rest) as [tr' | e |] eqn:Hl';
        cbn [bind] in Hl; try discriminate.
      injection Hl as <-.
      destruct (@decode_no_arc _ _ _ _ _ Hd Hna Hnt) as (Harc & Hna' & Hnt').
      pose proof (@decode_position _ _ _ _ _ Hd) as Hp.
      pose proof (Forall_inv Hex) as [Hw Hg]. cbn [fst snd] in Hw, Hg.
      apply Forall_inv_tail in Hex.
      assert (Hpos' : mapped_position k tx ty cur cur2 \/ is_move seg = true).
      { destruct Hpos as [H | H]; [left; exact H | right].
        cbn [starts_with_move] in H. apply (@decode_move _ _ _ _ _ _ H Hd). }
      destruct fuel2 as [| f2]; [cbn in Hlen; lia |].
      unfold mapped_tokens. cbn [map List.concat snd].
      assert (Harc' : is_arc (map_segment k tx ty seg) = false)
        by (destruct seg; try discriminate Harc; reflexivity).
      assert (Hfl : Forall (fun v => float_of_string (fmt_number v) = Some v)
                      (segment_operands (map_segment k tx ty seg))).
      { eapply Forall_impl; [| exact Hw].
        intros v Hv. apply (four_decimals_printable Hv). }
      pose proof (@decode_rendered cur2 (map_segment k tx ty seg)
                    (mapped_tokens k tx ty tr') Harc' Hfl) as Hdr.
      unfold mapped_tokens in Hdr.
      unfold segment_tokens at 1. cbn [app bbox_loop].
      rewrite bbox_step_decode.
      change (segment_letter (map_segment k tx ty seg)
              :: (map fmt_number (segment_operands (map_segment k tx ty seg))
                  ++ List.concat (map (fun cs => segment_tokens (map_segment k tx ty (snd cs))) tr'))%list)
        with (segment_tokens (map_segment k tx ty seg)
              ++ List.concat (map (fun cs => segment_tokens (map_segment k tx ty (snd cs))) tr'))%list.
      rewrite Hdr. cbn [bind fst snd].
      rewrite (@segment_extend_mapped k tx ty Hk bbox cur cur2 seg Hpos' Harc Hg).
      cbn [trace_bbox fold_left fst snd].
      apply (IH cur' rest tr' Hl' Hna' Hnt' Hex).
      * left. apply (@position_mapped k tx ty cur cur2 cur' seg Hpos' Hp).
      * cbn [List.length] in Hlen. lia.
Qed.

End SecondRun.

(** C1 (as amended).  For path data without arc commands that begins with
    a move ([M] or [m]), for every scale [k > 0] and every translation
    [(tx, ty)]: when every coordinate [transform_path_data] writes (the
    image [x * k + tx], [y * k + ty] of each coordinate of each segment)
    has at most four decimals, and scaling by [k] moves no derivative
    coefficient of a curve segment across the [1e-8] guards of the extrema
    solvers, the bounding box of the transformed path is the bounding box
    of the original path, scaled by [k] and then translated by
    [(tx, ty)]; where [path_bbox] fails on the original path,
    [transform_path_data] fails alike. *)
Theorem bbox_of_transformed_path (k tx ty : R) (d : string) :
  0 < k ->
  starts_with_move (tokenize d) ->
  arc_free (tokenize d) ->
  (forall tr,
      decode_loop (List.length (tokenize d)) initial_cursor (tokenize d) = Ok tr ->
      Forall (fun cs => written_exactly k tx ty (snd cs)
                        /\ guards_agree k (fst cs) (snd cs)) tr) ->
  (let* out := transform_path_data k tx ty d in path_bbox out)%result
  = (let* bb := path_bbox d in
     Ok (bbox_translate (bbox_scale bb k) tx ty))%result.
Proof.
  intros Hk Hm Ha Hex.
  pose proof (scan_shape (String.length d) d) as Hs. fold (tokenize d) in Hs.
  pose proof (shape_no_arc Hs Ha) as Hn.
  unfold transform_path_data, path_bbox at 2.
  destruct (tokenize d) as [| tok toks] eqn:Etok; [reflexivity |].
  rewrite transform_loop_trace, bbox_loop_trace.
  assert (Hcmd : no_arc_command initial_cursor) by (intros c; discriminate).
  destruct (decode_loop (List.length (tok :: toks)) initial_cursor (tok :: toks))
    as [tr | e |] eqn:Hl; cbn [bind app]; try reflexivity.
  specialize (Hex tr eq_refl).
  assert (Hpr : Forall (fun cs => is_arc (snd cs) = false
                                  /\ Forall printable
                                       (segment_operands (map_segment k tx ty (snd cs))))
                       tr).
  { pose proof (trace_no_arc _ Hl Hcmd Hn) as Harc.
    rewrite Forall_forall in Harc, Hex |- *. intros cs Hin.
    split; [apply (Harc cs Hin) |].
    destruct (Hex cs Hin) as [Hw _]. unfold written_exactly in Hw.
    eapply Forall_impl; [| exact Hw]. intros v Hv.
    apply (four_decimals_printable Hv). }
  unfold path_bbox.
  rewrite (@tokenize_rendered k tx ty tr Hpr).
  pose proof (mapped_tokens_length k tx ty tr) as Hlen.
  pose proof (@second_run k tx ty Hk _ _ _ _ Hl Hcmd Hn Hex initial_cursor None
                (List.length (mapped_tokens k tx ty tr)) (or_intror Hm) Hlen) as Hrun.
  destruct (mapped_tokens k tx ty tr) as [| t ts] eqn:Emap.
  - destruct tr; [reflexivity | cbn in Hlen; lia].
  - exact Hrun.
Qed.

Lemma bbox_of_transformed_path_witness :
  (let* out := transform_path_data (1 / 4) 1 0 "M2 2 l2 4 Q8 10 12 2 z" in
   path_bbox out)%result
  = (let* bb := path_bbox "M2 2 l2 4 Q8 10 12 2 z" in
     Ok (bbox_translate (bbox_scale bb (1 / 4)) 1 0))%result.
Proof.
  assert (E : tokenize "M2 2 l2 4 Q8 10 12 2 z"
              = ["M"; "2"; "2"; "l"; "2"; "4"; "Q"; "8"; "10"; "12"; "2"; "z"])
    by reflexivity.
  apply (@bbox_of_transformed_path (1 / 4) 1 0 "M2 2 l2 4 Q8 10 12 2 z");
    try rewrite E.
  - lra.
  - left. reflexivity.
  - repeat (apply Forall_cons; [split; discriminate |]). apply Forall_nil.
  - intros tr H.
    cbv -[Rplus Rmult Rminus Ropp Rdiv Rinv IZR] in H. injection H as <-.
    repeat (apply Forall_cons;
            [ split;
              [ unfold written_exactly;
                cbn [snd map_segment segment_operands];
                repeat (apply Forall_cons;
                        [ unfold four_decimals, map_x, map_y;
                          first [ exists 5000%Z; lra | exists 15000%Z; lra
                                | exists 20000%Z; lra | exists 25000%Z; lra
                                | exists 30000%Z; lra | exists 40000%Z; lra ] |]);
                apply Forall_nil
              | cbn [guards_agree fst snd cur_x cur_y];
                first [ exact I
                      | split; unfold quadratic_guard_agrees, eps; cbv zeta;
                        split; intros Hg; unfold Rabs in *;
                        repeat match goal with
                               | H : context [Rcase_abs ?x] |- _ =>
                                   destruct (Rcase_abs x)
                               | |- context [Rcase_abs ?x] =>
                                   destruct (Rcase_abs x)
                               end; lra ] ] |]).
    apply Forall_nil.
Defined.

(* ================================================================== *)
(** * Further properties of the box algebra *)










(** ** [bbox_distance] *)





(* ================================================================== *)
(** * Further properties of the two interpreters *)

(** ** They accept the same path data *)



(** ** The missing-command error *)






(** ** Runs that do not end *)



(** ** Runs that end *)








(** ** What the box encloses *)











(** ** The box that is returned *)







(* ================================================================== *)
(** * The emitted path data is path data *)











(** ** Two transforms in a row *)


Section GridTrace.

Variable P : R -> Prop.
Hypothesis P_add : forall a b, P a -> P b -> P (a + b).
Hypothesis P_scale : forall (z : Z) a, P a -> P (IZR z * a).


End GridTrace.





(* ================================================================== *)
(** * Further properties of the composition *)

(** ** Where the base and the cut-out are put *)




(** ** Without the smoothing capability *)


(** ** When the composition succeeds *)



